(** * Neon Checkers: the rules engine of [AI Project/checkers.py]

    A shallow embedding of the board, the move generator
    ([get_piece_moves], [get_all_moves]), the move applicator
    ([apply_move]), the terminal test ([is_terminal], [winner]) and the
    event handlers of [main], followed by the properties of the
    specification that concern them.

    Python integers are unbounded, so cells and coordinates are [Z].
    A board is a list of rows, as in the source; list subscripts follow
    Python: a negative subscript counts from the end and anything outside
    [-len, len) raises [IndexError]. *)

From Stdlib Require Import ZArith Lia.
From stdpp Require Import base list gmap.

#[local] Open Scope Z_scope.
#[local] Set Warnings "-clear-no-such-hyp".

(** ** Results of Python computations *)

Inductive result (A : Type) : Type :=
| Ok (a : A)
| IndexError
| OutOfFuel.
Arguments Ok {A} a.
Arguments IndexError {A}.
Arguments OutOfFuel {A}.

#[global] Instance result_ret : MRet result := λ A a, Ok a.
#[global] Instance result_bind : MBind result := λ A B f m,
  match m with
  | Ok a => f a
  | IndexError => IndexError
  | OutOfFuel => OutOfFuel
  end.

(** [for x in xs: body], threading the variables the body assigns. *)
Fixpoint for_each {A S : Type} (xs : list A) (body : A → S → result S) (s : S)
  : result S :=
  match xs with
  | [] => Ok s
  | x :: xs' => s' ← body x s; for_each xs' body s'
  end.

(** [range(a, b)] *)
Definition range (a b : Z) : list Z := seqZ a (b - a).

(** ** Python list subscripts *)

Definition py_index (n : nat) (i : Z) : option nat :=
  if (0 <=? i) && (i <? Z.of_nat n) then Some (Z.to_nat i)
  else if (- Z.of_nat n <=? i) && (i <? 0) then Some (Z.to_nat (Z.of_nat n + i))
  else None.

(** [l[i]] *)
Definition getitem {A : Type} (l : list A) (i : Z) : result A :=
  match py_index (length l) i with
  | Some k => match l !! k with Some x => Ok x | None => IndexError end
  | None => IndexError
  end.

(** [l[i] = x] *)
Definition setitem {A : Type} (l : list A) (i : Z) (x : A) : result (list A) :=
  match py_index (length l) i with
  | Some k => Ok (<[k := x]> l)
  | None => IndexError
  end.

(** ** Config and utilities *)

Definition ROWS : Z := 8.
Definition COLS : Z := 8.
Definition BOARD_SIZE : Z := 800.
Definition SQ : Z := BOARD_SIZE `div` COLS.

Abbreviation Coord := (Z * Z)%type.
Abbreviation Path := (list Coord).
Abbreviation Board := (list (list Z)).

Definition in_bounds (r c : Z) : bool :=
  (0 <=? r) && (r <? ROWS) && (0 <=? c) && (c <? COLS).

(** [[row[:] for row in b]]: with rows as values the copy is the board
    itself; the aliasing that the copy avoids is studied in [Module Heap]. *)
Definition clone_board (b : Board) : Board := map (λ row : list Z, row) b.

(** [b[r][c]] *)
Definition bget (b : Board) (r c : Z) : result Z :=
  row ← getitem b r; getitem row c.

(** [b[r][c] = v] *)
Definition bset (b : Board) (r c : Z) (v : Z) : result Board :=
  row ← getitem b r; row' ← setitem row c v; setitem b r row'.

(** ** Board setup: 1 = Red, 2 = Red King, -1 = Blue, -2 = Blue King *)

Definition fill_rows (rows : list Z) (v : Z) (b : Board) : result Board :=
  for_each rows (λ r b,
    for_each (range 0 COLS) (λ c b,
      if (r + c) `mod` 2 =? 1 then bset b r c v else Ok b) b) b.

Definition initial_board : result Board :=
  let b := map (λ _, replicate (Z.to_nat COLS) 0) (range 0 ROWS) in
  b ← fill_rows (range 0 3) (-1) b;
  fill_rows (range 5 8) 1 b.

(** ** Move generation *)

Definition all_dirs : list (Z * Z) := [(-1, -1); (-1, 1); (1, -1); (1, 1)].
Definition up_dirs : list (Z * Z) := [(-1, -1); (-1, 1)].
Definition down_dirs : list (Z * Z) := [(1, -1); (1, 1)].

(** The direction list of [dfs], recomputed from the piece on the scratch
    board at every call. *)
Definition scan_dirs (pc : Z) : list (Z * Z) :=
  if Z.abs pc =? 2 then all_dirs
  else if 0 <? pc then up_dirs else down_dirs.

(** The direction list of the simple moves. *)
Definition directions (piece : Z) : list (Z * Z) :=
  let color := if 0 <? piece then 1 else -1 in
  let king := Z.abs piece =? 2 in
  if king then all_dirs
  else if color =? 1 then up_dirs else down_dirs.

(** The jump performed on a clone (lines 99 to 105): move the piece to the
    landing square, clear the square it left and the jumped square, and
    crown it when it lands on the last row. *)
Definition jump (bd : Board) (cr cc mr mc lr lc : Z) : result Board :=
  let nb := clone_board bd in
  v ← bget nb cr cc;
  nb ← bset nb lr lc v;
  nb ← bset nb cr cc 0;
  nb ← bset nb mr mc 0;
  v ← bget nb lr lc;
  nb ← (if (v =? 1) && (lr =? 0) then bset nb lr lc 2 else Ok nb);
  v ← bget nb lr lc;
  if (v =? -1) && (lr =? ROWS - 1) then bset nb lr lc (-2) else Ok nb.

(** The test of lines 96 and 97, with Python's left-to-right evaluation. *)
Definition can_jump (bd : Board) (pc mr mc lr lc : Z) : result bool :=
  if in_bounds mr mc && in_bounds lr lc then
    m ← bget bd mr mc;
    if negb (m =? 0) then
      m ← bget bd mr mc;
      if m * pc <? 0 then l ← bget bd lr lc; Ok (l =? 0) else Ok false
    else Ok false
  else Ok false.

Definition nonempty {A : Type} (l : list A) : bool :=
  match l with [] => false | _ => true end.

(** [dfs] appends to the list [capture_moves] of the enclosing call, which is
    threaded here.  Its parameter [visited] is extended at every call and
    never read, and is left out.  Every jump clears one occupied square, so
    the recursion is bounded; [fuel] makes that bound explicit. *)
Fixpoint dfs (fuel : nat) (bd : Board) (cr cc : Z) (path : Path)
    (capture_moves : list Path) : result (list Path) :=
  match fuel with
  | O => OutOfFuel
  | S fuel' =>
    pc ← bget bd cr cc;
    '(found_any, capture_moves) ←
      for_each (scan_dirs pc) (λ '(dr, dc) '(found_any, capture_moves),
        let mr := cr + dr in
        let mc := cc + dc in
        let lr := cr + 2 * dr in
        let lc := cc + 2 * dc in
        ok ← can_jump bd pc mr mc lr lc;
        if ok : bool then
          nb ← jump bd cr cc mr mc lr lc;
          capture_moves ← dfs fuel' nb lr lc (path ++ [(lr, lc)]) capture_moves;
          Ok (true, capture_moves)
        else Ok (found_any, capture_moves)) (false, capture_moves);
    if negb found_any && nonempty path
    then Ok (capture_moves ++ [path])
    else Ok capture_moves
  end.

(** Number of occupied squares. *)
Definition pieces (b : Board) : nat :=
  length (filter (λ v : Z, v ≠ 0) (concat b)).

Definition get_piece_moves (board : Board) (r c : Z)
  : result (list Path * list Path) :=
  piece ← bget board r c;
  if piece =? 0 then Ok ([], [])
  else
    normal_moves ←
      for_each (directions piece) (λ '(dr, dc) normal_moves,
        let nr := r + dr in
        let nc := c + dc in
        if in_bounds nr nc then
          v ← bget board nr nc;
          if v =? 0 then Ok (normal_moves ++ [[(nr, nc)]]) else Ok normal_moves
        else Ok normal_moves) [];
    capture_moves ← dfs (S (pieces board)) board r c [] [];
    Ok (normal_moves, capture_moves).

Abbreviation Move := (Z * Z * Path)%type.

Definition get_all_moves (board : Board) (player : Z) : result (list Move) :=
  '(captures, normals) ←
    for_each (range 0 ROWS) (λ r acc,
      for_each (range 0 COLS) (λ c '(captures, normals),
        v ← bget board r c;
        if 0 <? v * player then
          '(nm, cm) ← get_piece_moves board r c;
          Ok (captures ++ map (λ p, (r, c, p)) cm,
              normals ++ map (λ p, (r, c, p)) nm)
        else Ok (captures, normals)) acc) ([], []);
  Ok (if nonempty captures then captures else normals).

(** ** Apply move *)

(** The loop of lines 138 to 143. *)
Definition walk (nb : Board) (cr cc : Z) (path : Path)
  : result (Board * Z * Z) :=
  for_each path (λ '(nr, nc) '(nb, cr, cc),
    nb ← (if (Z.abs (nr - cr) =? 2) || (Z.abs (nc - cc) =? 2)
          then bset nb ((nr + cr) `div` 2) ((nc + cc) `div` 2) 0
          else Ok nb);
    Ok (nb, nr, nc)) (nb, cr, cc).

Definition apply_move (board : Board) (move : Move) : result Board :=
  let '(sr, sc, path) := move in
  let nb := clone_board board in
  piece ← bget nb sr sc;
  nb ← bset nb sr sc 0;
  '(nb, cr, cc) ← walk nb sr sc path;
  nb ← bset nb cr cc piece;
  v ← bget nb cr cc;
  nb ← (if (v =? 1) && (cr =? 0) then bset nb cr cc 2 else Ok nb);
  v ← bget nb cr cc;
  if (v =? -1) && (cr =? ROWS - 1) then bset nb cr cc (-2) else Ok nb.

(** ** Terminal / winner *)

(** [any(p(board[r][c]) for r in range(ROWS) for c in range(COLS))]: the
    generator is consumed until the first true element. *)
Fixpoint any_cell (p : Z → bool) (board : Board) (sqs : list Coord)
  : result bool :=
  match sqs with
  | [] => Ok false
  | (r, c) :: sqs' =>
    v ← bget board r c;
    if p v then Ok true else any_cell p board sqs'
  end.

Definition squares : list Coord :=
  r ← range 0 ROWS; c ← range 0 COLS; [(r, c)].

Definition is_terminal (board : Board) : result bool :=
  red ← any_cell (λ v, 0 <? v) board squares;
  blue ← any_cell (λ v, v <? 0) board squares;
  Ok (negb red || negb blue).

Inductive side : Type := Red | Blue.

Definition winner (board : Board) : result (option side) :=
  red ← any_cell (λ v, 0 <? v) board squares;
  blue ← any_cell (λ v, v <? 0) board squares;
  if red && negb blue then Ok (Some Red)
  else if blue && negb red then Ok (Some Blue)
  else Ok None.

(** * Boards as values: what the statements and the proofs speak of *)

(** ** Well-formed boards and total cell access *)

(** A board as [initial_board] builds it: [ROWS] rows of [COLS] cells. *)
Definition wf (b : Board) : Prop :=
  length b = Z.to_nat ROWS ∧ Forall (λ row, length row = Z.to_nat COLS) b.

Definition cell (b : Board) (r c : Z) : Z :=
  default 0 (b !! Z.to_nat r ≫= λ row, row !! Z.to_nat c).

Definition upd (b : Board) (r c v : Z) : Board :=
  match b !! Z.to_nat r with
  | Some row => <[Z.to_nat r := <[Z.to_nat c := v]> row]> b
  | None => b
  end.

(** ** The jump and its test, without errors *)

(** Crowning as both [dfs] and [apply_move] perform it on a landed piece. *)
Definition crown (v lr : Z) : Z :=
  if (v =? 1) && (lr =? 0) then 2
  else if (v =? -1) && (lr =? ROWS - 1) then -2
  else v.

Definition jump_p (bd : Board) (cr cc mr mc lr lc : Z) : Board :=
  upd (upd (upd bd cr cc 0) mr mc 0) lr lc (crown (cell bd cr cc) lr).

Definition can_jump_p (bd : Board) (pc mr mc lr lc : Z) : bool :=
  in_bounds mr mc && in_bounds lr lc && negb (cell bd mr mc =? 0)
  && (cell bd mr mc * pc <? 0) && (cell bd lr lc =? 0).

(** 1 for an occupied square, 0 for an empty one. *)
Definition occ (v : Z) : nat := if decide (v ≠ 0) then 1%nat else 0%nat.

(** ** The jumps available to [dfs] *)

(** The jump in direction [d] from [(cr, cc)], when the test of [dfs] lets
    it through: the landing square and the scratch board after the jump. *)
Definition hop_of (bd : Board) (cr cc : Z) (d : Z * Z) : option (Coord * Board) :=
  let '(dr, dc) := d in
  if can_jump_p bd (cell bd cr cc) (cr + dr) (cc + dc) (cr + 2 * dr) (cc + 2 * dc)
  then Some ((cr + 2 * dr, cc + 2 * dc),
             jump_p bd cr cc (cr + dr) (cc + dc) (cr + 2 * dr) (cc + 2 * dc))
  else None.

Definition hops (bd : Board) (cr cc : Z) : list (Coord * Board) :=
  omap (hop_of bd cr cc) (scan_dirs (cell bd cr cc)).

(** ** Capture chains, as the specification describes them *)

(** One jump from [(cr, cc)] on the scratch board [bd]: a scan direction of
    the piece standing there, midpoint and landing square on the board, an
    opposing piece on the midpoint, an empty landing square.  The jump
    yields the landing square and the child board. *)
Inductive legal_jump (bd : Board) (cr cc : Z) : Z → Z → Board → Prop :=
| legal_jump_intro dr dc :
    (dr, dc) ∈ scan_dirs (cell bd cr cc) →
    in_bounds (cr + dr) (cc + dc) = true →
    in_bounds (cr + 2 * dr) (cc + 2 * dc) = true →
    cell bd (cr + dr) (cc + dc) * cell bd cr cc < 0 →
    cell bd (cr + 2 * dr) (cc + 2 * dc) = 0 →
    legal_jump bd cr cc (cr + 2 * dr) (cc + 2 * dc)
      (jump_p bd cr cc (cr + dr) (cc + dc) (cr + 2 * dr) (cc + 2 * dc)).

(** A maximal chain from [(cr, cc)]: jumps follow one another until no jump
    is available; the last index is the scratch board at the end. *)
Inductive max_chain : Board → Z → Z → Path → Board → Prop :=
| chain_end bd cr cc :
    (∀ lr lc nb, ¬ legal_jump bd cr cc lr lc nb) →
    max_chain bd cr cc [] bd
| chain_hop bd cr cc lr lc nb q bd' :
    legal_jump bd cr cc lr lc nb →
    max_chain nb lr lc q bd' →
    max_chain bd cr cc ((lr, lc) :: q) bd'.

(** ** Simple moves *)

Definition step_of (b : Board) (r c : Z) (d : Z * Z) : option Path :=
  let '(dr, dc) := d in
  if in_bounds (r + dr) (c + dc) && (cell b (r + dr) (c + dc) =? 0)
  then Some [(r + dr, c + dc)] else None.

(** The simple moves of the piece on [(r, c)], in the order of the source. *)
Definition normals_of (b : Board) (r c : Z) : list Path :=
  if cell b r c =? 0 then [] else omap (step_of b r c) (directions (cell b r c)).

(** ** What [apply_move] computes *)

Definition is_jump (cr cc nr nc : Z) : bool :=
  (Z.abs (nr - cr) =? 2) || (Z.abs (nc - cc) =? 2).

Definition midpoint (cr cc nr nc : Z) : Coord :=
  ((nr + cr) `div` 2, (nc + cc) `div` 2).

(** The squares cleared by the loop of [apply_move]: the midpoints of the
    hops that span two rows or two columns. *)
Fixpoint mids (cr cc : Z) (path : Path) : list Coord :=
  match path with
  | [] => []
  | (nr, nc) :: path' =>
    (if is_jump cr cc nr nc then [midpoint cr cc nr nc] else [])
    ++ mids nr nc path'
  end.

(** The square on which the walk from [(cr, cc)] along [path] ends. *)
Fixpoint final (cr cc : Z) (path : Path) : Coord :=
  match path with
  | [] => (cr, cc)
  | (nr, nc) :: path' => final nr nc path'
  end.

Definition clear_all (nb : Board) (sqs : list Coord) : Board :=
  foldl (λ nb '(r, c), upd nb r c 0) nb sqs.

Definition on_board (path : Path) : Prop :=
  Forall (λ '(r, c), in_bounds r c = true) path.

Definition apply_move_p (b : Board) (sr sc : Z) (path : Path) : Board :=
  let '(cr, cc) := final sr sc path in
  upd (clear_all (upd b sr sc 0) (mids sr sc path)) cr cc
      (crown (cell b sr sc) cr).

(** [a] is the piece [s] or the man that [s] is the king of. *)
Definition rank_le (a s : Z) : Prop :=
  a = s ∨ (a = 1 ∧ s = 2) ∨ (a = -1 ∧ s = -2).

(** ** The moves of a side *)

(** The capture list of [get_piece_moves]. *)
Definition captures_of (b : Board) (r c : Z) : list Path :=
  match get_piece_moves b r c with
  | Ok (_, cm) => cm
  | _ => []
  end.

(** The moves of the pieces of [player] on the squares [sqs], in order,
    where [f r c] lists the paths of the piece on [(r, c)]. *)
Definition owned (f : Z → Z → list Path) (b : Board) (player : Z)
    (sqs : list Coord) : list Move :=
  sqs ≫= λ '(r, c),
    if 0 <? cell b r c * player then map (λ p, (r, c, p)) (f r c) else [].

Definition grid (rs cs : list Z) : list Coord :=
  r ← rs; c ← cs; [(r, c)].

(** ** Sides and their pieces *)

Definition other (s : side) : side :=
  match s with Red => Blue | Blue => Red end.

(** Side [s] has at least one piece on the board. *)
Definition has_piece (b : Board) (s : side) : Prop :=
  ∃ r c, in_bounds r c = true
         ∧ match s with Red => 0 < cell b r c | Blue => cell b r c < 0 end.

(** ** The game session: the event handlers of [main] *)

Module Session.

(** The variables of [main] that the handlers read and assign.  The scores
    and the display are left out. *)
Record state : Type := State {
  board : Board;
  turn : Z;
  selected : option Coord;
  legal_paths_for_selected : list Path;
  undo_stack : list (Board * Z)
}.

Inductive event : Type :=
| KeyR
| KeyU
| Click (mx my : Z).

(** [board = initial_board(); turn = 1; ...; undo_stack.clear()] *)
Definition restart : result state :=
  b ← initial_board;
  Ok (State b 1 None [] []).

(** [undo_stack.pop()]: the last element and the list without it. *)
Definition pop {A : Type} (l : list A) : option (list A * A) :=
  match last l with
  | Some x => Some (removelast l, x)
  | None => None
  end.

(** Lines 294 to 299. *)
Definition undo (s : state) : state :=
  match pop (undo_stack s) with
  | Some (rest, (b, t)) => State b t None [] rest
  | None => s
  end.

(** Lines 309 to 315. *)
Definition all_captures (board : Board) (turn : Z) : result (list Move) :=
  for_each (range 0 ROWS) (λ rr acc,
    for_each (range 0 COLS) (λ cc all_captures,
      v ← bget board rr cc;
      if 0 <? v * turn then
        '(_, cm) ← get_piece_moves board rr cc;
        Ok (all_captures ++ map (λ p, (rr, cc, p)) cm)
      else Ok all_captures) acc) [].

(** Lines 319 to 327, and again lines 358 to 364: select an own piece and
    offer its captures if any capture exists for the side, its simple moves
    otherwise; anything else clears the selection. *)
Definition select (s : state) (r c piece : Z) (all_captures : list Move)
  : result state :=
  if 0 <? piece * turn s then
    '(nm, cm) ← get_piece_moves (board s) r c;
    Ok (State (board s) (turn s) (Some (r, c))
              (if nonempty all_captures then cm else nm) (undo_stack s))
  else Ok (State (board s) (turn s) None [] (undo_stack s)).

(** Lines 330 to 334: the first offered path that ends on the clicked
    square. *)
Fixpoint find_path (paths : list Path) (r c : Z) : result (option Path) :=
  match paths with
  | [] => Ok None
  | p :: paths' =>
    '(er, ec) ← getitem p (-1);
    if (er =? r) && (ec =? c) then Ok (Some p) else find_path paths' r c
  end.

(** Lines 344 to 346: some hop of the chosen path spans two rows or two
    columns, the first hop being counted from the selected square. *)
Fixpoint jumped (pr pc : Z) (chosen_path : Path) : bool :=
  match chosen_path with
  | [] => false
  | (r, c) :: rest =>
    (Z.abs (r - pr) =? 2) || (Z.abs (c - pc) =? 2) || jumped r c rest
  end.

(** Lines 300 to 364: a click of the left button at pixel [(mx, my)]. *)
Definition click (s : state) (mx my : Z) : result state :=
  if (mx <? 0) || (BOARD_SIZE <=? mx) || (my <? 0) || (BOARD_SIZE <=? my)
  then Ok s
  else
    let r := my `div` SQ in
    let c := mx `div` SQ in
    piece ← bget (board s) r c;
    all_captures ← all_captures (board s) (turn s);
    match selected s with
    | None => select s r c piece all_captures
    | Some (sr, sc) =>
      chosen_path ← find_path (legal_paths_for_selected s) r c;
      match chosen_path with
      | Some ((_ :: _) as chosen_path) =>
        let undo_stack := undo_stack s ++ [(clone_board (board s), turn s)] in
        board ← apply_move (board s) (sr, sc, chosen_path);
        '(end_r, end_c) ← getitem chosen_path (-1);
        '(_, further_caps) ← get_piece_moves board end_r end_c;
        if jumped sr sc chosen_path && nonempty further_caps
        then Ok (State board (turn s) (Some (end_r, end_c)) further_caps
                       undo_stack)
        else Ok (State board (turn s * -1) None [] undo_stack)
      | _ => select s r c piece all_captures
      end
    end.

Definition handle (s : state) (e : event) : result state :=
  match e with
  | KeyR => restart
  | KeyU => Ok (undo s)
  | Click mx my => click s mx my
  end.

(** The states that a game can be in. *)
Inductive reachable : state → Prop :=
| reachable_start s : restart = Ok s → reachable s
| reachable_step s e s' : reachable s → handle s e = Ok s' → reachable s'.

(** What holds of the session between events: the board and the snapshots
    are well formed, and the offered paths are the simple moves or the
    captures of the selected square on the current board. *)
Record inv (s : state) : Prop := Inv {
  inv_board : wf (board s);
  inv_undo : Forall (λ snap, wf snap.1) (undo_stack s);
  inv_selected : ∀ sr sc, selected s = Some (sr, sc) →
    in_bounds sr sc = true
    ∧ (legal_paths_for_selected s = normals_of (board s) sr sc
       ∨ legal_paths_for_selected s = captures_of (board s) sr sc)
}.

End Session.

(** The board that [initial_board] builds. *)
Definition start_board : Board :=
  [[0; -1; 0; -1; 0; -1; 0; -1]; [-1; 0; -1; 0; -1; 0; -1; 0];
   [0; -1; 0; -1; 0; -1; 0; -1]; [0; 0; 0; 0; 0; 0; 0; 0];
   [0; 0; 0; 0; 0; 0; 0; 0]; [1; 0; 1; 0; 1; 0; 1; 0];
   [0; 1; 0; 1; 0; 1; 0; 1]; [1; 0; 1; 0; 1; 0; 1; 0]].

(** ** Boards as objects in a store

    In Python a board is a list object holding references to row objects,
    and [nb[r][c] = v] writes into the row object that [nb[r]] refers to,
    which other boards may share.  This module runs the generator and the
    applicator over a store of such objects. *)

Module Heap.

Abbreviation loc := positive.

Inductive obj : Type :=
| Row (cells : list Z)
| Rows (rows : list loc).

Abbreviation heap := (gmap loc obj).

(** A computation reads and writes the store, or raises. *)
Definition M (A : Type) : Type := heap → result (A * heap).

#[global] Instance M_ret : MRet M := λ A a h, Ok (a, h).
#[global] Instance M_bind : MBind M := λ A B f m h,
  match m h with
  | Ok (a, h') => f a h'
  | IndexError => IndexError
  | OutOfFuel => OutOfFuel
  end.

(** A computation that touches no object. *)
Definition lift {A : Type} (p : result A) : M A := λ h,
  match p with
  | Ok a => Ok (a, h)
  | IndexError => IndexError
  | OutOfFuel => OutOfFuel
  end.

Fixpoint for_each {A S : Type} (xs : list A) (body : A → S → M S) (s : S) : M S :=
  match xs with
  | [] => mret s
  | x :: xs' => s' ← body x s; for_each xs' body s'
  end.

(** A new object, at a reference that the store does not use yet. *)
Definition alloc (o : obj) : M loc := λ h,
  let l := fresh (dom h) in Ok (l, <[l := o]> h).

(** References always lead to an object of the expected kind in Python; a
    store where they do not is reported as an error. *)
Definition get_rows (b : loc) : M (list loc) := λ h,
  match h !! b with
  | Some (Rows ls) => Ok (ls, h)
  | _ => IndexError
  end.

Definition get_cells (l : loc) : M (list Z) := λ h,
  match h !! l with
  | Some (Row cells) => Ok (cells, h)
  | _ => IndexError
  end.

Definition put_cells (l : loc) (cells : list Z) : M unit := λ h,
  Ok (tt, <[l := Row cells]> h).

(** [b[r][c]] *)
Definition bget (b : loc) (r c : Z) : M Z :=
  ls ← get_rows b; l ← lift (getitem ls r);
  cells ← get_cells l; lift (getitem cells c).

(** [b[r][c] = v]: the row object is updated in place. *)
Definition bset (b : loc) (r c : Z) (v : Z) : M unit :=
  ls ← get_rows b; l ← lift (getitem ls r);
  cells ← get_cells l; cells' ← lift (setitem cells c v);
  put_cells l cells'.

(** [[row[:] for row in b]]: a new list of new row objects. *)
Definition clone_board (b : loc) : M loc :=
  ls ← get_rows b;
  ls' ← for_each ls (λ l ls',
           cells ← get_cells l; l' ← alloc (Row cells); mret (ls' ++ [l'])) [];
  alloc (Rows ls').

Definition jump (bd : loc) (cr cc mr mc lr lc : Z) : M loc :=
  nb ← clone_board bd;
  v ← bget nb cr cc;
  _ ← bset nb lr lc v;
  _ ← bset nb cr cc 0;
  _ ← bset nb mr mc 0;
  v ← bget nb lr lc;
  _ ← (if (v =? 1) && (lr =? 0) then bset nb lr lc 2 else mret tt);
  v ← bget nb lr lc;
  _ ← (if (v =? -1) && (lr =? ROWS - 1) then bset nb lr lc (-2) else mret tt);
  mret nb.

Definition can_jump (bd : loc) (pc mr mc lr lc : Z) : M bool :=
  if in_bounds mr mc && in_bounds lr lc then
    m ← bget bd mr mc;
    if negb (m =? 0) then
      m ← bget bd mr mc;
      if m * pc <? 0 then l ← bget bd lr lc; mret (l =? 0) else mret false
    else mret false
  else mret false.

Fixpoint dfs (fuel : nat) (bd : loc) (cr cc : Z) (path : Path)
    (capture_moves : list Path) : M (list Path) :=
  match fuel with
  | O => lift OutOfFuel
  | S fuel' =>
    pc ← bget bd cr cc;
    '(found_any, capture_moves) ←
      for_each (scan_dirs pc) (λ '(dr, dc) '(found_any, capture_moves),
        let mr := cr + dr in
        let mc := cc + dc in
        let lr := cr + 2 * dr in
        let lc := cc + 2 * dc in
        ok ← can_jump bd pc mr mc lr lc;
        if ok : bool then
          nb ← jump bd cr cc mr mc lr lc;
          capture_moves ← dfs fuel' nb lr lc (path ++ [(lr, lc)]) capture_moves;
          mret (true, capture_moves)
        else mret (found_any, capture_moves)) (false, capture_moves);
    if negb found_any && nonempty path
    then mret (capture_moves ++ [path])
    else mret capture_moves
  end.

(** The number of occupied squares, read through the references. *)
Definition pieces (board : loc) (h : heap) : nat :=
  match h !! board with
  | Some (Rows ls) =>
    pieces
      (omap (λ l, match h !! l with Some (Row cells) => Some cells | _ => None end)
            ls)
  | _ => 0%nat
  end.

Definition get_piece_moves (board : loc) (r c : Z) : M (list Path * list Path) :=
  piece ← bget board r c;
  if piece =? 0 then mret ([], [])
  else
    normal_moves ←
      for_each (directions piece) (λ '(dr, dc) normal_moves,
        let nr := r + dr in
        let nc := c + dc in
        if in_bounds nr nc then
          v ← bget board nr nc;
          if v =? 0 then mret (normal_moves ++ [[(nr, nc)]]) else mret normal_moves
        else mret normal_moves) [];
    fuel ← (λ h, Ok (S (pieces board h), h)) : M nat;
    capture_moves ← dfs fuel board r c [] [];
    mret (normal_moves, capture_moves).

Definition walk (nb : loc) (cr cc : Z) (path : Path) : M (Z * Z) :=
  for_each path (λ '(nr, nc) '(cr, cc),
    _ ← (if (Z.abs (nr - cr) =? 2) || (Z.abs (nc - cc) =? 2)
         then bset nb ((nr + cr) `div` 2) ((nc + cc) `div` 2) 0
         else mret tt);
    mret (nr, nc)) (cr, cc).

Definition apply_move (board : loc) (move : Move) : M loc :=
  let '(sr, sc, path) := move in
  nb ← clone_board board;
  piece ← bget nb sr sc;
  _ ← bset nb sr sc 0;
  '(cr, cc) ← walk nb sr sc path;
  _ ← bset nb cr cc piece;
  v ← bget nb cr cc;
  _ ← (if (v =? 1) && (cr =? 0) then bset nb cr cc 2 else mret tt);
  v ← bget nb cr cc;
  _ ← (if (v =? -1) && (cr =? ROWS - 1) then bset nb cr cc (-2) else mret tt);
  mret nb.

(** The board at reference [b] has the value [B]. *)
Definition repr (h : heap) (b : loc) (B : Board) : Prop :=
  ∃ ls, h !! b = Some (Rows ls)
        ∧ Forall2 (λ l row, h !! l = Some (Row row)) ls B.

(** The board at [nb] was allocated after the store [h0] was taken, row by
    row, and has the value [B]. *)
Definition owns (h0 h : heap) (nb : loc) (B : Board) : Prop :=
  h0 ⊆ h ∧ ∃ ls, h !! nb = Some (Rows ls) ∧ h0 !! nb = None ∧ NoDup ls
        ∧ Forall2 (λ l row, h0 !! l = None ∧ h !! l = Some (Row row)) ls B.

(** The store-level computation [m], started in [h], does what the
    value-level computation [p] does, and ends in a store that [Q] holds of. *)
Definition refines {A B : Type} (h : heap) (m : M A) (p : result B)
    (Q : A → B → heap → Prop) : Prop :=
  match p with
  | Ok b => ∃ a h', m h = Ok (a, h') ∧ Q a b h'
  | IndexError => m h = IndexError
  | OutOfFuel => m h = OutOfFuel
  end.

End Heap.

(** ** Notions of the specification, and boards for the examples *)

(** A capture move of [player]: an own piece and a capture path that
    [get_piece_moves] returns for it. *)
Definition capture_move (b : Board) (player : Z) (m : Move) : Prop :=
  ∃ r c p nm cm, m = (r, c, p) ∧ in_bounds r c = true
    ∧ 0 < cell b r c * player
    ∧ get_piece_moves b r c = Ok (nm, cm) ∧ p ∈ cm.

(** A normal move of [player], likewise. *)
Definition normal_move (b : Board) (player : Z) (m : Move) : Prop :=
  ∃ r c p nm cm, m = (r, c, p) ∧ in_bounds r c = true
    ∧ 0 < cell b r c * player
    ∧ get_piece_moves b r c = Ok (nm, cm) ∧ p ∈ nm.

(** Red has a king and a man, Blue has nothing. *)
Definition red_alone : Board :=
  [[0; 0; 0; 0; 0; 0; 0; 0]; [0; 0; 0; 0; 0; 0; 0; 0];
   [0; 0; 0; 0; 0; 0; 0; 0]; [0; 0; 0; 0; 0; 0; 0; 0];
   [0; 0; 0; 2; 0; 0; 0; 0]; [0; 0; 0; 0; 0; 0; 0; 0];
   [0; 1; 0; 0; 0; 0; 0; 0]; [0; 0; 0; 0; 0; 0; 0; 0]].

(** No piece at all. *)
Definition empty_board : Board := replicate 8 (replicate 8 0).

(** The row step of the forward diagonals of a side. *)
Definition forward (piece : Z) : Z := if 0 <? piece then -1 else 1.

(** Every hop of the chain goes two rows forward. *)
Fixpoint all_forward (piece cr : Z) (p : Path) : Prop :=
  match p with
  | [] => True
  | (lr, lc) :: q => lr - cr = 2 * forward piece ∧ all_forward piece lr q
  end.

(** Every hop of the chain goes two rows forward, up to and including the
    hop on which the piece is crowned. *)
Fixpoint forward_until_crowned (piece cr : Z) (p : Path) : Prop :=
  match p with
  | [] => True
  | (lr, lc) :: q =>
    lr - cr = 2 * forward piece
    ∧ (crown piece lr ≠ piece ∨ forward_until_crowned piece lr q)
  end.

(** A Red man on (2, 1) below two Blue men on row 1. *)
Definition red_man_board : Board :=
  [[0; 0; 0; 0; 0; 0; 0; 0]; [0; 0; -1; 0; -1; 0; 0; 0];
   [0; 1; 0; 0; 0; 0; 0; 0]; [0; 0; 0; 0; 0; 0; 0; 0];
   [0; 0; 0; 0; 0; 0; 0; 0]; [0; 0; 0; 0; 0; 0; 0; 0];
   [0; 0; 0; 0; 0; 0; 0; 0]; [0; 0; 0; 0; 0; 0; 0; 0]].

(** A Blue man on (5, 2) above two Red men on row 6. *)
Definition blue_man_board : Board :=
  [[0; 0; 0; 0; 0; 0; 0; 0]; [0; 0; 0; 0; 0; 0; 0; 0];
   [0; 0; 0; 0; 0; 0; 0; 0]; [0; 0; 0; 0; 0; 0; 0; 0];
   [0; 0; 0; 0; 0; 0; 0; 0]; [0; 0; -1; 0; 0; 0; 0; 0];
   [0; 0; 0; 1; 0; 1; 0; 0]; [0; 0; 0; 0; 0; 0; 0; 0]].

(** A Red king on (1, 2) next to a square of four Blue men. *)
Definition king_cycle_board : Board :=
  [[0; 0; 0; 0; 0; 0; 0; 0]; [0; 0; 2; 0; 0; 0; 0; 0];
   [0; -1; 0; -1; 0; 0; 0; 0]; [0; 0; 0; 0; 0; 0; 0; 0];
   [0; -1; 0; -1; 0; 0; 0; 0]; [0; 0; 0; 0; 0; 0; 0; 0];
   [0; 0; 0; 0; 0; 0; 0; 0]; [0; 0; 0; 0; 0; 0; 0; 0]].

(** A Red king with a single jump on one side and a double jump on the
    other: both chains are returned. *)
Definition two_chains_board : Board :=
  [[0; 0; 0; 0; 0; 0; 0; 0]; [0; 0; 0; 0; 0; 0; 0; 0];
   [0; 0; 0; 0; 0; 0; 0; 0]; [0; 0; 0; 2; 0; 0; 0; 0];
   [0; 0; -1; 0; -1; 0; 0; 0]; [0; 0; 0; 0; 0; 0; 0; 0];
   [0; 0; 0; 0; 0; 0; -1; 0]; [0; 0; 0; 0; 0; 0; 0; 0]].

(** The start of a game, after a click on the Red man on (5, 0). *)
Definition first_selection : Session.state :=
  Session.State start_board 1 (Some (5, 0)) [[(4, 1)]] [].

(** Only dark squares are occupied: every square with [(row + col)] even is
    empty. *)
Definition dark_only (b : Board) : Prop :=
  ∀ r c, in_bounds r c = true → (r + c) `mod` 2 = 0 → cell b r c = 0.

(** The references of a store that holds the starting board at reference 1
    and its rows at references 2 to 9. *)
Definition start_rows : list positive := [2; 3; 4; 5; 6; 7; 8; 9]%positive.

(** The store itself. *)
Definition start_heap : gmap positive Heap.obj :=
  list_to_map ((1%positive, Heap.Rows start_rows)
               :: zip start_rows (Heap.Row <$> start_board)).

(** ** Further notions, for the properties beyond the claims *)

(** Every hop of the path spans two rows and two columns. *)
Fixpoint diagonal_jumps (cr cc : Z) (p : Path) : Prop :=
  match p with
  | [] => True
  | (lr, lc) :: q =>
    Z.abs (lr - cr) = 2 ∧ Z.abs (lc - cc) = 2 ∧ diagonal_jumps lr lc q
  end.

(** The board has the piece values of the source only: 0 for an empty
    square, 1 and 2 for Red, -1 and -2 for Blue. *)
Definition piece_values (b : Board) : Prop :=
  ∀ r c, in_bounds r c = true → -2 ≤ cell b r c ≤ 2.

(** No man stands on its far row: a Red man on row 0 or a Blue man on the
    last row would have been crowned. *)
Definition men_crowned (b : Board) : Prop :=
  ∀ c, in_bounds 0 c = true →
    cell b 0 c ≠ 1 ∧ cell b (ROWS - 1) c ≠ -1.

(** The side that the value of [turn] stands for. *)
Definition side_of (turn : Z) : side := if 0 <? turn then Red else Blue.

(** ** The session, for the properties beyond the claims *)

(** Line 274: the squares to highlight, the last square of every offered
    path, and [None] when no path is offered. *)
Definition move_highlights (legal_paths_for_selected : list Path)
  : result (option (list Coord)) :=
  if nonempty legal_paths_for_selected then
    hs ← for_each legal_paths_for_selected (λ p hs,
           x ← getitem p (-1); Ok (hs ++ [x])) [];
    Ok (Some hs)
  else Ok None.

(** The paths that [get_all_moves] keeps for the piece on [(r, c)]: its
    captures if the player has a capture anywhere, its simple moves
    otherwise. *)
Definition moves_of (b : Board) (player r c : Z) : list Path :=
  if nonempty (owned (captures_of b) b player squares)
  then captures_of b r c else normals_of b r c.

(** The state that lines 317 to 327, and again lines 357 to 364, leave
    after a click on the square [(r, c)] of a well-formed board. *)
Definition select_result (s : Session.state) (r c : Z) : Session.state :=
  if 0 <? cell (Session.board s) r c * Session.turn s then
    Session.State (Session.board s) (Session.turn s) (Some (r, c))
      (moves_of (Session.board s) (Session.turn s) r c) (Session.undo_stack s)
  else
    Session.State (Session.board s) (Session.turn s) None []
      (Session.undo_stack s).

(** The value of [turn] after [n] moves of a game. *)
Definition turn_at (n : nat) : Z := if Nat.even n then 1 else -1.

(** A position of a game, with the side to move: the board is well formed,
    holds piece values only, on dark squares only, with no uncrowned man on
    its far row, and the side that is not to move has a piece. *)
Record position_ok (b : Board) (t : Z) : Prop := Position {
  pos_wf : wf b;
  pos_values : piece_values b;
  pos_dark : dark_only b;
  pos_crowned : men_crowned b;
  pos_last : has_piece b (side_of (- t))
}.

(** What holds of the session between events, beyond [Session.inv]: the
    position and every snapshot are positions of a game, the side to move
    follows the number of snapshots, and the offered paths are the moves of
    [get_all_moves] for the selected piece, a piece of the side to move. *)
Record good (s : Session.state) : Prop := Good {
  good_pos : position_ok (Session.board s) (Session.turn s);
  good_turn : Session.turn s = turn_at (length (Session.undo_stack s));
  good_stack : ∀ i b t, Session.undo_stack s !! i = Some (b, t) →
    position_ok b t ∧ t = turn_at i;
  good_sel : ∀ sr sc, Session.selected s = Some (sr, sc) →
    in_bounds sr sc = true
    ∧ 0 < cell (Session.board s) sr sc * Session.turn s
    ∧ Session.legal_paths_for_selected s
      = moves_of (Session.board s) (Session.turn s) sr sc;
  good_none : Session.selected s = None →
    Session.legal_paths_for_selected s = []
}.

(** The events of a game, handled one after the other. *)
Fixpoint run (s : Session.state) (es : list Session.event)
  : result Session.state :=
  match es with
  | [] => Ok s
  | e :: es' => s' ← Session.handle s e; run s' es'
  end.

(** The state after the first move of a game, the move of the Red man on
    [(5, 0)] to [(4, 1)]. *)
Definition first_move : Session.state :=
  Session.State
    [[0; -1; 0; -1; 0; -1; 0; -1]; [-1; 0; -1; 0; -1; 0; -1; 0];
     [0; -1; 0; -1; 0; -1; 0; -1]; [0; 0; 0; 0; 0; 0; 0; 0];
     [0; 1; 0; 0; 0; 0; 0; 0]; [0; 0; 1; 0; 1; 0; 1; 0];
     [0; 1; 0; 1; 0; 1; 0; 1]; [1; 0; 1; 0; 1; 0; 1; 0]]
    (-1) None [] [(start_board, 1)].

(** A game played to the end, as clicks: each move is a click on the piece
    and a click on the last square of its path. *)
Definition full_game : list Session.event :=
  [Session.Click 250 550; Session.Click 350 450; Session.Click 150 250;
   Session.Click 250 350; Session.Click 350 450; Session.Click 150 250;
   Session.Click 250 150; Session.Click 50 350; Session.Click 450 550;
   Session.Click 550 450; Session.Click 550 250; Session.Click 650 350;
   Session.Click 350 650; Session.Click 450 550; Session.Click 350 250;
   Session.Click 250 350; Session.Click 650 550; Session.Click 750 450;
   Session.Click 350 50; Session.Click 250 150; Session.Click 750 450;
   Session.Click 350 450; Session.Click 50 350; Session.Click 150 450;
   Session.Click 50 550; Session.Click 250 350; Session.Click 50 150;
   Session.Click 150 250; Session.Click 250 350; Session.Click 50 150;
   Session.Click 750 250; Session.Click 650 350; Session.Click 550 450;
   Session.Click 750 250; Session.Click 650 150; Session.Click 550 250;
   Session.Click 350 450; Session.Click 450 350; Session.Click 550 250;
   Session.Click 350 450; Session.Click 450 550; Session.Click 250 350;
   Session.Click 750 50; Session.Click 650 150; Session.Click 750 650;
   Session.Click 650 550; Session.Click 550 50; Session.Click 450 150;
   Session.Click 750 250; Session.Click 350 250; Session.Click 150 50;
   Session.Click 250 150; Session.Click 350 250; Session.Click 150 50].

(** The state in which that game ends. *)
Definition game_over : Session.state :=
  match run (Session.State start_board 1 None [] []) full_game with
  | Ok s => s
  | _ => Session.State start_board 1 None [] []
  end.

(** The first snapshot of the undo stack, or the position itself if there
    is no snapshot, is the starting position with Red to move. *)
Definition from_start (s : Session.state) : Prop :=
  match Session.undo_stack s with
  | [] => Session.board s = start_board ∧ Session.turn s = 1
  | snap :: _ => snap = (start_board, 1)
  end.

(** A board on which the game goes on: well formed, with a piece of each
    side. *)
Definition in_play (b : Board) : Prop :=
  wf b ∧ has_piece b Red ∧ has_piece b Blue.

(** The state after the first ten moves of [full_game]. *)
Definition mid_game : Session.state :=
  match run (Session.State start_board 1 None [] []) (take 20 full_game) with
  | Ok s => s
  | _ => Session.State start_board 1 None [] []
  end.

(** * Properties of the embedding *)

(** ** Well-formed boards and total cell access *)

Lemma in_bounds_spec r c :
  in_bounds r c = true ↔ 0 ≤ r < 8 ∧ 0 ≤ c < 8.
Proof. unfold in_bounds, ROWS, COLS. lia. Qed.

Lemma py_index_nonneg n i :
  0 ≤ i < Z.of_nat n → py_index n i = Some (Z.to_nat i).
Proof.
  intros H. unfold py_index.
  destruct (0 <=? i) eqn:E1; [|lia]. destruct (i <? Z.of_nat n) eqn:E2; [|lia].
  reflexivity.
Qed.

Lemma wf_row b r :
  wf b → 0 ≤ r < 8 → ∃ row, b !! Z.to_nat r = Some row ∧ length row = 8%nat.
Proof.
  intros [Hl Hr] Hb.
  destruct (lookup_lt_is_Some_2 b (Z.to_nat r)) as [row Hrow].
  { rewrite Hl. unfold ROWS. lia. }
  exists row. split; [done|].
  by apply (Forall_lookup_1 _ _ _ _ Hr Hrow).
Qed.

Lemma wf_cell b r c :
  wf b → in_bounds r c = true →
  ∃ row, b !! Z.to_nat r = Some row ∧ length row = 8%nat
         ∧ row !! Z.to_nat c = Some (cell b r c).
Proof.
  intros Hwf [Hr Hc]%in_bounds_spec.
  destruct (wf_row b r Hwf Hr) as (row & Hrow & Hlen).
  exists row. split_and!; [done..|].
  destruct (lookup_lt_is_Some_2 row (Z.to_nat c)) as [v Hv]; [lia|].
  unfold cell. rewrite Hrow. simpl. by rewrite Hv.
Qed.

Lemma bget_wf b r c :
  wf b → in_bounds r c = true → bget b r c = Ok (cell b r c).
Proof.
  intros Hwf Hb. destruct (wf_cell b r c Hwf Hb) as (row & Hrow & Hlen & Hv).
  apply in_bounds_spec in Hb as [Hr Hc]. destruct Hwf as [Hl _].
  unfold bget, getitem.
  rewrite py_index_nonneg by (rewrite Hl; unfold ROWS; lia).
  rewrite Hrow. simpl.
  rewrite py_index_nonneg by lia. by rewrite Hv.
Qed.

Lemma bset_wf b r c v :
  wf b → in_bounds r c = true → bset b r c v = Ok (upd b r c v).
Proof.
  intros Hwf Hb. destruct (wf_cell b r c Hwf Hb) as (row & Hrow & Hlen & Hv).
  apply in_bounds_spec in Hb as [Hr Hc]. destruct Hwf as [Hl _].
  unfold bset, getitem, setitem, upd.
  rewrite py_index_nonneg by (rewrite Hl; unfold ROWS; lia).
  rewrite Hrow. simpl.
  rewrite py_index_nonneg by lia. simpl.
  by rewrite ?py_index_nonneg by (rewrite Hl; unfold ROWS; lia).
Qed.

Lemma wf_upd b r c v : wf b → wf (upd b r c v).
Proof.
  intros [Hl Hr]. unfold upd.
  destruct (b !! Z.to_nat r) as [row|] eqn:Hrow; [|done].
  split; [by rewrite length_insert|].
  apply Forall_insert; [done|]. rewrite length_insert.
  by apply (Forall_lookup_1 _ _ _ _ Hr Hrow).
Qed.

Lemma cell_upd_eq b r c v :
  wf b → in_bounds r c = true → cell (upd b r c v) r c = v.
Proof.
  intros Hwf Hb. destruct (wf_cell b r c Hwf Hb) as (row & Hrow & Hlen & Hv).
  apply in_bounds_spec in Hb as [Hr Hc]. destruct Hwf as [Hl _].
  unfold cell, upd. rewrite Hrow.
  rewrite list_lookup_insert_eq by (rewrite Hl; unfold ROWS; lia). simpl.
  by rewrite list_lookup_insert_eq by lia.
Qed.

Lemma cell_upd_ne b r c v r' c' :
  0 ≤ r → 0 ≤ c → 0 ≤ r' → 0 ≤ c' → (r, c) ≠ (r', c') →
  cell (upd b r c v) r' c' = cell b r' c'.
Proof.
  intros ? ? ? ? Hne. unfold cell, upd.
  destruct (b !! Z.to_nat r) as [row|] eqn:Hrow; [|done].
  destruct (decide (Z.to_nat r = Z.to_nat r')) as [E|E].
  - rewrite <- E. destruct (decide (Z.to_nat r < length b)%nat).
    + rewrite list_lookup_insert_eq by done. rewrite Hrow. simpl.
      rewrite list_lookup_insert_ne; [done|].
      intros E'. apply Hne. f_equal; lia.
    + by rewrite list_insert_ge by lia.
  - by rewrite list_lookup_insert_ne.
Qed.

Lemma cell_upd b r c v r' c' :
  wf b → in_bounds r c = true → in_bounds r' c' = true →
  cell (upd b r c v) r' c' = if decide ((r, c) = (r', c')) then v else cell b r' c'.
Proof.
  intros Hwf Hb Hb'. case_decide as E.
  - inversion E; subst. by apply cell_upd_eq.
  - apply in_bounds_spec in Hb, Hb'. apply cell_upd_ne; lia || done.
Qed.

(** Two well-formed boards with the same cells are the same board. *)
Lemma board_ext b1 b2 :
  wf b1 → wf b2 →
  (∀ r c, in_bounds r c = true → cell b1 r c = cell b2 r c) → b1 = b2.
Proof.
  intros Hwf1 Hwf2 Hc. apply list_eq. intros i.
  destruct (decide (i < 8)%nat) as [Hi|Hi].
  - destruct (wf_row b1 (Z.of_nat i) Hwf1) as (row1 & Hrow1 & Hlen1); [lia|].
    destruct (wf_row b2 (Z.of_nat i) Hwf2) as (row2 & Hrow2 & Hlen2); [lia|].
    rewrite Nat2Z.id in Hrow1, Hrow2. rewrite Hrow1, Hrow2. f_equal.
    apply list_eq. intros j.
    destruct (decide (j < 8)%nat) as [Hj|Hj].
    + assert (Hb : in_bounds (Z.of_nat i) (Z.of_nat j) = true)
        by (apply in_bounds_spec; lia).
      destruct (wf_cell b1 _ _ Hwf1 Hb) as (r1 & Hr1 & _ & Hv1).
      destruct (wf_cell b2 _ _ Hwf2 Hb) as (r2 & Hr2 & _ & Hv2).
      rewrite Nat2Z.id in Hr1, Hr2, Hv1, Hv2.
      rewrite Hrow1 in Hr1. rewrite Hrow2 in Hr2.
      inversion Hr1; inversion Hr2; subst r1 r2.
      rewrite Hv1, Hv2. f_equal. by apply Hc.
    + rewrite !lookup_ge_None_2; [done|lia..].
  - destruct Hwf1 as [Hl1 _], Hwf2 as [Hl2 _].
    rewrite !lookup_ge_None_2; [done|rewrite ?Hl1, ?Hl2; unfold ROWS; lia..].
Qed.

Lemma clone_board_id b : clone_board b = b.
Proof. unfold clone_board. apply map_id. Qed.

(** ** The jump and its test on well-formed boards *)

Lemma result_bind_ok {A B} (f : A → result B) (a : A) : Ok a ≫= f = f a.
Proof. reflexivity. Qed.

Ltac inb :=
  repeat match goal with
  | H : in_bounds _ _ = true |- _ => apply in_bounds_spec in H
  | |- in_bounds _ _ = true => apply in_bounds_spec
  end.

(** Resolve the cells of updated boards, square by square. *)
Ltac cells :=
  repeat first
    [ rewrite cell_upd_eq by (first [assumption | repeat apply wf_upd; assumption | inb; lia])
    | rewrite cell_upd_ne by (first [lia | intros [=]; lia]) ].

Lemma crown_seq (nb : Board) lr lc :
  wf nb → in_bounds lr lc = true →
  (v ← bget nb lr lc;
   nb ← (if (v =? 1) && (lr =? 0) then bset nb lr lc 2 else Ok nb);
   v ← bget nb lr lc;
   if (v =? -1) && (lr =? ROWS - 1) then bset nb lr lc (-2) else Ok nb)
  = Ok (upd nb lr lc (crown (cell nb lr lc) lr)).
Proof.
  intros Hwf Hb. rewrite bget_wf by done. rewrite result_bind_ok.
  unfold crown.
  destruct ((cell nb lr lc =? 1) && (lr =? 0)) eqn:E1.
  - rewrite bset_wf by done. rewrite result_bind_ok.
    rewrite bget_wf by (done || by apply wf_upd). rewrite result_bind_ok.
    rewrite cell_upd_eq by done. done.
  - rewrite result_bind_ok. rewrite bget_wf by done. rewrite result_bind_ok.
    destruct ((cell nb lr lc =? -1) && (lr =? ROWS - 1)) eqn:E2.
    + by rewrite bset_wf.
    + f_equal. apply board_ext; [done|by apply wf_upd|].
      intros r c Hrc. rewrite cell_upd by done. by case_decide as E; [inversion E; subst|].
Qed.

Lemma jump_wf bd cr cc mr mc lr lc :
  wf bd → in_bounds cr cc = true → in_bounds mr mc = true →
  in_bounds lr lc = true → (lr, lc) ≠ (cr, cc) → (lr, lc) ≠ (mr, mc) →
  jump bd cr cc mr mc lr lc = Ok (jump_p bd cr cc mr mc lr lc).
Proof.
  intros Hwf Hc Hm Hl Hlc Hlm. unfold jump. rewrite clone_board_id.
  rewrite bget_wf by done. rewrite result_bind_ok.
  rewrite bset_wf by done. rewrite result_bind_ok.
  rewrite bset_wf by (done || by apply wf_upd). rewrite result_bind_ok.
  rewrite bset_wf by (done || by repeat apply wf_upd). rewrite result_bind_ok.
  rewrite crown_seq by (done || by repeat apply wf_upd).
  f_equal. unfold jump_p.
  apply board_ext; [by repeat apply wf_upd..|].
  intros r c Hrc.
  rewrite !cell_upd by (done || by repeat apply wf_upd).
  repeat case_decide; congruence.
Qed.

Lemma wf_jump_p bd cr cc mr mc lr lc : wf bd → wf (jump_p bd cr cc mr mc lr lc).
Proof. intros. unfold jump_p. by repeat apply wf_upd. Qed.

Lemma can_jump_wf bd pc mr mc lr lc :
  wf bd → can_jump bd pc mr mc lr lc = Ok (can_jump_p bd pc mr mc lr lc).
Proof.
  intros Hwf. unfold can_jump, can_jump_p.
  destruct (in_bounds mr mc) eqn:Hm; [|done].
  destruct (in_bounds lr lc) eqn:Hl; [|done]. simpl.
  rewrite !bget_wf by done. rewrite result_bind_ok.
  destruct (cell bd mr mc =? 0); [done|]. simpl.
  rewrite ?result_bind_ok.
  by destruct (cell bd mr mc * pc <? 0).
Qed.

(** ** Every jump clears an occupied square *)

Lemma count_insert (l : list Z) i x y :
  l !! i = Some y →
  (length (filter (λ v : Z, v ≠ 0%Z) (<[i := x]> l)) + occ y
   = length (filter (λ v : Z, v ≠ 0%Z) l) + occ x)%nat.
Proof.
  intros Hi. rewrite insert_take_drop by (by eapply lookup_lt_Some).
  replace (filter (λ v : Z, v ≠ 0) l)
    with (filter (λ v : Z, v ≠ 0) (take i l ++ y :: drop (S i) l))
    by (by rewrite take_drop_middle).
  rewrite !filter_app, !filter_cons, !length_app. unfold occ.
  repeat case_decide; simpl; lia.
Qed.

Lemma pieces_upd b r c v :
  wf b → in_bounds r c = true →
  (pieces (upd b r c v) + occ (cell b r c) = pieces b + occ v)%nat.
Proof.
  intros Hwf Hb. destruct (wf_cell b r c Hwf Hb) as (row & Hrow & Hlen & Hv).
  unfold pieces, upd. rewrite Hrow.
  rewrite insert_take_drop by (by eapply lookup_lt_Some).
  replace (concat b)
    with (concat (take (Z.to_nat r) b ++ row :: drop (S (Z.to_nat r)) b))
    by (by rewrite take_drop_middle).
  rewrite !concat_app, !concat_cons, !filter_app, !length_app.
  pose proof (count_insert row (Z.to_nat c) v _ Hv). lia.
Qed.

Lemma can_jump_p_true bd pc mr mc lr lc :
  can_jump_p bd pc mr mc lr lc = true ↔
  in_bounds mr mc = true ∧ in_bounds lr lc = true ∧
  cell bd mr mc ≠ 0 ∧ cell bd mr mc * pc < 0 ∧ cell bd lr lc = 0.
Proof.
  unfold can_jump_p.
  rewrite !andb_true_iff, negb_true_iff, Z.eqb_neq, Z.ltb_lt, Z.eqb_eq.
  tauto.
Qed.

Lemma crown_nonzero v lr : v ≠ 0 → crown v lr ≠ 0.
Proof. unfold crown. repeat case_match; lia. Qed.

Lemma pieces_jump bd cr cc dr dc :
  wf bd → in_bounds cr cc = true → dr ≠ 0 →
  can_jump_p bd (cell bd cr cc) (cr + dr) (cc + dc) (cr + 2 * dr) (cc + 2 * dc) = true →
  (pieces (jump_p bd cr cc (cr + dr) (cc + dc) (cr + 2 * dr) (cc + 2 * dc))
   < pieces bd)%nat.
Proof.
  intros Hwf Hc Hd (Hm & Hl & Hm0 & Hopp & Hl0)%can_jump_p_true.
  unfold jump_p.
  pose proof (pieces_upd bd cr cc 0 Hwf Hc) as H1.
  pose proof (pieces_upd (upd bd cr cc 0) (cr + dr) (cc + dc) 0
                (wf_upd _ _ _ _ Hwf) Hm) as H2.
  pose proof (pieces_upd (upd (upd bd cr cc 0) (cr + dr) (cc + dc) 0)
                (cr + 2 * dr) (cc + 2 * dc) (crown (cell bd cr cc) (cr + 2 * dr))
                (wf_upd _ _ _ _ (wf_upd _ _ _ _ Hwf)) Hl) as H3.
  inb. revert H2 H3. cells. intros H2 H3.
  rewrite Hl0 in H3. revert H1 H2 H3. unfold occ.
  repeat case_decide; lia.
Qed.

(** ** The search on well-formed boards *)

Lemma dfs_S fuel bd cr cc path capture_moves :
  dfs (S fuel) bd cr cc path capture_moves =
  (pc ← bget bd cr cc;
   '(found_any, capture_moves) ←
     for_each (scan_dirs pc) (λ '(dr, dc) '(found_any, capture_moves),
       ok ← can_jump bd pc (cr + dr) (cc + dc) (cr + 2 * dr) (cc + 2 * dc);
       if ok : bool then
         nb ← jump bd cr cc (cr + dr) (cc + dc) (cr + 2 * dr) (cc + 2 * dc);
         capture_moves ← dfs fuel nb (cr + 2 * dr) (cc + 2 * dc)
                           (path ++ [(cr + 2 * dr, cc + 2 * dc)]) capture_moves;
         Ok (true, capture_moves)
       else Ok (found_any, capture_moves)) (false, capture_moves);
   if negb found_any && nonempty path
   then Ok (capture_moves ++ [path])
   else Ok capture_moves).
Proof. reflexivity. Qed.

Lemma scan_dirs_nonzero pc : Forall (λ d : Z * Z, d.1 ≠ 0) (scan_dirs pc).
Proof.
  unfold scan_dirs, all_dirs, up_dirs, down_dirs.
  repeat case_match; repeat constructor; simpl; lia.
Qed.

Lemma dfs_loop fuel bd cr cc path ds found_any capture_moves :
  wf bd → in_bounds cr cc = true → Forall (λ d : Z * Z, d.1 ≠ 0) ds →
  for_each ds (λ '(dr, dc) '(found_any, capture_moves),
       ok ← can_jump bd (cell bd cr cc) (cr + dr) (cc + dc) (cr + 2 * dr) (cc + 2 * dc);
       if ok : bool then
         nb ← jump bd cr cc (cr + dr) (cc + dc) (cr + 2 * dr) (cc + 2 * dc);
         capture_moves ← dfs fuel nb (cr + 2 * dr) (cc + 2 * dc)
                           (path ++ [(cr + 2 * dr, cc + 2 * dc)]) capture_moves;
         Ok (true, capture_moves)
       else Ok (found_any, capture_moves)) (found_any, capture_moves)
  = (capture_moves ←
       for_each (omap (hop_of bd cr cc) ds) (λ '((lr, lc), nb) capture_moves,
         dfs fuel nb lr lc (path ++ [(lr, lc)]) capture_moves) capture_moves;
     Ok (found_any || nonempty (omap (hop_of bd cr cc) ds), capture_moves)).
Proof.
  intros Hwf Hc Hds. revert found_any capture_moves.
  induction Hds as [|[dr dc] ds Hd Hds IH]; intros found_any capture_moves.
  - simpl. by rewrite orb_false_r.
  - simpl in Hd. cbn [for_each omap list_omap hop_of].
    rewrite can_jump_wf by done. rewrite result_bind_ok.
    destruct (can_jump_p bd (cell bd cr cc) (cr + dr) (cc + dc)
                (cr + 2 * dr) (cc + 2 * dc)) eqn:Hj.
    + apply can_jump_p_true in Hj as (Hm & Hl & _).
      rewrite jump_wf by (try done; inb; intros [=]; lia).
      rewrite result_bind_ok. cbn [for_each].
      destruct (dfs fuel _ _ _ _ capture_moves) as [caps| |]; [|done..].
      rewrite !result_bind_ok. rewrite IH. simpl.
      by rewrite orb_true_r.
    + rewrite result_bind_ok. apply IH.
Qed.

Lemma dfs_wf fuel bd cr cc path capture_moves :
  wf bd → in_bounds cr cc = true →
  dfs (S fuel) bd cr cc path capture_moves =
  (capture_moves ←
     for_each (hops bd cr cc) (λ '((lr, lc), nb) capture_moves,
       dfs fuel nb lr lc (path ++ [(lr, lc)]) capture_moves) capture_moves;
   if negb (nonempty (hops bd cr cc)) && nonempty path
   then Ok (capture_moves ++ [path])
   else Ok capture_moves).
Proof.
  intros Hwf Hc. rewrite dfs_S. rewrite bget_wf by done. rewrite result_bind_ok.
  rewrite dfs_loop by (done || apply scan_dirs_nonzero).
  fold (hops bd cr cc).
  by destruct (for_each (hops bd cr cc) _ capture_moves).
Qed.

(** ** The search returns the maximal chains *)

Lemma hops_legal bd cr cc lr lc nb :
  ((lr, lc), nb) ∈ hops bd cr cc ↔ legal_jump bd cr cc lr lc nb.
Proof.
  unfold hops. rewrite list_elem_of_omap. split.
  - intros ([dr dc] & Hin & Hhop). unfold hop_of in Hhop.
    destruct (can_jump_p _ _ _ _ _ _) eqn:Hj; [|done].
    apply can_jump_p_true in Hj as (Hm & Hl & _ & Hopp & Hl0).
    inversion Hhop; subst. by constructor.
  - intros [dr dc Hin Hm Hl Hopp Hl0]. exists (dr, dc). split; [done|].
    unfold hop_of.
    assert (can_jump_p bd (cell bd cr cc) (cr + dr) (cc + dc)
              (cr + 2 * dr) (cc + 2 * dc) = true) as ->; [|done].
    apply can_jump_p_true. split_and!; try done. lia.
Qed.

Lemma legal_jump_inv bd cr cc lr lc nb :
  wf bd → in_bounds cr cc = true → legal_jump bd cr cc lr lc nb →
  in_bounds lr lc = true ∧ wf nb ∧ (pieces nb < pieces bd)%nat.
Proof.
  intros Hwf Hc [dr dc Hin Hm Hl Hopp Hl0]. split_and!; [done|by apply wf_jump_p|].
  apply pieces_jump; try done.
  - pose proof (scan_dirs_nonzero (cell bd cr cc)) as Hnz.
    by apply (proj1 (Forall_forall _ _) Hnz _ Hin).
  - apply can_jump_p_true. split_and!; try done. lia.
Qed.

Lemma hops_nil bd cr cc :
  hops bd cr cc = [] ↔ ∀ lr lc nb, ¬ legal_jump bd cr cc lr lc nb.
Proof.
  split.
  - intros Hnil lr lc nb Hj%hops_legal. rewrite Hnil in Hj. by apply elem_of_nil in Hj.
  - intros Hno. destruct (hops bd cr cc) as [|[[lr lc] nb] hs] eqn:Hh; [done|].
    exfalso. apply (Hno lr lc nb), hops_legal. rewrite Hh. left.
Qed.

Lemma hops_landings d ds bd cr cc lr lc nb :
  hop_of bd cr cc d = Some ((lr, lc), nb) →
  (lr, lc) ∈ (omap (hop_of bd cr cc) ds).*1 → d ∈ ds.
Proof.
  intros Hd ((l' & nb') & Heq & ([dr' dc'] & Hin & Hd')%list_elem_of_omap)%list_elem_of_fmap.
  destruct d as [dr dc]. unfold hop_of in Hd, Hd'.
  repeat case_match; try done. cbn in Heq. simplify_eq.
  by replace dr with dr' by lia; replace dc with dc' by lia.
Qed.

(** Distinct directions land on distinct squares. *)
Lemma hops_NoDup bd cr cc : NoDup (hops bd cr cc).*1.
Proof.
  unfold hops.
  assert (Hnd : NoDup (scan_dirs (cell bd cr cc))).
  { unfold scan_dirs, all_dirs, up_dirs, down_dirs.
    repeat case_match; repeat (apply NoDup_cons; split);
      rewrite ?elem_of_cons, ?elem_of_nil; try apply NoDup_nil_2;
      intros Hx; repeat destruct Hx as [Hx|Hx]; done. }
  induction Hnd as [|d ds Hd Hds IH]; [constructor|].
  cbn [omap list_omap]. destruct (hop_of bd cr cc d) as [[[lr lc] nb]|] eqn:E;
    [|done].
  cbn [fmap list_fmap fst]. apply NoDup_cons. split; [|done].
  intros Hin. by apply Hd, (hops_landings d ds bd cr cc lr lc nb).
Qed.

(** The search returns, after what was recorded before, the non-empty
    extensions of [path] by a maximal chain, each of them once. *)
Lemma dfs_spec fuel : ∀ bd cr cc path capture_moves,
  wf bd → in_bounds cr cc = true → (pieces bd < fuel)%nat →
  ∃ res, dfs fuel bd cr cc path capture_moves = Ok (capture_moves ++ res)
    ∧ (∀ p, p ∈ res ↔
         ∃ q bd', p = path ++ q ∧ p ≠ [] ∧ max_chain bd cr cc q bd')
    ∧ NoDup res.
Proof.
  induction fuel as [|fuel IH]; intros bd cr cc path capture_moves Hwf Hc Hfuel;
    [lia|].
  rewrite dfs_wf by done.
  assert (Hloop : ∀ hs caps, (∀ h, h ∈ hs → h ∈ hops bd cr cc) → NoDup hs.*1 →
    ∃ res, for_each hs (λ '((lr, lc), nb) capture_moves,
               dfs fuel nb lr lc (path ++ [(lr, lc)]) capture_moves) caps
             = Ok (caps ++ res)
      ∧ (∀ p, p ∈ res ↔
           ∃ lr lc nb q bd', ((lr, lc), nb) ∈ hs ∧ p = path ++ (lr, lc) :: q
                             ∧ max_chain nb lr lc q bd')
      ∧ NoDup res).
  { induction hs as [|[[lr lc] nb] hs IHhs]; intros caps Hsub Hnd.
    - exists []. split_and!; [by rewrite app_nil_r| |constructor].
      intros p. split; [by intros ?%elem_of_nil|].
      by intros (? & ? & ? & ? & ? & ?%elem_of_nil & _).
    - assert (Hj : legal_jump bd cr cc lr lc nb) by (apply hops_legal, Hsub; left).
      destruct (legal_jump_inv _ _ _ _ _ _ Hwf Hc Hj) as (Hl & Hwfn & Hlt).
      destruct (IH nb lr lc (path ++ [(lr, lc)]) caps Hwfn Hl)
        as (res1 & E1 & M1 & N1); [lia|].
      cbn [fmap list_fmap fst] in Hnd. apply NoDup_cons in Hnd as [Hfresh Hnd].
      destruct (IHhs (caps ++ res1)) as (res2 & E2 & M2 & N2); [|done|].
      { intros h Hh. apply Hsub. by right. }
      exists (res1 ++ res2). cbn [for_each]. rewrite E1, result_bind_ok, E2.
      split_and!; [by rewrite app_assoc| |].
      + intros p. rewrite elem_of_app, M1, M2. split.
        * intros [(q & bd' & -> & _ & Hq)|(lr' & lc' & nb' & q & bd' & Hin & -> & Hq)].
          -- exists lr, lc, nb, q, bd'. split_and!; [left|by rewrite <- app_assoc|done].
          -- exists lr', lc', nb', q, bd'. split_and!; [by right|done..].
        * intros (lr' & lc' & nb' & q & bd' & Hin & -> & Hq).
          apply elem_of_cons in Hin as [[= -> -> ->]|Hin].
          -- left. exists q, bd'. split_and!; [by rewrite <- app_assoc| |done].
             by destruct path.
          -- right. by exists lr', lc', nb', q, bd'.
      + apply NoDup_app. split_and!; [done| |done].
        intros p (q & bd' & -> & _)%M1
                 (lr' & lc' & nb' & q' & bd'' & Hin & Heq & _)%M2.
        rewrite <- app_assoc in Heq. apply app_inv_head in Heq.
        inversion Heq; subst. apply Hfresh.
        apply list_elem_of_fmap. by exists ((lr', lc'), nb'). }
  destruct (Hloop (hops bd cr cc) capture_moves) as (res & E & M & N);
    [done|apply hops_NoDup|].
  rewrite E, result_bind_ok.
  destruct (decide (hops bd cr cc = [])) as [Hh|Hh].
  - assert (res = []) as ->.
    { destruct res as [|p res]; [done|]. exfalso.
      destruct (proj1 (M p)) as (? & ? & ? & ? & ? & Hin & _); [left|].
      rewrite Hh in Hin. by apply elem_of_nil in Hin. }
    rewrite Hh. cbn [nonempty negb andb].
    pose proof (proj1 (hops_nil _ _ _) Hh) as Hno. clear Hh.
    destruct path as [|x path0]; cbn [nonempty].
    + exists []. split_and!; [done| |constructor].
      intros p. split; [by intros ?%elem_of_nil|].
      intros (q & bd' & -> & Hne & Hq). inversion Hq; subst; [done|].
      by eapply Hno in H.
    + exists [x :: path0]. split_and!; [by rewrite app_nil_r| |apply NoDup_singleton].
      intros p. rewrite list_elem_of_singleton. split.
      * intros ->. exists [], bd. rewrite app_nil_r. split_and!; [done..|by constructor].
      * intros (q & bd' & -> & Hne & Hq). inversion Hq; subst; [by rewrite app_nil_r|].
        by eapply Hno in H.
  - assert (nonempty (hops bd cr cc) = true) as -> by (by destruct (hops bd cr cc)).
    cbn [negb andb]. exists res. split_and!; [done| |done].
    intros p. rewrite M. split.
    + intros (lr & lc & nb & q & bd' & Hin & -> & Hq).
      exists ((lr, lc) :: q), bd'. split_and!; [done|by destruct path|].
      apply hops_legal in Hin. by econstructor.
    + intros (q & bd' & -> & Hne & Hq). inversion Hq; subst.
      * exfalso. by apply Hh, hops_nil.
      * exists lr, lc, nb, q0, bd'. split_and!; [|done..].
        by apply hops_legal.
Qed.

(** ** The move generator on well-formed boards *)

Lemma normal_loop b r c ds acc :
  wf b →
  for_each ds (λ '(dr, dc) normal_moves,
      if in_bounds (r + dr) (c + dc) then
        v ← bget b (r + dr) (c + dc);
        if v =? 0 then Ok (normal_moves ++ [[(r + dr, c + dc)]]) else Ok normal_moves
      else Ok normal_moves) acc
  = Ok (acc ++ omap (step_of b r c) ds).
Proof.
  intros Hwf. revert acc. induction ds as [|[dr dc] ds IH]; intros acc.
  - simpl. by rewrite app_nil_r.
  - cbn [for_each omap list_omap step_of].
    destruct (in_bounds (r + dr) (c + dc)) eqn:Hb; cbn [andb].
    + rewrite bget_wf by done. rewrite result_bind_ok.
      destruct (cell b (r + dr) (c + dc) =? 0); rewrite result_bind_ok, IH; [|done].
      by rewrite <- app_assoc.
    + by rewrite result_bind_ok, IH.
Qed.

Lemma no_jump_empty b r c lr lc nb :
  cell b r c = 0 → ¬ legal_jump b r c lr lc nb.
Proof. intros Hz [dr dc _ _ _ Hopp _]. rewrite Hz in Hopp. lia. Qed.

Lemma get_piece_moves_spec b r c :
  wf b → in_bounds r c = true →
  ∃ cm, get_piece_moves b r c = Ok (normals_of b r c, cm)
    ∧ (∀ p, p ∈ cm ↔ p ≠ [] ∧ ∃ bd', max_chain b r c p bd')
    ∧ NoDup cm.
Proof.
  intros Hwf Hb. unfold get_piece_moves, normals_of.
  rewrite bget_wf by done. rewrite result_bind_ok.
  destruct (cell b r c =? 0) eqn:Hz.
  - exists []. split_and!; [done| |constructor].
    intros p. split; [by intros ?%elem_of_nil|].
    intros (Hne & bd' & Hq). apply Z.eqb_eq in Hz.
    inversion Hq; subst; [done|]. by eapply no_jump_empty in H.
  - rewrite normal_loop by done. rewrite result_bind_ok.
    destruct (dfs_spec (S (pieces b)) b r c [] [] Hwf Hb) as (res & E & M & N);
      [lia|].
    rewrite E, result_bind_ok. exists res. split_and!; [done| |done].
    intros p. rewrite M. split.
    + intros (q & bd' & -> & Hne & Hq). eauto.
    + intros (Hne & bd' & Hq). eauto.
Qed.

(** ** The applicator on well-formed boards *)

Lemma midpoint_in_bounds cr cc nr nc :
  in_bounds cr cc = true → in_bounds nr nc = true →
  in_bounds ((nr + cr) `div` 2) ((nc + cc) `div` 2) = true.
Proof. intros. inb. split; split; (apply Z.div_pos || apply Z.div_lt_upper_bound); lia. Qed.

Lemma wf_clear_all sqs : ∀ nb, wf nb → wf (clear_all nb sqs).
Proof.
  induction sqs as [|[r c] sqs IH]; intros nb Hwf; [done|].
  simpl. apply IH. by apply wf_upd.
Qed.

Lemma mids_on_board path : ∀ cr cc,
  in_bounds cr cc = true → on_board path → on_board (mids cr cc path).
Proof.
  induction path as [|[nr nc] path IH]; intros cr cc Hc Hp; [constructor|].
  inversion Hp; subst. simpl. apply Forall_app. split; [|by apply IH].
  destruct (is_jump cr cc nr nc); [|constructor].
  repeat constructor. by apply midpoint_in_bounds.
Qed.

Lemma final_in_bounds path : ∀ cr cc,
  in_bounds cr cc = true → on_board path →
  in_bounds (final cr cc path).1 (final cr cc path).2 = true.
Proof.
  induction path as [|[nr nc] path IH]; intros cr cc Hc Hp; [done|].
  inversion Hp; subst. simpl. by apply IH.
Qed.

Lemma walk_wf path : ∀ nb cr cc,
  wf nb → in_bounds cr cc = true → on_board path →
  walk nb cr cc path
  = Ok (clear_all nb (mids cr cc path), (final cr cc path).1, (final cr cc path).2).
Proof.
  unfold walk.
  induction path as [|[nr nc] path IH]; intros nb cr cc Hwf Hc Hp; [done|].
  inversion Hp; subst. cbn [for_each mids final].
  fold (is_jump cr cc nr nc). destruct (is_jump cr cc nr nc).
  - rewrite bset_wf by (done || by apply midpoint_in_bounds).
    rewrite !result_bind_ok. rewrite IH by (done || by apply wf_upd). done.
  - rewrite !result_bind_ok. by rewrite IH.
Qed.

Lemma apply_move_wf b sr sc path :
  wf b → in_bounds sr sc = true → on_board path →
  apply_move b (sr, sc, path) = Ok (apply_move_p b sr sc path).
Proof.
  intros Hwf Hs Hp. unfold apply_move, apply_move_p. rewrite clone_board_id.
  rewrite bget_wf by done. rewrite result_bind_ok.
  rewrite bset_wf by done. rewrite result_bind_ok.
  rewrite walk_wf by (done || by apply wf_upd). rewrite result_bind_ok.
  pose proof (final_in_bounds path sr sc Hs Hp) as Hf.
  destruct (final sr sc path) as [cr cc]. simpl in Hf |- *.
  set (nb := clear_all (upd b sr sc 0) (mids sr sc path)).
  assert (Hwfn : wf nb) by (apply wf_clear_all; by apply wf_upd).
  rewrite bset_wf by done. rewrite result_bind_ok.
  rewrite crown_seq by (done || by apply wf_upd).
  f_equal. rewrite cell_upd_eq by done.
  apply board_ext; [by repeat apply wf_upd..|].
  intros r c Hrc. rewrite !cell_upd by (done || by repeat apply wf_upd).
  by case_decide.
Qed.

Lemma wf_apply_move_p b sr sc path : wf b → wf (apply_move_p b sr sc path).
Proof.
  intros Hwf. unfold apply_move_p. destruct (final sr sc path).
  apply wf_upd, wf_clear_all. by apply wf_upd.
Qed.

Lemma clear_all_cons nb r c sqs :
  clear_all nb ((r, c) :: sqs) = clear_all (upd nb r c 0) sqs.
Proof. reflexivity. Qed.

Lemma cell_clear_all sqs : ∀ nb r c,
  wf nb → on_board sqs → in_bounds r c = true →
  cell (clear_all nb sqs) r c = if decide ((r, c) ∈ sqs) then 0 else cell nb r c.
Proof.
  induction sqs as [|[r' c'] sqs IH]; intros nb r c Hwf Hs Hrc.
  - case_decide as E; [by apply elem_of_nil in E|done].
  - inversion Hs; subst. rewrite clear_all_cons, IH by (done || by apply wf_upd).
    rewrite cell_upd by done.
    rewrite (decide_ext _ _ _ _ (elem_of_cons sqs (r, c) (r', c'))).
    repeat case_decide; try done; naive_solver.
Qed.

(** The cells of the board that [apply_move] returns. *)
Lemma cell_apply_move_p b sr sc path r c :
  wf b → in_bounds sr sc = true → on_board path → in_bounds r c = true →
  cell (apply_move_p b sr sc path) r c =
    if decide ((r, c) = final sr sc path)
    then crown (cell b sr sc) (final sr sc path).1
    else if decide ((r, c) = (sr, sc) ∨ (r, c) ∈ mids sr sc path) then 0
    else cell b r c.
Proof.
  intros Hwf Hs Hp Hrc. unfold apply_move_p.
  pose proof (final_in_bounds path sr sc Hs Hp) as Hf.
  destruct (final sr sc path) as [cr cc] eqn:Hfin. simpl in Hf |- *.
  rewrite cell_upd by (done || apply wf_clear_all; by apply wf_upd).
  rewrite cell_clear_all by (done || by apply wf_upd || by apply mids_on_board).
  rewrite cell_upd by done.
  repeat case_decide; try done; try congruence; naive_solver.
Qed.

(** ** A chain of the generator, seen by the applicator *)

Lemma scan_dirs_unit pc dr dc :
  (dr, dc) ∈ scan_dirs pc → (dr = 1 ∨ dr = -1) ∧ (dc = 1 ∨ dc = -1).
Proof.
  unfold scan_dirs, all_dirs, up_dirs, down_dirs.
  repeat case_match; rewrite ?elem_of_cons, elem_of_nil; intros Hd;
    repeat destruct Hd as [Hd|Hd]; try done; inversion Hd; lia.
Qed.

Lemma jump_geometry cr cc dr dc :
  (dr = 1 ∨ dr = -1) ∧ (dc = 1 ∨ dc = -1) →
  is_jump cr cc (cr + 2 * dr) (cc + 2 * dc) = true
  ∧ midpoint cr cc (cr + 2 * dr) (cc + 2 * dc) = (cr + dr, cc + dc).
Proof.
  intros [Hr Hc]. unfold is_jump, midpoint. split.
  - apply orb_true_iff. left. lia.
  - f_equal; symmetry; apply Z.div_unique with (r := 0); lia.
Qed.

Lemma cell_jump_p bd cr cc dr dc r c :
  wf bd → in_bounds cr cc = true →
  in_bounds (cr + dr) (cc + dc) = true →
  in_bounds (cr + 2 * dr) (cc + 2 * dc) = true →
  dr ≠ 0 → in_bounds r c = true →
  cell (jump_p bd cr cc (cr + dr) (cc + dc) (cr + 2 * dr) (cc + 2 * dc)) r c =
    if decide ((r, c) = (cr + 2 * dr, cc + 2 * dc))
    then crown (cell bd cr cc) (cr + 2 * dr)
    else if decide ((r, c) = (cr, cc) ∨ (r, c) = (cr + dr, cc + dc)) then 0
    else cell bd r c.
Proof.
  intros Hwf Hc Hm Hl Hd Hrc. unfold jump_p.
  rewrite !cell_upd by (done || by repeat apply wf_upd).
  repeat case_decide; try done; naive_solver lia.
Qed.

(** The applicator clears exactly what the scratch boards of the chain
    cleared: lifting the piece off the final scratch board gives the board
    of [apply_move] before the piece is put down. *)
Lemma chain_clear bd cr cc q bd' :
  max_chain bd cr cc q bd' → wf bd → in_bounds cr cc = true →
  wf bd' ∧ on_board q
  ∧ clear_all (upd bd cr cc 0) (mids cr cc q)
    = upd bd' (final cr cc q).1 (final cr cc q).2 0.
Proof.
  induction 1 as [bd cr cc Hno|bd cr cc lr lc nb q bd' Hj Hq IH]; intros Hwf Hc.
  - split_and!; [done|constructor|done].
  - destruct (legal_jump_inv _ _ _ _ _ _ Hwf Hc Hj) as (Hl & Hwfn & _).
    destruct (IH Hwfn Hl) as (Hwf' & Hon & Heq).
    split_and!; [done|by constructor|].
    destruct Hj as [dr dc Hin Hm Hl' Hopp Hl0].
    pose proof (scan_dirs_unit _ _ _ Hin) as Hu.
    destruct (jump_geometry cr cc dr dc Hu) as [Hij Hmid].
    cbn [mids final]. rewrite Hij, Hmid. simpl app. rewrite clear_all_cons.
    rewrite <- Heq. f_equal.
    apply board_ext; [by repeat apply wf_upd..|].
    intros r c Hrc.
    rewrite (cell_upd (jump_p _ _ _ _ _ _ _)) by (done || by apply wf_jump_p).
    rewrite cell_jump_p by (done || lia).
    rewrite !cell_upd by (done || by repeat apply wf_upd).
    repeat case_decide; try done; try congruence; naive_solver lia.
Qed.

Lemma chain_stuck bd cr cc q bd' :
  max_chain bd cr cc q bd' →
  ∀ lr lc nb, ¬ legal_jump bd' (final cr cc q).1 (final cr cc q).2 lr lc nb.
Proof. induction 1; [done|]. by cbn [final]. Qed.

Lemma rank_le_crown a s lr : rank_le a s → rank_le (crown a lr) (crown s lr).
Proof. unfold rank_le, crown. intros H. repeat case_match; lia. Qed.

Lemma rank_le_crown_r a s lr : rank_le a s → rank_le a (crown s lr).
Proof. unfold rank_le, crown. intros H. repeat case_match; lia. Qed.

Lemma cell_landing bd cr cc lr lc nb :
  wf bd → in_bounds cr cc = true → legal_jump bd cr cc lr lc nb →
  cell nb lr lc = crown (cell bd cr cc) lr.
Proof.
  intros Hwf Hc [dr dc Hin Hm Hl Hopp Hl0].
  pose proof (scan_dirs_unit _ _ _ Hin) as Hu.
  rewrite cell_jump_p by (done || lia). by rewrite decide_True.
Qed.

(** At the end of a chain the scratch board holds the piece that
    [apply_move] puts down, or its king. *)
Lemma chain_rank bd cr cc q bd' :
  max_chain bd cr cc q bd' → wf bd → in_bounds cr cc = true →
  ∀ piece, rank_le piece (cell bd cr cc) → q ≠ [] →
  rank_le (crown piece (final cr cc q).1)
          (cell bd' (final cr cc q).1 (final cr cc q).2).
Proof.
  induction 1 as [bd cr cc Hno|bd cr cc lr lc nb q bd' Hj Hq IH];
    intros Hwf Hc piece Hle Hne; [done|].
  destruct (legal_jump_inv _ _ _ _ _ _ Hwf Hc Hj) as (Hl & Hwfn & _).
  pose proof (cell_landing _ _ _ _ _ _ Hwf Hc Hj) as Hland.
  cbn [final]. destruct q as [|x q].
  - inversion Hq; subst. cbn [final fst snd]. rewrite Hland.
    by apply rank_le_crown.
  - apply IH; [done..| |done]. rewrite Hland. by apply rank_le_crown_r.
Qed.

Lemma scan_dirs_rank a s d : rank_le a s → d ∈ scan_dirs a → d ∈ scan_dirs s.
Proof.
  intros [->|[[-> ->]|[-> ->]]]; [done|..]; vm_compute scan_dirs;
    rewrite !elem_of_cons; tauto.
Qed.

(** Once a chain of the generator has been applied, the piece has no jump
    left on the new board: the chain was maximal on the scratch boards, and
    the applied board differs from the last of them at most in the rank of
    the moved piece, which the scratch board may have crowned on the way. *)
Lemma applied_chain_stuck b sr sc q bd' :
  max_chain b sr sc q bd' → wf b → in_bounds sr sc = true → q ≠ [] →
  ∀ lr lc nb,
    ¬ legal_jump (apply_move_p b sr sc q) (final sr sc q).1 (final sr sc q).2
        lr lc nb.
Proof.
  intros Hq Hwf Hs Hne lr lc nb Hj.
  destruct (chain_clear _ _ _ _ _ Hq Hwf Hs) as (Hwf' & Hon & Hclear).
  pose proof (chain_rank _ _ _ _ _ Hq Hwf Hs (cell b sr sc) (or_introl eq_refl) Hne)
    as Hrank.
  pose proof (chain_stuck _ _ _ _ _ Hq) as Hstuck.
  pose proof (final_in_bounds q sr sc Hs Hon) as Hf.
  unfold apply_move_p in Hj. rewrite Hclear in Hj.
  destruct (final sr sc q) as [fr fc]. cbn [fst snd] in *.
  set (a := crown (cell b sr sc) fr) in *.
  set (A := upd (upd bd' fr fc 0) fr fc a) in *.
  assert (HA : ∀ r c, in_bounds r c = true →
            cell A r c = if decide ((fr, fc) = (r, c)) then a else cell bd' r c).
  { intros r c Hrc. unfold A.
    rewrite !cell_upd by (done || by apply wf_upd). by case_decide. }
  destruct Hj as [dr dc Hin Hm Hl Hopp Hl0].
  pose proof (scan_dirs_unit _ _ _ Hin) as Hu.
  assert (HAf : cell A fr fc = a) by (rewrite HA by done; by rewrite decide_True).
  assert (HAm : cell A (fr + dr) (fc + dc) = cell bd' (fr + dr) (fc + dc))
    by (rewrite HA by done; rewrite decide_False; [done|intros [=]; lia]).
  assert (HAl : cell A (fr + 2 * dr) (fc + 2 * dc)
                = cell bd' (fr + 2 * dr) (fc + 2 * dc))
    by (rewrite HA by done; rewrite decide_False; [done|intros [=]; lia]).
  rewrite HAf in Hin. rewrite HAf, HAm in Hopp. rewrite HAl in Hl0.
  eapply (Hstuck _ _ _). apply (legal_jump_intro bd' fr fc dr dc); try done.
  - by eapply scan_dirs_rank.
  - destruct Hrank as [<-|[[Ha ->]|[Ha ->]]]; [done|rewrite Ha in Hopp; lia..].
Qed.

(** The landing squares of a chain: each hop spans two rows and two columns. *)
Lemma chain_first_hop bd cr cc lr lc q bd' :
  max_chain bd cr cc ((lr, lc) :: q) bd' →
  (lr = cr + 2 ∨ lr = cr - 2) ∧ (lc = cc + 2 ∨ lc = cc - 2).
Proof.
  intros Hq. inversion Hq as [|? ? ? ? ? ? ? ? Hj]; subst.
  inversion Hj as [dr dc Hin]; subst.
  apply scan_dirs_unit in Hin. lia.
Qed.

Lemma chain_parity bd cr cc q bd' :
  max_chain bd cr cc q bd' →
  ((final cr cc q).1 + (final cr cc q).2) `mod` 2 = (cr + cc) `mod` 2.
Proof.
  induction 1 as [|bd cr cc lr lc nb q bd' Hj Hq IH]; [done|].
  cbn [final]. rewrite IH. destruct Hj as [dr dc Hin].
  replace (cr + 2 * dr + (cc + 2 * dc)) with (cr + cc + (dr + dc) * 2) by lia.
  apply Z.mod_add. lia.
Qed.

(** ** The side-wide aggregation on well-formed boards *)

Lemma get_piece_moves_wf b r c :
  wf b → in_bounds r c = true →
  get_piece_moves b r c = Ok (normals_of b r c, captures_of b r c).
Proof.
  intros Hwf Hb. destruct (get_piece_moves_spec b r c Hwf Hb) as (cm & E & _).
  unfold captures_of. by rewrite E.
Qed.

Lemma captures_of_spec b r c p :
  wf b → in_bounds r c = true →
  p ∈ captures_of b r c ↔ p ≠ [] ∧ ∃ bd', max_chain b r c p bd'.
Proof.
  intros Hwf Hb. destruct (get_piece_moves_spec b r c Hwf Hb) as (cm & E & M & _).
  unfold captures_of. rewrite E. apply M.
Qed.

Lemma owned_app f b player s1 s2 :
  owned f b player (s1 ++ s2) = owned f b player s1 ++ owned f b player s2.
Proof. unfold owned. apply bind_app. Qed.

Lemma all_moves_loop b player rs cs : ∀ captures normals,
  wf b → (∀ r c, r ∈ rs → c ∈ cs → in_bounds r c = true) →
  for_each rs (λ r acc,
    for_each cs (λ c '(captures, normals),
      v ← bget b r c;
      if 0 <? v * player then
        '(nm, cm) ← get_piece_moves b r c;
        Ok (captures ++ map (λ p, (r, c, p)) cm,
            normals ++ map (λ p, (r, c, p)) nm)
      else Ok (captures, normals)) acc) (captures, normals)
  = Ok (captures ++ owned (captures_of b) b player (grid rs cs),
        normals ++ owned (normals_of b) b player (grid rs cs)).
Proof.
  induction rs as [|r rs IH]; intros captures normals Hwf Hin.
  - simpl. by rewrite !app_nil_r.
  - cbn [for_each].
    assert (Hrow : ∀ cs' captures normals, (∀ c, c ∈ cs' → c ∈ cs) →
      for_each cs' (λ c '(captures, normals),
        v ← bget b r c;
        if 0 <? v * player then
          '(nm, cm) ← get_piece_moves b r c;
          Ok (captures ++ map (λ p, (r, c, p)) cm,
              normals ++ map (λ p, (r, c, p)) nm)
        else Ok (captures, normals)) (captures, normals)
      = Ok (captures ++ owned (captures_of b) b player (grid [r] cs'),
            normals ++ owned (normals_of b) b player (grid [r] cs'))).
    { induction cs' as [|c cs' IHc]; intros caps norms Hsub.
      - simpl. by rewrite !app_nil_r.
      - assert (Hb : in_bounds r c = true) by (apply Hin; [left|apply Hsub; left]).
        cbn [for_each]. rewrite bget_wf by done. rewrite result_bind_ok.
        replace (grid [r] (c :: cs')) with ([(r, c)] ++ grid [r] cs')
          by (unfold grid; by rewrite !bind_singleton, bind_cons).
        rewrite !owned_app.
        assert (Hone : ∀ f, owned f b player [(r, c)]
                  = if 0 <? cell b r c * player
                    then map (λ p, (r, c, p)) (f r c) else []).
        { intros f. unfold owned. apply bind_singleton. }
        rewrite !Hone.
        destruct (0 <? cell b r c * player).
        + rewrite get_piece_moves_wf by done. rewrite !result_bind_ok.
          rewrite IHc by (intros; apply Hsub; by right).
          by rewrite <- !app_assoc.
        + rewrite result_bind_ok.
          rewrite IHc by (intros; apply Hsub; by right). done. }
    rewrite Hrow by done. rewrite result_bind_ok.
    rewrite IH by (done || (intros; apply Hin; [by right|done])).
    replace (grid (r :: rs) cs) with (grid [r] cs ++ grid rs cs)
      by (unfold grid; by rewrite bind_singleton).
    by rewrite !owned_app, <- !app_assoc.
Qed.

Lemma squares_in_bounds r c : (r, c) ∈ squares ↔ in_bounds r c = true.
Proof.
  unfold squares. rewrite list_elem_of_bind. split.
  - intros (r' & (c' & Hrc%list_elem_of_singleton & Hc%elem_of_seqZ)%list_elem_of_bind
              & Hr%elem_of_seqZ).
    inversion Hrc; subst. apply in_bounds_spec. unfold ROWS, COLS in *. lia.
  - intros Hb. inb. exists r. split.
    + apply list_elem_of_bind. exists c. split; [by apply list_elem_of_singleton|].
      apply elem_of_seqZ. unfold COLS. lia.
    + apply elem_of_seqZ. unfold ROWS. lia.
Qed.

Lemma get_all_moves_wf b player :
  wf b →
  get_all_moves b player
  = Ok (if nonempty (owned (captures_of b) b player squares)
        then owned (captures_of b) b player squares
        else owned (normals_of b) b player squares).
Proof.
  intros Hwf. unfold get_all_moves.
  rewrite all_moves_loop; [done|done|].
  intros r c Hr%elem_of_seqZ Hc%elem_of_seqZ. apply in_bounds_spec.
  unfold ROWS, COLS in *. lia.
Qed.

Lemma elem_of_owned f b player sqs r c p :
  (r, c, p) ∈ owned f b player sqs ↔
  (r, c) ∈ sqs ∧ (0 < cell b r c * player) ∧ p ∈ f r c.
Proof.
  unfold owned. rewrite list_elem_of_bind. split.
  - intros ([r' c'] & Hin & Hsq).
    destruct (0 <? cell b r' c' * player) eqn:Hown; [|by apply elem_of_nil in Hin].
    apply list_elem_of_fmap in Hin as (p' & [= -> -> ->] & Hp).
    split_and!; [done|lia|done].
  - intros (Hsq & Hown & Hp). exists (r, c). split; [|done].
    assert ((0 <? cell b r c * player) = true) as -> by lia.
    apply list_elem_of_fmap. by exists p.
Qed.

(** ** Terminal test and winner on well-formed boards *)

Lemma any_cell_wf p b sqs :
  wf b → on_board sqs →
  any_cell p b sqs = Ok (existsb (λ '(r, c), p (cell b r c)) sqs).
Proof.
  intros Hwf. induction 1 as [|[r c] sqs Hb Hs IH]; [done|].
  cbn [any_cell existsb]. rewrite bget_wf by done. rewrite result_bind_ok.
  by destruct (p (cell b r c)).
Qed.

Lemma squares_on_board : on_board squares.
Proof. apply Forall_forall. intros [r c]. apply squares_in_bounds. Qed.

Lemma any_squares p b :
  existsb (λ '(r, c), p (cell b r c)) squares = true
  ↔ ∃ r c, in_bounds r c = true ∧ p (cell b r c) = true.
Proof.
  rewrite existsb_exists. split.
  - intros ([r c] & Hin%list_elem_of_In%squares_in_bounds & Hp). eauto.
  - intros (r & c & Hb & Hp). exists (r, c).
    split; [by apply list_elem_of_In, squares_in_bounds|done].
Qed.

Lemma any_red b :
  existsb (λ '(r, c), 0 <? cell b r c) squares = true ↔ has_piece b Red.
Proof.
  etrans; [apply (any_squares (λ v, 0 <? v))|]. unfold has_piece.
  split; intros (r & c & Hb & Hp); exists r, c; (split; [done|lia]).
Qed.

Lemma any_blue b :
  existsb (λ '(r, c), cell b r c <? 0) squares = true ↔ has_piece b Blue.
Proof.
  etrans; [apply (any_squares (λ v, v <? 0))|]. unfold has_piece.
  split; intros (r & c & Hb & Hp); exists r, c; (split; [done|lia]).
Qed.

Lemma is_terminal_wf b :
  wf b →
  is_terminal b
  = Ok (negb (existsb (λ '(r, c), 0 <? cell b r c) squares)
        || negb (existsb (λ '(r, c), cell b r c <? 0) squares)).
Proof.
  intros Hwf. unfold is_terminal.
  rewrite (any_cell_wf (λ v, 0 <? v)) by (done || apply squares_on_board).
  by rewrite (any_cell_wf (λ v, v <? 0)) by (done || apply squares_on_board).
Qed.

Lemma winner_wf b :
  wf b →
  winner b
  = Ok (let red := existsb (λ '(r, c), 0 <? cell b r c) squares in
        let blue := existsb (λ '(r, c), cell b r c <? 0) squares in
        if red && negb blue then Some Red
        else if blue && negb red then Some Blue
        else None).
Proof.
  intros Hwf. unfold winner.
  rewrite (any_cell_wf (λ v, 0 <? v)) by (done || apply squares_on_board).
  rewrite (any_cell_wf (λ v, v <? 0)) by (done || apply squares_on_board).
  rewrite !result_bind_ok. cbv zeta. by repeat case_match.
Qed.

(** ** Paths offered by the generator *)

Lemma lookup_final p : ∀ x : Coord,
  (x :: p) !! length p = Some (final x.1 x.2 p).
Proof.
  induction p as [|y p IH]; intros [r c]; [done|].
  destruct y as [r' c']. cbn [final length]. apply (IH (r', c')).
Qed.

(** [p[-1]] is the square on which the walk along [p] ends. *)
Lemma getitem_last (p : Path) sr sc :
  p ≠ [] → getitem p (-1) = Ok (final sr sc p).
Proof.
  destruct p as [|[r c] p]; [done|]. intros _. unfold getitem, py_index.
  cbn [length final].
  assert (((0 <=? -1) && (-1 <? Z.of_nat (S (length p)))) = false) as -> by done.
  assert (((- Z.of_nat (S (length p)) <=? -1) && (-1 <? 0)) = true) as ->
    by (apply andb_true_iff; split; [apply Z.leb_le; lia|done]).
  replace (Z.to_nat (Z.of_nat (S (length p)) + -1)) with (length p) by lia.
  by rewrite (lookup_final p (r, c)).
Qed.

Lemma directions_unit piece dr dc :
  (dr, dc) ∈ directions piece → (dr = 1 ∨ dr = -1) ∧ (dc = 1 ∨ dc = -1).
Proof.
  unfold directions, all_dirs, up_dirs, down_dirs.
  repeat case_match; rewrite ?elem_of_cons, elem_of_nil; intros Hd;
    repeat destruct Hd as [Hd|Hd]; try done; inversion Hd; lia.
Qed.

(** A simple move is one step to an empty diagonal neighbour. *)
Lemma normals_of_spec b r c p :
  p ∈ normals_of b r c →
  ∃ dr dc, p = [(r + dr, c + dc)] ∧ (dr, dc) ∈ directions (cell b r c)
           ∧ in_bounds (r + dr) (c + dc) = true
           ∧ cell b (r + dr) (c + dc) = 0 ∧ cell b r c ≠ 0.
Proof.
  unfold normals_of. destruct (cell b r c =? 0) eqn:Hz; [by intros ?%elem_of_nil|].
  intros ([dr dc] & Hin & Hstep)%list_elem_of_omap. unfold step_of in Hstep.
  destruct (in_bounds (r + dr) (c + dc)) eqn:Hb; [|done].
  destruct (cell b (r + dr) (c + dc) =? 0) eqn:Hc; [|done].
  inversion Hstep; subst. exists dr, dc. split_and!; try done; lia.
Qed.

Lemma captures_on_board b r c p :
  wf b → in_bounds r c = true → p ∈ captures_of b r c → p ≠ [] ∧ on_board p.
Proof.
  intros Hwf Hb (Hne & bd' & Hq)%captures_of_spec; [|done..].
  split; [done|]. by destruct (chain_clear _ _ _ _ _ Hq Hwf Hb) as (_ & Hon & _).
Qed.

Lemma normals_on_board b r c p :
  p ∈ normals_of b r c → p ≠ [] ∧ on_board p.
Proof.
  intros (dr & dc & -> & _ & Hb & _)%normals_of_spec.
  split; [done|]. by repeat constructor.
Qed.

(** ** The session between events *)

Lemma initial_board_eq : initial_board = Ok start_board.
Proof. reflexivity. Qed.

Lemma wf_start_board : wf start_board.
Proof. split; [done|]. by repeat constructor. Qed.

Lemma all_captures_loop b t rs cs : ∀ acc,
  wf b → (∀ r c, r ∈ rs → c ∈ cs → in_bounds r c = true) →
  for_each rs (λ rr acc,
    for_each cs (λ cc all_captures,
      v ← bget b rr cc;
      if 0 <? v * t then
        '(_, cm) ← get_piece_moves b rr cc;
        Ok (all_captures ++ map (λ p, (rr, cc, p)) cm)
      else Ok all_captures) acc) acc
  = Ok (acc ++ owned (captures_of b) b t (grid rs cs)).
Proof.
  induction rs as [|r rs IH]; intros acc Hwf Hin.
  - simpl. by rewrite app_nil_r.
  - cbn [for_each].
    assert (Hrow : ∀ cs' acc, (∀ c, c ∈ cs' → c ∈ cs) →
      for_each cs' (λ cc all_captures,
        v ← bget b r cc;
        if 0 <? v * t then
          '(_, cm) ← get_piece_moves b r cc;
          Ok (all_captures ++ map (λ p, (r, cc, p)) cm)
        else Ok all_captures) acc
      = Ok (acc ++ owned (captures_of b) b t (grid [r] cs'))).
    { induction cs' as [|c cs' IHc]; intros acc' Hsub.
      - simpl. by rewrite app_nil_r.
      - assert (Hb : in_bounds r c = true) by (apply Hin; [left|apply Hsub; left]).
        cbn [for_each]. rewrite bget_wf by done. rewrite result_bind_ok.
        replace (grid [r] (c :: cs')) with ([(r, c)] ++ grid [r] cs')
          by (unfold grid; by rewrite !bind_singleton, bind_cons).
        rewrite owned_app.
        assert (Hone : owned (captures_of b) b t [(r, c)]
                  = if 0 <? cell b r c * t
                    then map (λ p, (r, c, p)) (captures_of b r c) else []).
        { unfold owned. apply bind_singleton. }
        rewrite Hone.
        destruct (0 <? cell b r c * t).
        + rewrite get_piece_moves_wf by done. rewrite !result_bind_ok.
          rewrite IHc by (intros; apply Hsub; by right).
          by rewrite <- !app_assoc.
        + rewrite result_bind_ok.
          rewrite IHc by (intros; apply Hsub; by right). done. }
    rewrite Hrow by done. rewrite result_bind_ok.
    rewrite IH by (done || (intros; apply Hin; [by right|done])).
    replace (grid (r :: rs) cs) with (grid [r] cs ++ grid rs cs)
      by (unfold grid; by rewrite bind_singleton).
    by rewrite !owned_app, <- !app_assoc.
Qed.

Lemma all_captures_wf b t :
  wf b → Session.all_captures b t = Ok (owned (captures_of b) b t squares).
Proof.
  intros Hwf. unfold Session.all_captures.
  rewrite all_captures_loop; [done|done|].
  intros r c Hr%elem_of_seqZ Hc%elem_of_seqZ. apply in_bounds_spec.
  unfold ROWS, COLS in *. lia.
Qed.

Lemma find_path_spec ps r c :
  Forall (λ p : Path, p ≠ []) ps →
  ∃ o, Session.find_path ps r c = Ok o
       ∧ ∀ p, o = Some p → p ∈ ps ∧ p ≠ [] ∧ ∀ sr sc, final sr sc p = (r, c).
Proof.
  induction 1 as [|p ps Hp Hps (o & E & Ho)].
  - exists None. by split.
  - cbn [Session.find_path]. rewrite (getitem_last p 0 0 Hp).
    rewrite result_bind_ok. destruct (final 0 0 p) as [er ec] eqn:Hfin.
    destruct ((er =? r) && (ec =? c)) eqn:Heq.
    + exists (Some p). split; [done|]. intros p' [= <-].
      split_and!; [left|done|]. intros sr sc.
      destruct p as [|[r' c'] p]; [done|]. cbn [final] in *. rewrite Hfin.
      f_equal; lia.
    + exists o. split; [done|]. intros p' Hp'.
      destruct (Ho p' Hp') as (Hin & Hne & Hf). split_and!; [by right|done..].
Qed.

Lemma captures_of_stuck b r c :
  wf b → in_bounds r c = true →
  (∀ lr lc nb, ¬ legal_jump b r c lr lc nb) → captures_of b r c = [].
Proof.
  intros Hwf Hb Hno. destruct (captures_of b r c) as [|p ps] eqn:E; [done|].
  exfalso. assert (Hp : p ∈ captures_of b r c) by (rewrite E; left).
  apply captures_of_spec in Hp as (Hne & bd' & Hq); [|done..].
  inversion Hq as [|? ? ? ? ? ? ? ? Hj]; subst; [done|]. by eapply Hno.
Qed.

Lemma jumped_step sr sc dr dc :
  (dr = 1 ∨ dr = -1) ∧ (dc = 1 ∨ dc = -1) →
  Session.jumped sr sc [(sr + dr, sc + dc)] = false.
Proof.
  intros Hu. cbn [Session.jumped]. rewrite !orb_false_r.
  apply orb_false_iff. split; apply Z.eqb_neq; lia.
Qed.

Lemma click_square mx my :
  0 ≤ mx < BOARD_SIZE → 0 ≤ my < BOARD_SIZE →
  in_bounds (my `div` SQ) (mx `div` SQ) = true.
Proof.
  unfold BOARD_SIZE. intros Hx Hy. change SQ with 100. apply in_bounds_spec.
  split; split; (apply Z.div_pos || apply Z.div_lt_upper_bound); lia.
Qed.

Lemma click_guard mx my :
  0 ≤ mx < BOARD_SIZE → 0 ≤ my < BOARD_SIZE →
  (mx <? 0) || (BOARD_SIZE <=? mx) || (my <? 0) || (BOARD_SIZE <=? my) = false.
Proof. intros. rewrite !orb_false_iff. split_and!; lia. Qed.

Lemma offered_paths s sr sc p :
  Session.inv s → Session.selected s = Some (sr, sc) →
  p ∈ Session.legal_paths_for_selected s → p ≠ [] ∧ on_board p.
Proof.
  intros [Hwf _ Hsel] Hs Hp. destruct (Hsel sr sc Hs) as (Hb & [E|E]);
    rewrite E in Hp.
  - by eapply normals_on_board.
  - by eapply captures_on_board.
Qed.

(** A click on the end of an offered path applies the path, passes the turn
    and leaves no continuation: the branch of the multi-jump continuation
    is never taken for paths of the generator. *)
Lemma click_move s mx my sr sc p :
  Session.inv s → 0 ≤ mx < BOARD_SIZE → 0 ≤ my < BOARD_SIZE →
  Session.selected s = Some (sr, sc) →
  Session.find_path (Session.legal_paths_for_selected s)
    (my `div` SQ) (mx `div` SQ) = Ok (Some p) →
  Session.click s mx my
  = Ok (Session.State (apply_move_p (Session.board s) sr sc p)
          (Session.turn s * -1) None []
          (Session.undo_stack s ++ [(Session.board s, Session.turn s)])).
Proof.
  intros Hinv Hx Hy Hs Hfind.
  pose proof (click_square mx my Hx Hy) as Hrc.
  destruct Hinv as [Hwf Hundo Hsel]. destruct (Hsel sr sc Hs) as (Hb & Hlegal).
  assert (Hall : Forall (λ p : Path, p ≠ [])
                   (Session.legal_paths_for_selected s)).
  { apply Forall_forall. intros q Hq.
    by destruct (offered_paths s sr sc q (Session.Inv _ Hwf Hundo Hsel) Hs Hq). }
  destruct (find_path_spec _ (my `div` SQ) (mx `div` SQ) Hall) as (o & E & Ho).
  rewrite Hfind in E. inversion E; subst o. clear E.
  destruct (Ho p eq_refl) as (Hin & Hne & Hfin).
  destruct (offered_paths s sr sc p (Session.Inv _ Hwf Hundo Hsel) Hs Hin)
    as (_ & Hon).
  unfold Session.click. rewrite click_guard by done.
  rewrite bget_wf by done. rewrite result_bind_ok.
  rewrite all_captures_wf by done. rewrite result_bind_ok.
  rewrite Hs, Hfind, result_bind_ok.
  destruct p as [|x p]; [done|].
  rewrite apply_move_wf by done. rewrite result_bind_ok.
  rewrite (getitem_last (x :: p) sr sc) by done. rewrite result_bind_ok.
  pose proof (final_in_bounds (x :: p) sr sc Hb Hon) as Hfb.
  rewrite (Hfin sr sc) in Hfb |- *. cbn [fst snd] in Hfb.
  rewrite get_piece_moves_wf by (done || by apply wf_apply_move_p).
  rewrite result_bind_ok. rewrite clone_board_id.
  assert (Session.jumped sr sc (x :: p)
          && nonempty (captures_of (apply_move_p (Session.board s) sr sc (x :: p))
                         (my `div` SQ) (mx `div` SQ)) = false) as ->; [|done].
  destruct Hlegal as [El|El]; rewrite El in Hin.
  - apply normals_of_spec in Hin as (dr & dc & [= -> ->] & Hd & _).
    rewrite jumped_step; [done|]. by eapply directions_unit.
  - apply captures_of_spec in Hin as (_ & bd' & Hq); [|done..].
    pose proof (applied_chain_stuck _ _ _ _ _ Hq Hwf Hb Hne) as Hstuck.
    rewrite (Hfin sr sc) in Hstuck. cbn [fst snd] in Hstuck.
    rewrite captures_of_stuck by (done || by apply wf_apply_move_p).
    apply andb_false_r.
Qed.

Lemma pop_snoc {A} (l : list A) x : Session.pop (l ++ [x]) = Some (l, x).
Proof. unfold Session.pop. by rewrite last_snoc, removelast_last. Qed.

Lemma pop_Some {A} (l rest : list A) x :
  Session.pop l = Some (rest, x) → l = rest ++ [x].
Proof.
  unfold Session.pop. destruct (last l) as [y|] eqn:E; [|done].
  apply last_Some in E as [l' ->]. rewrite removelast_last. by intros [= <- <-].
Qed.

Lemma undo_inv s : Session.inv s → Session.inv (Session.undo s).
Proof.
  intros [Hwf Hundo Hsel]. unfold Session.undo.
  destruct (Session.pop (Session.undo_stack s)) as [[rest [b t]]|] eqn:E;
    [|by constructor].
  apply pop_Some in E. rewrite E in Hundo.
  apply Forall_app in Hundo as [Hrest Hb]. inversion Hb; subst.
  by constructor.
Qed.

Lemma select_wf s r c piece caps :
  wf (Session.board s) → in_bounds r c = true →
  ∃ sel paths,
    Session.select s r c piece caps
    = Ok (Session.State (Session.board s) (Session.turn s) sel paths
            (Session.undo_stack s))
    ∧ ∀ sr sc, sel = Some (sr, sc) →
        in_bounds sr sc = true
        ∧ (paths = normals_of (Session.board s) sr sc
           ∨ paths = captures_of (Session.board s) sr sc).
Proof.
  intros Hwf Hb. unfold Session.select.
  destruct (0 <? piece * Session.turn s).
  - rewrite get_piece_moves_wf by done. rewrite result_bind_ok.
    eexists _, _. split; [done|]. intros sr sc [= <- <-]. split; [done|].
    destruct (nonempty caps); auto.
  - eexists _, _. split; [done|]. by intros sr sc [=].
Qed.

(** Every click leaves the board, the side to move and the snapshots as
    they were, or applies an offered path and passes the turn. *)
Lemma click_cases s mx my :
  Session.inv s →
  ∃ s', Session.click s mx my = Ok s' ∧ Session.inv s'
    ∧ ((Session.board s' = Session.board s ∧ Session.turn s' = Session.turn s
        ∧ Session.undo_stack s' = Session.undo_stack s)
       ∨ ∃ sr sc p,
           Session.selected s = Some (sr, sc)
           ∧ p ∈ Session.legal_paths_for_selected s
           ∧ s' = Session.State (apply_move_p (Session.board s) sr sc p)
                    (Session.turn s * -1) None []
                    (Session.undo_stack s ++ [(Session.board s, Session.turn s)])).
Proof.
  intros Hinv.
  destruct ((mx <? 0) || (BOARD_SIZE <=? mx) || (my <? 0) || (BOARD_SIZE <=? my))
    eqn:Hg.
  { exists s. unfold Session.click. rewrite Hg. split_and!; [done..|by left]. }
  assert (Hx : 0 ≤ mx < BOARD_SIZE) by (rewrite !orb_false_iff in Hg; lia).
  assert (Hy : 0 ≤ my < BOARD_SIZE) by (rewrite !orb_false_iff in Hg; lia).
  pose proof (click_square mx my Hx Hy) as Hrc.
  pose proof Hinv as [Hwf Hundo Hsel].
  assert (Hselect : ∀ piece caps, ∃ s',
    Session.select s (my `div` SQ) (mx `div` SQ) piece caps = Ok s'
    ∧ Session.inv s'
    ∧ Session.board s' = Session.board s ∧ Session.turn s' = Session.turn s
    ∧ Session.undo_stack s' = Session.undo_stack s).
  { intros piece caps.
    destruct (select_wf s _ _ piece caps Hwf Hrc) as (sel & paths & E & Hp).
    eexists. split; [exact E|]. split_and!; [|done..]. by constructor. }
  destruct (Session.selected s) as [[sr sc]|] eqn:Hs.
  - assert (Hall : Forall (λ p : Path, p ≠ [])
                     (Session.legal_paths_for_selected s)).
    { apply Forall_forall. intros q Hq.
      by destruct (offered_paths s sr sc q Hinv Hs Hq). }
    destruct (find_path_spec _ (my `div` SQ) (mx `div` SQ) Hall) as (o & E & Ho).
    destruct o as [p|].
    + destruct (Ho p eq_refl) as (Hin & Hne & Hfin).
      eexists. split; [by apply (click_move s mx my sr sc p)|].
      split; [|right; by exists sr, sc, p].
      constructor; cbn.
      * by apply wf_apply_move_p.
      * apply Forall_app. split; [done|]. constructor; [done|constructor].
      * by intros ? ? [=].
    + destruct (Hselect (cell (Session.board s) (my `div` SQ) (mx `div` SQ))
                  (owned (captures_of (Session.board s)) (Session.board s)
                     (Session.turn s) squares)) as (s' & E' & Hinv' & Hsame).
      exists s'. unfold Session.click. rewrite Hg.
      rewrite bget_wf by done. rewrite result_bind_ok.
      rewrite all_captures_wf by done. rewrite result_bind_ok.
      rewrite Hs, E, result_bind_ok. split_and!; [done..|by left].
  - destruct (Hselect (cell (Session.board s) (my `div` SQ) (mx `div` SQ))
                (owned (captures_of (Session.board s)) (Session.board s)
                   (Session.turn s) squares)) as (s' & E' & Hinv' & Hsame).
    exists s'. unfold Session.click. rewrite Hg.
    rewrite bget_wf by done. rewrite result_bind_ok.
    rewrite all_captures_wf by done. rewrite result_bind_ok.
    rewrite Hs. split_and!; [done..|by left].
Qed.

Lemma restart_inv s : Session.restart = Ok s → Session.inv s.
Proof.
  unfold Session.restart. rewrite initial_board_eq, result_bind_ok.
  intros [= <-]. constructor; cbn; [apply wf_start_board|constructor|done].
Qed.

(** The invariant holds throughout a game. *)
Lemma reachable_inv s : Session.reachable s → Session.inv s.
Proof.
  induction 1 as [s Hs|s e s' Hr IH Hstep]; [by apply restart_inv|].
  destruct e as [| |mx my]; cbn [Session.handle] in Hstep.
  - by apply restart_inv.
  - inversion Hstep; subst. by apply undo_inv.
  - destruct (click_cases s mx my IH) as (s'' & E & Hinv & _).
    rewrite E in Hstep. by inversion Hstep; subst.
Qed.

(** ** The store-level engine does what the value-level engine does *)

Lemma refines_bind {A B A' B'} h (m : Heap.M A) (p : result B)
    (f : A → Heap.M A') (g : B → result B') Q Q' :
  Heap.refines h m p Q →
  (∀ a b h', Q a b h' → Heap.refines h' (f a) (g b) Q') →
  Heap.refines h (m ≫= f) (p ≫= g) Q'.
Proof.
  unfold Heap.refines. intros Hm Hf.
  destruct p as [b| |]; cbn.
  - destruct Hm as (a & h' & E & HQ). unfold mbind, Heap.M_bind. rewrite E.
    by apply Hf.
  - unfold mbind, Heap.M_bind. by rewrite Hm.
  - unfold mbind, Heap.M_bind. by rewrite Hm.
Qed.

Lemma refines_weaken {A B} h (m : Heap.M A) (p : result B) (Q Q' : A → B → _ → Prop) :
  Heap.refines h m p Q → (∀ a b h', Q a b h' → Q' a b h') →
  Heap.refines h m p Q'.
Proof.
  unfold Heap.refines. destruct p; [|done..].
  intros (a' & h' & E & HQ) HQQ. eauto.
Qed.

Lemma refines_ret {A B} h (a : A) (b : B) (Q : A → B → _ → Prop) :
  Q a b h → Heap.refines h (mret a) (Ok b) Q.
Proof. intros HQ. by exists a, h. Qed.

Lemma refines_lift {A} h (p : result A) :
  Heap.refines h (Heap.lift p) p (λ a b h', a = b ∧ h' = h).
Proof. destruct p; cbn; eauto. Qed.

Lemma refines_for_each {A S T} (xs : list A) (bodyH : A → S → Heap.M S)
    (bodyP : A → T → result T) (I : S → T → Heap.heap → Prop) :
  (∀ x s t h, x ∈ xs → I s t h → Heap.refines h (bodyH x s) (bodyP x t) I) →
  ∀ s t h, I s t h →
    Heap.refines h (Heap.for_each xs bodyH s) (for_each xs bodyP t) I.
Proof.
  induction xs as [|x xs IH]; intros Hbody s t h HI.
  - by apply refines_ret.
  - cbn [Heap.for_each for_each]. eapply refines_bind.
    + apply Hbody; [left|done].
    + intros s' t' h' HI'. apply IH; [|done].
      intros. apply Hbody; [by right|done].
Qed.

Lemma py_index_lt n i k : py_index n i = Some k → (k < n)%nat.
Proof. unfold py_index. repeat case_match; intros [= <-]; lia. Qed.

Lemma getitem_Forall2 {A B} (P : A → B → Prop) (l : list A) (k : list B) i :
  Forall2 P l k →
  match getitem k i with
  | Ok y => ∃ x n, getitem l i = Ok x ∧ P x y
                   ∧ py_index (length k) i = Some n
                   ∧ l !! n = Some x ∧ k !! n = Some y
  | IndexError => getitem l i = IndexError
  | OutOfFuel => False
  end.
Proof.
  intros HF. unfold getitem. rewrite (Forall2_length _ _ _ HF).
  destruct (py_index (length k) i) as [n|] eqn:Hi; [|done].
  pose proof (py_index_lt _ _ _ Hi) as Hn.
  destruct (lookup_lt_is_Some_2 k n Hn) as [y Hy]. rewrite Hy.
  destruct (Forall2_lookup_r _ _ _ _ _ HF Hy) as (x & Hx & HP). rewrite Hx.
  by exists x, n.
Qed.

Lemma repr_mono h h' b B : Heap.repr h b B → h ⊆ h' → Heap.repr h' b B.
Proof.
  intros (ls & Hb & Hrows) Hsub. exists ls. split.
  - by apply (lookup_weaken h h').
  - eapply Forall2_impl; [done|]. intros l row Hl. by apply (lookup_weaken h h').
Qed.

Lemma owns_repr h0 h nb B : Heap.owns h0 h nb B → Heap.repr h nb B.
Proof.
  intros (_ & ls & Hnb & _ & _ & Hrows). exists ls. split; [done|].
  eapply Forall2_impl; [done|]. by intros l row [_ Hl].
Qed.

Lemma bget_refines h b B r c :
  Heap.repr h b B →
  Heap.refines h (Heap.bget b r c) (bget B r c) (λ v v' h', v = v' ∧ h' = h).
Proof.
  intros (ls & Hb & Hrows). unfold Heap.bget, bget.
  pose proof (getitem_Forall2 _ ls B r Hrows) as Hget.
  unfold Heap.refines, mbind, Heap.M_bind, Heap.get_rows. rewrite Hb.
  destruct (getitem B r) as [row| |]; cbn; [|by rewrite Hget|done].
  destruct Hget as (l & n & -> & Hl & _). cbn. unfold Heap.get_cells.
  rewrite Hl. destruct (getitem row c) as [v| |]; cbn; eauto.
Qed.

Lemma fresh_lookup (h : Heap.heap) : h !! fresh (dom h) = None.
Proof. apply not_elem_of_dom, is_fresh. Qed.

Lemma bset_refines h0 h nb B r c v :
  Heap.owns h0 h nb B →
  Heap.refines h (Heap.bset nb r c v) (bset B r c v)
    (λ _ B' h', Heap.owns h0 h' nb B').
Proof.
  intros (Hsub & ls & Hnb & Hnb0 & Hnd & Hrows). unfold Heap.bset, bset.
  pose proof (getitem_Forall2 _ ls B r Hrows) as Hget.
  unfold Heap.refines, mbind, Heap.M_bind, Heap.get_rows. rewrite Hnb.
  destruct (getitem B r) as [row| |]; cbn; [|by rewrite Hget|done].
  destruct Hget as (l & n & -> & [Hl0 Hl] & Hpy & Hln & HBn). cbn.
  unfold Heap.get_cells. rewrite Hl.
  unfold setitem.
  destruct (py_index (length row) c) as [j|]; cbn; [|done].
  rewrite Hpy. exists tt, (<[l := Heap.Row (<[j := v]> row)]> h).
  split; [done|]. split; [by apply insert_subseteq_r|].
  exists ls. split_and!; [|done..|].
  - rewrite lookup_insert_ne; [done|]. intros ->. congruence.
  - apply Forall2_same_length_lookup_2.
    + rewrite length_insert. by eapply Forall2_length.
    + intros i x y Hx Hy. destruct (decide (i = n)) as [->|Hne].
      * rewrite list_lookup_insert_eq in Hy by (by eapply lookup_lt_Some).
        inversion Hy; subst. rewrite Hln in Hx. inversion Hx; subst.
        split; [done|]. apply lookup_insert_eq.
      * rewrite list_lookup_insert_ne in Hy by done.
        destruct (Forall2_lookup_lr _ _ _ _ _ _ Hrows Hx Hy) as [Hx0 Hxh].
        split; [done|]. rewrite lookup_insert_ne; [done|].
        intros ->. apply Hne. symmetry. by eapply NoDup_lookup.
Qed.

Lemma clone_loop (h : Heap.heap) : ∀ ls Bs acc Bacc hi,
  h ⊆ hi →
  Forall2 (λ l row, h !! l = Some (Heap.Row row)) ls Bs →
  NoDup acc →
  Forall2 (λ l row, h !! l = None ∧ hi !! l = Some (Heap.Row row)) acc Bacc →
  ∃ ls' h',
    Heap.for_each ls (λ l ls',
      cells ← Heap.get_cells l; l' ← Heap.alloc (Heap.Row cells);
      mret (ls' ++ [l'])) acc hi = Ok (ls', h')
    ∧ h ⊆ h' ∧ NoDup ls'
    ∧ Forall2 (λ l row, h !! l = None ∧ h' !! l = Some (Heap.Row row))
        ls' (Bacc ++ Bs).
Proof.
  induction ls as [|l ls IH]; intros Bs acc Bacc hi Hsub Hrows Hnd Hacc.
  - inversion Hrows; subst. exists acc, hi. rewrite app_nil_r. by split_and!.
  - inversion Hrows as [|? row ? Bs' Hl Hrows']; subst.
    cbn [Heap.for_each]. unfold mbind at 1, Heap.M_bind at 1.
    unfold mbind at 1, Heap.M_bind at 1. unfold Heap.get_cells at 1.
    rewrite (lookup_weaken h hi l _ Hl Hsub).
    unfold mbind at 1, Heap.M_bind at 1. unfold Heap.alloc at 1. cbn.
    set (l' := fresh (dom hi)).
    assert (Hl' : hi !! l' = None) by apply fresh_lookup.
    assert (Hl0 : h !! l' = None) by (by eapply lookup_weaken_None).
    destruct (IH Bs' (acc ++ [l']) (Bacc ++ [row])
                (<[l' := Heap.Row row]> hi)) as (ls' & h' & E & Hs & Hn & HF).
    + by apply insert_subseteq_r.
    + done.
    + apply NoDup_app. split_and!; [done| |apply NoDup_singleton].
      intros x Hx ->%list_elem_of_singleton.
      apply list_elem_of_lookup in Hx as [i Hi].
      destruct (Forall2_lookup_l _ _ _ _ _ Hacc Hi) as (y & _ & _ & Hy).
      congruence.
    + apply Forall2_app.
      * eapply Forall2_impl; [done|]. intros x y [Hx0 Hx]. split; [done|].
        rewrite lookup_insert_ne; [done|]. intros ->. congruence.
      * repeat constructor; [done|]. apply lookup_insert_eq.
    + exists ls', h'. rewrite <- app_assoc in HF. by split_and!.
Qed.

Lemma clone_refines h b B :
  Heap.repr h b B →
  Heap.refines h (Heap.clone_board b) (Ok (clone_board B))
    (λ nb B' h', Heap.owns h h' nb B').
Proof.
  intros (ls & Hb & Hrows). rewrite clone_board_id.
  destruct (clone_loop h ls B [] [] h) as (ls' & h' & E & Hs & Hn & HF);
    [done|done|constructor|constructor|].
  unfold Heap.refines, Heap.clone_board, mbind, Heap.M_bind, Heap.get_rows.
  rewrite Hb. fold (@mbind Heap.M _). unfold mbind, Heap.M_bind in E.
  rewrite E. unfold Heap.alloc. cbn.
  set (nb := fresh (dom h')).
  assert (Hnb : h' !! nb = None) by apply fresh_lookup.
  exists nb, (<[nb := Heap.Rows ls']> h'). split; [done|].
  split; [apply insert_subseteq_r; [by eapply lookup_weaken_None|done]|].
  exists ls'. split_and!; [apply lookup_insert_eq|by eapply lookup_weaken_None|done|].
  eapply Forall2_impl; [done|]. intros x y [Hx0 Hx]. split; [done|].
  rewrite lookup_insert_ne; [done|]. intros ->. congruence.
Qed.

Lemma refines_bind_l {A B A'} h (m : Heap.M A) (f : A → Heap.M A')
    (p : result B) (Q : A → Heap.heap → Prop) (Q' : A' → B → _ → Prop) :
  (∃ a h', m h = Ok (a, h') ∧ Q a h') →
  (∀ a h', Q a h' → Heap.refines h' (f a) p Q') →
  Heap.refines h (m ≫= f) p Q'.
Proof.
  intros (a & h' & E & HQ) Hf. specialize (Hf a h' HQ).
  unfold Heap.refines, mbind, Heap.M_bind in *. by rewrite E.
Qed.

Lemma refines_bind_tail {A B A'} h (m : Heap.M A) (f : A → A')
    (p : result B) (Q : A → B → _ → Prop) (Q' : A' → B → _ → Prop) :
  Heap.refines h m p Q →
  (∀ a b h', Q a b h' → Q' (f a) b h') →
  Heap.refines h (a ← m; mret (f a)) p Q'.
Proof.
  unfold Heap.refines, mbind, Heap.M_bind. intros Hm HQ.
  destruct p as [b| |]; [|by rewrite Hm..].
  destruct Hm as (a & h' & -> & Ha). exists (f a), h'. split; [done|]. eauto.
Qed.

Lemma cond_bset_refines h0 h nb B (cond : bool) r c v :
  Heap.owns h0 h nb B →
  Heap.refines h (if cond then Heap.bset nb r c v else mret tt)
    (if cond then bset B r c v else Ok B)
    (λ _ B' h', Heap.owns h0 h' nb B').
Proof.
  intros Hown. destruct cond; [by apply bset_refines|by apply refines_ret].
Qed.

(** The kinging lines 104 and 105 (and 146 and 147), on an owned board. *)
Lemma crown_refines h0 h nb B lr lc :
  Heap.owns h0 h nb B →
  Heap.refines h
    (v ← Heap.bget nb lr lc;
     _ ← (if (v =? 1) && (lr =? 0) then Heap.bset nb lr lc 2 else mret tt);
     v ← Heap.bget nb lr lc;
     _ ← (if (v =? -1) && (lr =? ROWS - 1)
          then Heap.bset nb lr lc (-2) else mret tt);
     mret nb)
    (v ← bget B lr lc;
     nb ← (if (v =? 1) && (lr =? 0) then bset B lr lc 2 else Ok B);
     v ← bget nb lr lc;
     if (v =? -1) && (lr =? ROWS - 1) then bset nb lr lc (-2) else Ok nb)
    (λ a B' h', a = nb ∧ Heap.owns h0 h' nb B').
Proof.
  intros Hown.
  eapply refines_bind; [by eapply bget_refines, owns_repr|].
  intros v ? ? [<- ->].
  eapply refines_bind; [by apply cond_bset_refines|].
  intros [] B1 h1 Hown1.
  eapply refines_bind; [by eapply bget_refines, owns_repr|].
  intros v1 ? ? [<- ->].
  eapply (refines_bind_tail _ _ (λ _, nb)); [by apply cond_bset_refines|].
  by intros [] B2 h2 Hown2.
Qed.

Lemma jump_refines h bd B cr cc mr mc lr lc :
  Heap.repr h bd B →
  Heap.refines h (Heap.jump bd cr cc mr mc lr lc) (jump B cr cc mr mc lr lc)
    (λ nb B' h', Heap.owns h h' nb B').
Proof.
  intros Hrepr. unfold Heap.jump, jump. cbv zeta.
  eapply refines_bind_l; [apply (clone_refines h bd B Hrepr)|].
  cbv beta. intros nb h1 Hown.
  eapply refines_bind; [by eapply bget_refines, owns_repr|].
  intros v ? ? [<- ->].
  eapply refines_bind; [by apply bset_refines|]. intros [] B1 h2 Hown1.
  eapply refines_bind; [by apply bset_refines|]. intros [] B2 h3 Hown2.
  eapply refines_bind; [by apply bset_refines|]. intros [] B3 h4 Hown3.
  eapply refines_weaken; [by apply crown_refines|].
  by intros ? B4 h5 [-> Hown4].
Qed.

Lemma can_jump_refines h bd B pc mr mc lr lc :
  Heap.repr h bd B →
  Heap.refines h (Heap.can_jump bd pc mr mc lr lc) (can_jump B pc mr mc lr lc)
    (λ a b h', a = b ∧ h' = h).
Proof.
  intros Hrepr. unfold Heap.can_jump, can_jump.
  destruct (in_bounds mr mc && in_bounds lr lc); [|by apply refines_ret].
  eapply refines_bind; [by apply bget_refines|]. intros m ? ? [<- ->].
  destruct (negb (m =? 0)); [|by apply refines_ret].
  eapply refines_bind; [by apply bget_refines|]. intros m' ? ? [<- ->].
  destruct (m' * pc <? 0); [|by apply refines_ret].
  eapply refines_bind; [by apply bget_refines|]. intros l ? ? [<- ->].
  by apply refines_ret.
Qed.

Lemma owns_sub h0 h nb B : Heap.owns h0 h nb B → h0 ⊆ h.
Proof. by intros [? _]. Qed.

(** The search leaves every object of the store it was started in as it
    was: it writes into clones only. *)
Lemma dfs_refines fuel : ∀ h bd B cr cc path capture_moves,
  Heap.repr h bd B →
  Heap.refines h (Heap.dfs fuel bd cr cc path capture_moves)
    (dfs fuel B cr cc path capture_moves)
    (λ a b h', a = b ∧ h ⊆ h').
Proof.
  induction fuel as [|fuel IH]; intros h bd B cr cc path capture_moves Hrepr;
    [done|].
  cbn [Heap.dfs dfs].
  eapply refines_bind; [by apply bget_refines|]. intros pc ? ? [<- ->].
  eapply refines_bind.
  - apply (refines_for_each _ _ _
             (λ s t hi, s = t ∧ h ⊆ hi)); [|done].
    intros [dr dc] [found_any caps] ? hi _ [<- Hsub].
    assert (Hrepr' : Heap.repr hi bd B) by (by eapply repr_mono).
    eapply refines_bind; [by apply can_jump_refines|]. intros ok ? ? [<- ->].
    destruct ok; [|by apply refines_ret].
    eapply refines_bind; [by apply jump_refines|]. intros nb B' h2 Hown.
    cbv beta in Hown.
    eapply refines_bind; [eapply IH, owns_repr, Hown|].
    intros caps' ? h3 [<- Hsub3]. apply refines_ret. split; [done|].
    etrans; [done|]. etrans; [by eapply owns_sub|done].
  - intros [found_any caps] ? h' [<- Hsub].
    destruct (negb found_any && nonempty path); by apply refines_ret.
Qed.

Lemma pieces_repr h b B : Heap.repr h b B → Heap.pieces b h = pieces B.
Proof.
  intros (ls & Hb & Hrows). unfold Heap.pieces. rewrite Hb. f_equal.
  clear Hb. induction Hrows as [|l row ls B Hl Hrows IH]; [done|].
  cbn [omap list_omap]. rewrite Hl. by rewrite IH.
Qed.

Lemma get_piece_moves_refines h board B r c :
  Heap.repr h board B →
  Heap.refines h (Heap.get_piece_moves board r c) (get_piece_moves B r c)
    (λ a b h', a = b ∧ h ⊆ h').
Proof.
  intros Hrepr. unfold Heap.get_piece_moves, get_piece_moves.
  eapply refines_bind; [by apply bget_refines|]. intros piece ? ? [<- ->].
  destruct (piece =? 0); [by apply refines_ret|].
  eapply refines_bind.
  - apply (refines_for_each _ _ _ (λ s t hi, s = t ∧ hi = h)); [|done].
    intros [dr dc] nm ? ? _ [<- ->].
    destruct (in_bounds (r + dr) (c + dc)); [|by apply refines_ret].
    eapply refines_bind; [by apply bget_refines|]. intros v ? ? [<- ->].
    destruct (v =? 0); by apply refines_ret.
  - intros nm ? ? [<- ->].
    eapply (refines_bind_l _ _ _ _ (λ fuel h', fuel = S (pieces B) ∧ h' = h)).
    { eexists _, _. split; [done|]. by rewrite (pieces_repr h board B). }
    intros ? ? [-> ->].
    eapply refines_bind; [by apply dfs_refines|].
    intros cm ? h' [<- Hsub]. by apply refines_ret.
Qed.

Lemma apply_move_refines h board B move :
  Heap.repr h board B →
  Heap.refines h (Heap.apply_move board move) (apply_move B move)
    (λ nb B' h', Heap.owns h h' nb B').
Proof.
  intros Hrepr. destruct move as [[sr sc] path].
  unfold Heap.apply_move, apply_move. cbv zeta.
  eapply refines_bind_l; [apply (clone_refines h board B Hrepr)|].
  cbv beta. intros nb h1 Hown.
  eapply refines_bind; [by eapply bget_refines, owns_repr|].
  intros piece ? ? [<- ->].
  eapply refines_bind; [by apply bset_refines|]. intros [] B1 h2 Hown1.
  eapply refines_bind.
  - unfold Heap.walk, walk.
    apply (refines_for_each _ _ _
             (λ s t hi, t = (t.1.1, s.1, s.2) ∧ Heap.owns h hi nb t.1.1));
      [|done].
    intros [nr nc] [cr cc] [[B' cr'] cc'] hi _ [[= -> ->] Hown']. cbn in Hown'.
    eapply (refines_bind _ _ _ _ _ (λ _ B'' h', Heap.owns h h' nb B''));
      [by apply cond_bset_refines|].
    intros [] B'' h' Hown''. by apply refines_ret.
  - intros [cr cc] [[B2 cr'] cc'] h3 [[= -> ->] Hown2]. cbn in Hown2.
    eapply refines_bind; [by apply bset_refines|]. intros [] B3 h4 Hown3.
    eapply refines_weaken; [by apply crown_refines|].
    by intros ? B4 h5 [-> Hown4].
Qed.

(** * The properties of the specification *)

Lemma capture_move_owned b player m :
  wf b → capture_move b player m ↔ m ∈ owned (captures_of b) b player squares.
Proof.
  intros Hwf. split.
  - intros (r & c & p & nm & cm & -> & Hb & Hown & E & Hp).
    rewrite get_piece_moves_wf in E by done. inversion E; subst.
    apply elem_of_owned. by rewrite squares_in_bounds.
  - destruct m as [[r c] p].
    intros (Hb%squares_in_bounds & Hown & Hp)%elem_of_owned.
    exists r, c, p, (normals_of b r c), (captures_of b r c).
    split_and!; try done. by apply get_piece_moves_wf.
Qed.

Lemma normal_move_owned b player m :
  wf b → normal_move b player m ↔ m ∈ owned (normals_of b) b player squares.
Proof.
  intros Hwf. split.
  - intros (r & c & p & nm & cm & -> & Hb & Hown & E & Hp).
    rewrite get_piece_moves_wf in E by done. inversion E; subst.
    apply elem_of_owned. by rewrite squares_in_bounds.
  - destruct m as [[r c] p].
    intros (Hb%squares_in_bounds & Hown & Hp)%elem_of_owned.
    exists r, c, p, (normals_of b r c), (captures_of b r c).
    split_and!; try done. by apply get_piece_moves_wf.
Qed.

(** No path is both a capture and a simple move of the same piece. *)
Lemma capture_not_normal b player m :
  wf b → capture_move b player m → ¬ normal_move b player m.
Proof.
  intros Hwf (r & c & p & nm & cm & -> & Hb & _ & E & Hp)
             (r' & c' & p' & nm' & cm' & [= <- <- <-] & _ & _ & E' & Hp').
  rewrite get_piece_moves_wf in E, E' by done.
  inversion E; inversion E'; subst.
  apply captures_of_spec in Hp as (_ & bd' & Hq); [|done..].
  apply normals_of_spec in Hp' as (dr & dc & -> & Hd%directions_unit & _).
  apply chain_first_hop in Hq. lia.
Qed.

(** C1: the side-wide aggregation [get_all_moves] returns a list for every
    well-formed board and side; if some piece of the side has a capture, the
    list holds exactly the capture moves of the side and none of its normal
    moves; if no piece of the side has a capture, the list holds exactly the
    normal moves of the side's pieces. *)
Theorem forced_capture b player :
  wf b →
  ∃ res, get_all_moves b player = Ok res
    ∧ ((∃ m, capture_move b player m) →
         (∀ m, m ∈ res ↔ capture_move b player m)
         ∧ (∀ m, m ∈ res → ¬ normal_move b player m))
    ∧ ((¬ ∃ m, capture_move b player m) →
         ∀ m, m ∈ res ↔ normal_move b player m).
Proof.
  intros Hwf. eexists. split; [by apply get_all_moves_wf|].
  destruct (owned (captures_of b) b player squares) as [|m0 caps] eqn:E;
    cbn [nonempty].
  - split.
    + intros [m Hm]. apply capture_move_owned in Hm; [|done].
      rewrite E in Hm. by apply elem_of_nil in Hm.
    + intros _ m. by rewrite normal_move_owned.
  - split.
    + intros _. split.
      * intros m. rewrite capture_move_owned by done. by rewrite E.
      * intros m Hm. apply capture_not_normal; [done|].
        apply capture_move_owned; [done|]. by rewrite E.
    + intros Hno. exfalso. apply Hno. exists m0.
      apply capture_move_owned; [done|]. rewrite E. left.
Qed.

Lemma forced_capture_witness :
  wf start_board
  ∧ ∃ res, get_all_moves start_board 1 = Ok res
    ∧ ((∃ m, capture_move start_board 1 m) →
         (∀ m, m ∈ res ↔ capture_move start_board 1 m)
         ∧ (∀ m, m ∈ res → ¬ normal_move start_board 1 m))
    ∧ ((¬ ∃ m, capture_move start_board 1 m) →
         ∀ m, m ∈ res ↔ normal_move start_board 1 m).
Proof.
  split; [apply wf_start_board|].
  apply (forced_capture start_board 1), wf_start_board.
Defined.

(** C6: on a well-formed board where one side has a piece and the other
    side has none, [is_terminal] returns true and [winner] returns the
    side that has a piece; with Red for that side, the winner is Red. *)
Theorem last_side_wins b s :
  wf b → has_piece b s → ¬ has_piece b (other s) →
  is_terminal b = Ok true ∧ winner b = Ok (Some s).
Proof.
  intros Hwf Hs Ho. rewrite is_terminal_wf, winner_wf by done. cbv zeta.
  assert (Hred := any_red b). assert (Hblue := any_blue b).
  destruct (existsb (λ '(r, c), 0 <? cell b r c) squares);
    destruct (existsb (λ '(r, c), cell b r c <? 0) squares);
    destruct s; cbn in *; try done; exfalso; naive_solver.
Qed.

Lemma wf_red_alone : wf red_alone.
Proof. split; [done|]. by repeat constructor. Qed.

Lemma red_alone_has_red : has_piece red_alone Red.
Proof. exists 6, 1. by split. Qed.

Lemma red_alone_no_blue : ¬ has_piece red_alone (other Red).
Proof.
  intros Hb%any_blue. vm_compute in Hb. discriminate.
Qed.

Lemma last_side_wins_witness :
  is_terminal red_alone = Ok true ∧ winner red_alone = Ok (Some Red).
Proof.
  apply (last_side_wins red_alone Red);
    [apply wf_red_alone|apply red_alone_has_red|apply red_alone_no_blue].
Defined.

(** C10: on a well-formed board [winner] returns a side exactly when that
    side has a piece and the other side has none; on a board where neither
    side has a piece [is_terminal] returns true and [winner] returns None. *)
Theorem winner_iff_one_side b :
  wf b →
  ∃ w, winner b = Ok w
    ∧ (∀ s, w = Some s ↔ has_piece b s ∧ ¬ has_piece b (other s))
    ∧ (¬ has_piece b Red → ¬ has_piece b Blue →
       is_terminal b = Ok true ∧ w = None).
Proof.
  intros Hwf. rewrite is_terminal_wf, winner_wf by done. cbv zeta.
  eexists. split; [done|].
  rewrite <- any_red, <- any_blue.
  destruct (existsb (λ '(r, c), 0 <? cell b r c) squares) eqn:Hred;
    destruct (existsb (λ '(r, c), cell b r c <? 0) squares) eqn:Hblue; cbn.
  - split; [|done]. intros []; cbn; rewrite <- ?any_red, <- ?any_blue;
      rewrite ?Hred, ?Hblue; naive_solver.
  - split; [|done]. intros []; cbn; rewrite <- ?any_red, <- ?any_blue;
      rewrite ?Hred, ?Hblue; naive_solver.
  - split; [|done]. intros []; cbn; rewrite <- ?any_red, <- ?any_blue;
      rewrite ?Hred, ?Hblue; naive_solver.
  - split; [|done]. intros []; cbn; rewrite <- ?any_red, <- ?any_blue;
      rewrite ?Hred, ?Hblue; naive_solver.
Qed.

Lemma wf_empty_board : wf empty_board.
Proof. split; [done|]. by repeat constructor. Qed.

Lemma winner_iff_one_side_witness :
  ∃ w, winner empty_board = Ok w
    ∧ (∀ s, w = Some s ↔ has_piece empty_board s ∧ ¬ has_piece empty_board (other s))
    ∧ (¬ has_piece empty_board Red → ¬ has_piece empty_board Blue →
       is_terminal empty_board = Ok true ∧ w = None).
Proof. apply (winner_iff_one_side empty_board), wf_empty_board. Defined.

Lemma man_scan_dirs piece dr dc :
  Z.abs piece ≠ 2 → (dr, dc) ∈ scan_dirs piece → dr = forward piece.
Proof.
  unfold scan_dirs, forward, up_dirs, down_dirs. intros Hman.
  assert ((Z.abs piece =? 2) = false) as -> by lia.
  destruct (0 <? piece); rewrite !elem_of_cons, elem_of_nil;
    intros [[=]|[[=]|[]]]; lia.
Qed.

Lemma chain_forward bd cr cc q bd' :
  max_chain bd cr cc q bd' → wf bd → in_bounds cr cc = true →
  Z.abs (cell bd cr cc) ≠ 2 →
  forward_until_crowned (cell bd cr cc) cr q.
Proof.
  induction 1 as [|bd cr cc lr lc nb q bd' Hj Hq IH]; intros Hwf Hc Hman; [done|].
  destruct (legal_jump_inv _ _ _ _ _ _ Hwf Hc Hj) as (Hl & Hwfn & _).
  pose proof (cell_landing _ _ _ _ _ _ Hwf Hc Hj) as Hland.
  cbn [forward_until_crowned]. split.
  - destruct Hj as [dr dc Hin _ _ _ _].
    rewrite (man_scan_dirs _ _ _ Hman Hin). lia.
  - destruct (decide (crown (cell bd cr cc) lr = cell bd cr cc)) as [E|E];
      [|by left].
    right. rewrite E in Hland. rewrite <- Hland. apply IH; [done..|].
    by rewrite Hland.
Qed.

(** How far the search keeps a man to its forward diagonals: for a piece
    that is not a king, every capture path that [get_piece_moves] returns
    goes forward, two rows per hop, up to and including the hop on which
    the piece lands on its far row (row 0 for the man 1, row 7 for the man
    -1).  Backward hops of a man come only after the scratch board has
    crowned it there. *)
Theorem man_forward_until_crowned b r c nm cm p :
  wf b → in_bounds r c = true → Z.abs (cell b r c) ≠ 2 →
  get_piece_moves b r c = Ok (nm, cm) → p ∈ cm →
  forward_until_crowned (cell b r c) r p.
Proof.
  intros Hwf Hb Hman E Hp. rewrite get_piece_moves_wf in E by done.
  inversion E; subst.
  apply captures_of_spec in Hp as (_ & bd' & Hq); [|done..].
  by eapply chain_forward.
Qed.

Lemma wf_red_man_board : wf red_man_board.
Proof. split; [done|]. by repeat constructor. Qed.

Lemma red_man_moves :
  get_piece_moves red_man_board 2 1 = Ok ([[(1, 0)]], [[(0, 3); (2, 5)]]).
Proof. reflexivity. Qed.

Lemma man_forward_until_crowned_witness :
  forward_until_crowned (cell red_man_board 2 1) 2 [(0, 3); (2, 5)].
Proof.
  apply (man_forward_until_crowned red_man_board 2 1
           [[(1, 0)]] [[(0, 3); (2, 5)]]).
  - apply wf_red_man_board.
  - reflexivity.
  - vm_compute. discriminate.
  - reflexivity.
  - left.
Defined.

(** C2: the code breaks the claim.  On [red_man_board] the Red man on
    (2, 1) is given the capture path to (0, 3) and back to (2, 5), whose
    second hop is backward: [dfs] crowns the man on its scratch board when
    it lands on (0, 3) (lines 104 and 105) and takes the directions of the
    next hop from the scratch board (line 91).  [apply_move], which crowns
    on the last square of the path only (lines 146 and 147), puts the piece
    down on (2, 5) as the man it was: a man has captured backward. *)
Lemma man_backward_hop :
  ∃ nm cm p b',
    get_piece_moves red_man_board 2 1 = Ok (nm, cm)
    ∧ cell red_man_board 2 1 = 1
    ∧ p ∈ cm
    ∧ ¬ all_forward (cell red_man_board 2 1) 2 p
    ∧ apply_move red_man_board (2, 1, p) = Ok b'
    ∧ final 2 1 p = (2, 5)
    ∧ cell b' 2 5 = 1.
Proof.
  exists [[(1, 0)]], [[(0, 3); (2, 5)]], [(0, 3); (2, 5)]. eexists.
  split_and!; [reflexivity|reflexivity|left| |reflexivity..].
  intros (_ & Hback & _). vm_compute in Hback. discriminate.
Qed.

Lemma crown_changes piece fr :
  crown piece fr ≠ piece ↔ (piece = 1 ∧ fr = 0) ∨ (piece = -1 ∧ fr = ROWS - 1).
Proof. unfold crown, ROWS. repeat case_match; lia. Qed.

(** Where the two crownings of the code part: [apply_move] puts the moved
    piece on the final landing square and crowns it there if and only if it
    is the man 1 and that square is on row 0, or the man -1 and that square
    is on row 7; every other square of the result is empty or as it was, so
    nothing is crowned on an intermediate square of the applied board.  The
    scratch board that [dfs] builds for a jump crowns the piece on the
    landing square of that jump by the same test, whether or not the chain
    goes on. *)
Theorem promotion_on_landing b sr sc path bd cr cc dr dc :
  wf b → in_bounds sr sc = true → on_board path → path ≠ [] →
  wf bd → in_bounds cr cc = true → in_bounds (cr + dr) (cc + dc) = true →
  in_bounds (cr + 2 * dr) (cc + 2 * dc) = true → dr ≠ 0 →
  (∃ b', apply_move b (sr, sc, path) = Ok b'
     ∧ let piece := cell b sr sc in
       let '(fr, fc) := final sr sc path in
       cell b' fr fc = crown piece fr
       ∧ (cell b' fr fc ≠ piece ↔
            (piece = 1 ∧ fr = 0) ∨ (piece = -1 ∧ fr = ROWS - 1))
       ∧ ∀ r c, in_bounds r c = true → (r, c) ≠ (fr, fc) →
           cell b' r c = 0 ∨ cell b' r c = cell b r c)
  ∧ (∃ nb, jump bd cr cc (cr + dr) (cc + dc) (cr + 2 * dr) (cc + 2 * dc) = Ok nb
       ∧ cell nb (cr + 2 * dr) (cc + 2 * dc)
         = crown (cell bd cr cc) (cr + 2 * dr)).
Proof.
  intros Hwf Hs Hp Hne Hwfd Hc Hm Hl Hd. split.
  - eexists. split; [by apply apply_move_wf|]. cbv zeta.
    destruct (final sr sc path) as [fr fc] eqn:Hfin.
    pose proof (final_in_bounds path sr sc Hs Hp) as Hf.
    rewrite Hfin in Hf. cbn [fst snd] in Hf.
    assert (Hcell : cell (apply_move_p b sr sc path) fr fc
                    = crown (cell b sr sc) fr).
    { rewrite cell_apply_move_p by done. rewrite Hfin. by rewrite decide_True. }
    split_and!; [done|by rewrite Hcell, crown_changes|].
    intros r c Hrc Hnf. rewrite cell_apply_move_p by done. rewrite Hfin.
    rewrite decide_False by done. case_decide; auto.
  - eexists. split; [apply jump_wf; try done; inb; intros [=]; lia|].
    rewrite cell_jump_p by done. by rewrite decide_True.
Qed.

Lemma wf_blue_man_board : wf blue_man_board.
Proof. split; [done|]. by repeat constructor. Qed.

Lemma promotion_on_landing_witness :
  (∃ b', apply_move blue_man_board (5, 2, [(7, 4); (5, 6)]) = Ok b'
     ∧ let piece := cell blue_man_board 5 2 in
       let '(fr, fc) := final 5 2 [(7, 4); (5, 6)] in
       cell b' fr fc = crown piece fr
       ∧ (cell b' fr fc ≠ piece ↔
            (piece = 1 ∧ fr = 0) ∨ (piece = -1 ∧ fr = ROWS - 1))
       ∧ ∀ r c, in_bounds r c = true → (r, c) ≠ (fr, fc) →
           cell b' r c = 0 ∨ cell b' r c = cell blue_man_board r c)
  ∧ (∃ nb, jump blue_man_board 5 2 (5 + 1) (2 + 1) (5 + 2 * 1) (2 + 2 * 1) = Ok nb
       ∧ cell nb (5 + 2 * 1) (2 + 2 * 1)
         = crown (cell blue_man_board 5 2) (5 + 2 * 1)).
Proof.
  apply (promotion_on_landing blue_man_board 5 2 [(7, 4); (5, 6)]
           blue_man_board 5 2 1 1).
  - apply wf_blue_man_board.
  - reflexivity.
  - repeat constructor.
  - discriminate.
  - apply wf_blue_man_board.
  - reflexivity.
  - reflexivity.
  - reflexivity.
  - discriminate.
Defined.

(** C3: the code breaks the last part of the claim.  On [blue_man_board]
    the Blue man on (5, 2) is given the capture path to (7, 4) and on to
    (5, 6).  The scratch board that [dfs] builds for the first jump holds a
    king on (7, 4) (lines 103 to 105), which is not the final landing
    square of the path: the search has promoted on an intermediate square,
    and the second hop, backward, exists only because of it.  [apply_move]
    crowns on the final square only and leaves a man on (5, 6): generator
    and applicator disagree on the piece that makes this move. *)
Lemma scratch_board_crowns_mid_chain :
  ∃ nb b',
    get_piece_moves blue_man_board 5 2 = Ok ([[(6, 1)]], [[(7, 4); (5, 6)]])
    ∧ jump blue_man_board 5 2 6 3 7 4 = Ok nb
    ∧ cell blue_man_board 5 2 = -1
    ∧ cell nb 7 4 = -2
    ∧ final 5 2 [(7, 4); (5, 6)] ≠ (7, 4)
    ∧ apply_move blue_man_board (5, 2, [(7, 4); (5, 6)]) = Ok b'
    ∧ cell b' 5 6 = -1.
Proof.
  eexists _, _. split_and!; [reflexivity..|by vm_compute|reflexivity|reflexivity].
Qed.

(** C5, as the code has it: for a well-formed board and a move on the
    board with a non-empty path, [apply_move] returns a board on which the
    moved piece, crowned if it is a man landing on its far row, sits on the
    last square of the path; the origin is empty unless the path ends on it;
    the midpoint of every hop that spans two rows or two columns is empty
    unless it is the last square; and every other square is as it was. *)
Theorem apply_move_cells b sr sc path :
  wf b → in_bounds sr sc = true → on_board path → path ≠ [] →
  ∃ b', apply_move b (sr, sc, path) = Ok b'
    ∧ let '(fr, fc) := final sr sc path in
      cell b' fr fc = crown (cell b sr sc) fr
      ∧ ((sr, sc) ≠ (fr, fc) → cell b' sr sc = 0)
      ∧ (∀ mr mc, (mr, mc) ∈ mids sr sc path → (mr, mc) ≠ (fr, fc) →
           cell b' mr mc = 0)
      ∧ (∀ r c, in_bounds r c = true → (r, c) ≠ (fr, fc) →
           (r, c) ≠ (sr, sc) → (r, c) ∉ mids sr sc path →
           cell b' r c = cell b r c).
Proof.
  intros Hwf Hs Hp Hne. eexists. split; [by apply apply_move_wf|].
  destruct (final sr sc path) as [fr fc] eqn:Hfin.
  split_and!.
  - pose proof (final_in_bounds path sr sc Hs Hp) as Hf.
    rewrite Hfin in Hf. rewrite cell_apply_move_p by done.
    rewrite Hfin. by rewrite decide_True.
  - intros Hsf. rewrite cell_apply_move_p by done. rewrite Hfin.
    rewrite decide_False by done. rewrite decide_True; [done|by left].
  - intros mr mc Hm Hmf.
    assert (Hmb : in_bounds mr mc = true).
    { pose proof (mids_on_board path sr sc Hs Hp) as Hon.
      by apply (proj1 (Forall_forall _ _) Hon (mr, mc)). }
    rewrite cell_apply_move_p by done. rewrite Hfin.
    rewrite decide_False by done. rewrite decide_True; [done|by right].
  - intros r c Hrc Hf Ho Hm. rewrite cell_apply_move_p by done. rewrite Hfin.
    rewrite decide_False by done. rewrite decide_False; [done|]. by intros [|].
Qed.

Lemma wf_king_cycle_board : wf king_cycle_board.
Proof. split; [done|]. by repeat constructor. Qed.

Lemma apply_move_cells_witness :
  ∃ b', apply_move king_cycle_board (1, 2, [(3, 0); (5, 2)]) = Ok b'
    ∧ let '(fr, fc) := final 1 2 [(3, 0); (5, 2)] in
      cell b' fr fc = crown (cell king_cycle_board 1 2) fr
      ∧ ((1, 2) ≠ (fr, fc) → cell b' 1 2 = 0)
      ∧ (∀ mr mc, (mr, mc) ∈ mids 1 2 [(3, 0); (5, 2)] → (mr, mc) ≠ (fr, fc) →
           cell b' mr mc = 0)
      ∧ (∀ r c, in_bounds r c = true → (r, c) ≠ (fr, fc) →
           (r, c) ≠ (1, 2) → (r, c) ∉ mids 1 2 [(3, 0); (5, 2)] →
           cell b' r c = cell king_cycle_board r c).
Proof.
  apply (apply_move_cells king_cycle_board 1 2 [(3, 0); (5, 2)]).
  - apply wf_king_cycle_board.
  - reflexivity.
  - repeat constructor.
  - discriminate.
Defined.

(** C5 as stated fails: the king on (1, 2) has a capture path around the
    four Blue men that ends on (1, 2) again, and on the board that
    [apply_move] returns for it the origin square holds the king. *)
Lemma origin_not_emptied :
  ∃ nm cm p b',
    get_piece_moves king_cycle_board 1 2 = Ok (nm, cm)
    ∧ p ∈ cm ∧ p ≠ []
    ∧ apply_move king_cycle_board (1, 2, p) = Ok b'
    ∧ cell b' 1 2 = 2.
Proof.
  exists [[(0, 1)]; [(0, 3)]],
         [[(3, 0); (5, 2); (3, 4); (1, 2)]; [(3, 4); (5, 2); (3, 0); (1, 2)]],
         [(3, 0); (5, 2); (3, 4); (1, 2)].
  eexists. split_and!; [reflexivity|left|discriminate|reflexivity|reflexivity].
Qed.

(** C4: for every well-formed board and every occupied square,
    [get_piece_moves] returns, as its capture list, exactly the non-empty
    maximal capture chains from that square, each of them once: a path is in
    the list if and only if it is not empty and its jumps follow one
    another, each legal on the scratch board left by the one before, until
    no jump is available.  Chains of any length are returned, not only the
    longest. *)
Theorem captures_are_maximal_chains b r c :
  wf b → in_bounds r c = true → cell b r c ≠ 0 →
  ∃ nm cm, get_piece_moves b r c = Ok (nm, cm)
    ∧ (∀ p, p ∈ cm ↔ p ≠ [] ∧ ∃ bd', max_chain b r c p bd')
    ∧ NoDup cm.
Proof.
  intros Hwf Hb _. destruct (get_piece_moves_spec b r c Hwf Hb) as (cm & E & M).
  by exists (normals_of b r c), cm.
Qed.

Lemma wf_two_chains_board : wf two_chains_board.
Proof. split; [done|]. by repeat constructor. Qed.

Lemma two_chains_moves :
  get_piece_moves two_chains_board 3 3
  = Ok ([[(2, 2)]; [(2, 4)]], [[(5, 1)]; [(5, 5); (7, 7)]]).
Proof. reflexivity. Qed.

Lemma captures_are_maximal_chains_witness :
  ∃ nm cm, get_piece_moves two_chains_board 3 3 = Ok (nm, cm)
    ∧ (∀ p, p ∈ cm ↔ p ≠ [] ∧ ∃ bd', max_chain two_chains_board 3 3 p bd')
    ∧ NoDup cm.
Proof.
  apply (captures_are_maximal_chains two_chains_board 3 3).
  - apply wf_two_chains_board.
  - reflexivity.
  - by vm_compute.
Defined.

(** C7: in every state that a game can reach, a click on the end of an
    offered path, single step or multi-jump chain, applies that path and
    completes the turn: the board is the one [apply_move] returns, the side
    to move changes and nothing is left selected.  The key U pressed then
    restores exactly the board and the side to move of before the turn, and
    the undo stack of before the turn. *)
Theorem undo_restores_turn s mx my sr sc p :
  Session.reachable s →
  0 ≤ mx < BOARD_SIZE → 0 ≤ my < BOARD_SIZE →
  Session.selected s = Some (sr, sc) →
  Session.find_path (Session.legal_paths_for_selected s)
    (my `div` SQ) (mx `div` SQ) = Ok (Some p) →
  ∃ b' s',
    apply_move (Session.board s) (sr, sc, p) = Ok b'
    ∧ Session.handle s (Session.Click mx my) = Ok s'
    ∧ Session.board s' = b'
    ∧ Session.turn s' = Session.turn s * -1
    ∧ Session.selected s' = None
    ∧ Session.handle s' Session.KeyU
      = Ok (Session.State (Session.board s) (Session.turn s) None []
              (Session.undo_stack s)).
Proof.
  intros Hinv%reachable_inv Hx Hy Hs Hfind.
  pose proof (click_move s mx my sr sc p Hinv Hx Hy Hs Hfind) as Hclick.
  assert (Hall : Forall (λ p : Path, p ≠ [])
                   (Session.legal_paths_for_selected s)).
  { apply Forall_forall. intros q Hq.
    by destruct (offered_paths s sr sc q Hinv Hs Hq). }
  destruct (find_path_spec _ (my `div` SQ) (mx `div` SQ) Hall) as (o & E & Ho).
  rewrite Hfind in E. inversion E; subst o.
  destruct (Ho p eq_refl) as (Hin & _ & _).
  destruct (offered_paths s sr sc p Hinv Hs Hin) as (_ & Hon).
  destruct Hinv as [Hwf _ Hsel]. destruct (Hsel sr sc Hs) as (Hb & _).
  eexists _, _. split_and!; [by apply apply_move_wf|exact Hclick|done..|].
  cbn [Session.handle]. unfold Session.undo. cbn [Session.undo_stack].
  by rewrite pop_snoc.
Qed.

Lemma first_selection_reachable : Session.reachable first_selection.
Proof.
  apply (Session.reachable_step (Session.State start_board 1 None [] [])
           (Session.Click 50 550)).
  - by apply Session.reachable_start.
  - reflexivity.
Defined.

Lemma undo_restores_turn_witness :
  ∃ b' s',
    apply_move (Session.board first_selection) (5, 0, [(4, 1)]) = Ok b'
    ∧ Session.handle first_selection (Session.Click 150 450) = Ok s'
    ∧ Session.board s' = b'
    ∧ Session.turn s' = Session.turn first_selection * -1
    ∧ Session.selected s' = None
    ∧ Session.handle s' Session.KeyU
      = Ok (Session.State (Session.board first_selection)
              (Session.turn first_selection) None []
              (Session.undo_stack first_selection)).
Proof.
  apply (undo_restores_turn first_selection 150 450 5 0 [(4, 1)]).
  - apply first_selection_reachable.
  - unfold BOARD_SIZE. lia.
  - unfold BOARD_SIZE. lia.
  - reflexivity.
  - reflexivity.
Defined.

Lemma dark_only_start_board : dark_only start_board.
Proof.
  intros r c Hb Hm. inb.
  assert (Hr : r = 0 ∨ r = 1 ∨ r = 2 ∨ r = 3 ∨ r = 4 ∨ r = 5 ∨ r = 6 ∨ r = 7)
    by lia.
  assert (Hc : c = 0 ∨ c = 1 ∨ c = 2 ∨ c = 3 ∨ c = 4 ∨ c = 5 ∨ c = 6 ∨ c = 7)
    by lia.
  destruct Hr as [->|[->|[->|[->|[->|[->|[->| ->]]]]]]];
    destruct Hc as [->|[->|[->|[->|[->|[->|[->| ->]]]]]]];
    first [reflexivity | vm_compute in Hm; discriminate].
Qed.

(** The walk along an offered path ends on a square of the colour of the
    origin. *)
Lemma offered_final_parity b r c p :
  wf b → in_bounds r c = true →
  p ∈ normals_of b r c ∨ p ∈ captures_of b r c →
  cell b r c ≠ 0
  ∧ ((final r c p).1 + (final r c p).2) `mod` 2 = (r + c) `mod` 2.
Proof.
  intros Hwf Hb [Hp|Hp].
  - apply normals_of_spec in Hp as (dr & dc & -> & Hd%directions_unit & _ & _ & Hnz).
    split; [done|]. cbn [final fst snd].
    replace (r + dr + (c + dc)) with (r + c + (dr + dc)) by lia.
    destruct Hd as [[-> | ->] [-> | ->]]; cbn [Z.add Z.opp Pos.add Z.pos_sub];
      rewrite ?Z.add_0_r; try done.
    + by apply (Z.mod_add (r + c) 1 2).
    + by apply (Z.mod_add (r + c) (-1) 2).
  - apply captures_of_spec in Hp as (Hne & bd' & Hq); [|done..]. split.
    + intros Hz. inversion Hq as [|? ? ? ? ? ? ? ? Hj]; subst; [done|].
      by eapply no_jump_empty.
    + by eapply chain_parity.
Qed.

(** C9: the board that [initial_board] builds is well formed and has pieces
    on dark squares only; and for every well-formed board with pieces on
    dark squares only and every path that [get_piece_moves] returns for a
    square of it, simple move or capture, [apply_move] returns a
    well-formed board with pieces on dark squares only. *)
Theorem dark_squares_only b r c nm cm p :
  wf b → dark_only b → in_bounds r c = true →
  get_piece_moves b r c = Ok (nm, cm) → p ∈ nm ∨ p ∈ cm →
  (∃ b0, initial_board = Ok b0 ∧ wf b0 ∧ dark_only b0)
  ∧ ∃ b', apply_move b (r, c, p) = Ok b' ∧ wf b' ∧ dark_only b'.
Proof.
  intros Hwf Hdark Hb E Hp. split.
  { exists start_board.
    split_and!; [done|apply wf_start_board|apply dark_only_start_board]. }
  rewrite get_piece_moves_wf in E by done. inversion E; subst.
  assert (Hon : on_board p).
  { destruct Hp as [Hp|Hp]; [by eapply normals_on_board|].
    by eapply captures_on_board. }
  destruct (offered_final_parity b r c p Hwf Hb Hp) as [Hnz Hpar].
  eexists. split_and!; [by apply apply_move_wf|by apply wf_apply_move_p|].
  intros r' c' Hb' Heven. rewrite cell_apply_move_p by done.
  assert (Hodd : (r + c) `mod` 2 ≠ 0).
  { intros Hev. apply Hnz. by apply Hdark. }
  case_decide as Hfin.
  - exfalso. rewrite <- Hfin in Hpar. cbn [fst snd] in Hpar. congruence.
  - case_decide; [done|]. by apply Hdark.
Qed.

Lemma dark_squares_only_witness :
  (∃ b0, initial_board = Ok b0 ∧ wf b0 ∧ dark_only b0)
  ∧ ∃ b', apply_move start_board (5, 0, [(4, 1)]) = Ok b' ∧ wf b' ∧ dark_only b'.
Proof.
  apply (dark_squares_only start_board 5 0 [[(4, 1)]] [] [(4, 1)]).
  - apply wf_start_board.
  - apply dark_only_start_board.
  - reflexivity.
  - reflexivity.
  - left. left.
Defined.

(** C8: let the store [h] hold a well-formed board of value [B] at the
    reference [board].  Then [get_piece_moves], run on the store, returns
    what it returns on the value [B] and ends in a store [h'] in which every
    object of [h] is as it was, so that [board] still has the value [B]: the
    search wrote into clones only.  And [apply_move], run on the store,
    returns a reference [nb] that [h] did not use, to a board of the value
    that [apply_move] returns on [B], again in a store in which every object
    of [h] is as it was. *)
Theorem boards_not_mutated h board B r c sr sc path :
  Heap.repr h board B → wf B → in_bounds r c = true →
  in_bounds sr sc = true → on_board path →
  (∃ res h',
     Heap.get_piece_moves board r c h = Ok (res, h')
     ∧ get_piece_moves B r c = Ok res
     ∧ h ⊆ h' ∧ Heap.repr h' board B)
  ∧ (∃ nb B' h',
       Heap.apply_move board (sr, sc, path) h = Ok (nb, h')
       ∧ apply_move B (sr, sc, path) = Ok B'
       ∧ h ⊆ h' ∧ Heap.repr h' board B
       ∧ h !! nb = None ∧ Heap.repr h' nb B').
Proof.
  intros Hrepr Hwf Hb Hs Hp. split.
  - pose proof (get_piece_moves_refines h board B r c Hrepr) as Href.
    rewrite get_piece_moves_wf in Href |- * by done.
    destruct Href as (res & h' & E & <- & Hsub).
    exists res, h'. split_and!; [done..|]. by eapply repr_mono.
  - pose proof (apply_move_refines h board B (sr, sc, path) Hrepr) as Href.
    rewrite apply_move_wf in Href |- * by done.
    destruct Href as (nb & h' & E & Hown).
    exists nb, (apply_move_p B sr sc path), h'.
    pose proof (owns_repr _ _ _ _ Hown) as Hnb.
    destruct Hown as (Hsub & ls & _ & Hfresh & _).
    split_and!; [done..| |done|done]. by eapply repr_mono.
Qed.

Lemma start_heap_repr : Heap.repr start_heap 1%positive start_board.
Proof.
  exists start_rows. split; [reflexivity|].
  repeat constructor.
Qed.

Lemma boards_not_mutated_witness :
  (∃ res h',
     Heap.get_piece_moves 1%positive 5 0 start_heap = Ok (res, h')
     ∧ get_piece_moves start_board 5 0 = Ok res
     ∧ start_heap ⊆ h' ∧ Heap.repr h' 1%positive start_board)
  ∧ (∃ nb B' h',
       Heap.apply_move 1%positive (5, 0, [(4, 1)]) start_heap = Ok (nb, h')
       ∧ apply_move start_board (5, 0, [(4, 1)]) = Ok B'
       ∧ start_heap ⊆ h' ∧ Heap.repr h' 1%positive start_board
       ∧ start_heap !! nb = None ∧ Heap.repr h' nb B').
Proof.
  apply (boards_not_mutated start_heap 1%positive start_board 5 0 5 0 [(4, 1)]).
  - apply start_heap_repr.
  - apply wf_start_board.
  - reflexivity.
  - reflexivity.
  - repeat constructor.
Defined.

(** * Further properties of the code *)

(** ** Simple moves *)

Lemma directions_spec piece dr dc :
  (dr, dc) ∈ directions piece ↔
  (dc = 1 ∨ dc = -1)
  ∧ (if Z.abs piece =? 2 then dr = 1 ∨ dr = -1 else dr = forward piece).
Proof.
  unfold directions, forward, all_dirs, up_dirs, down_dirs.
  destruct (Z.abs piece =? 2); [|destruct (0 <? piece)]; simpl;
    rewrite !elem_of_cons, elem_of_nil; split.
  - intros [[=]|[[=]|[[=]|[[=]|[]]]]]; lia.
  - intros [[-> | ->] [-> | ->]]; tauto.
  - intros [[=]|[[=]|[]]]; lia.
  - intros [[-> | ->] ->]; tauto.
  - intros [[=]|[[=]|[]]]; lia.
  - intros [[-> | ->] ->]; tauto.
Qed.

(** X1: for an occupied square of a well-formed board, the normal moves
    that [get_piece_moves] returns are exactly the single steps to an empty
    square of the board that is diagonally adjacent, one row forward for a
    man (toward row 0 for a positive piece, toward the last row for a
    negative one) and in any of the four diagonals for a king. *)
Theorem normal_moves_exact b r c :
  wf b → in_bounds r c = true → cell b r c ≠ 0 →
  ∃ nm cm, get_piece_moves b r c = Ok (nm, cm)
    ∧ ∀ p, p ∈ nm ↔
        ∃ dr dc, p = [(r + dr, c + dc)]
          ∧ (dc = 1 ∨ dc = -1)
          ∧ (if Z.abs (cell b r c) =? 2 then dr = 1 ∨ dr = -1
             else dr = forward (cell b r c))
          ∧ in_bounds (r + dr) (c + dc) = true
          ∧ cell b (r + dr) (c + dc) = 0.
Proof.
  intros Hwf Hb Hnz. eexists _, _. split; [by apply get_piece_moves_wf|].
  intros p. unfold normals_of.
  assert ((cell b r c =? 0) = false) as -> by lia.
  rewrite list_elem_of_omap. split.
  - intros ([dr dc] & Hd%directions_spec & Hstep). unfold step_of in Hstep.
    destruct (in_bounds (r + dr) (c + dc)) eqn:Hin; [|done].
    destruct (cell b (r + dr) (c + dc) =? 0) eqn:Hz; [|done].
    inversion Hstep; subst. exists dr, dc. split_and!; try tauto. lia.
  - intros (dr & dc & -> & Hc & Hr & Hin & Hz). exists (dr, dc). split.
    + by apply directions_spec.
    + unfold step_of. rewrite Hin, Hz. done.
Qed.

Lemma normal_moves_exact_witness :
  ∃ nm cm, get_piece_moves start_board 5 2 = Ok (nm, cm)
    ∧ ∀ p, p ∈ nm ↔
        ∃ dr dc, p = [(5 + dr, 2 + dc)]
          ∧ (dc = 1 ∨ dc = -1)
          ∧ (if Z.abs (cell start_board 5 2) =? 2 then dr = 1 ∨ dr = -1
             else dr = forward (cell start_board 5 2))
          ∧ in_bounds (5 + dr) (2 + dc) = true
          ∧ cell start_board (5 + dr) (2 + dc) = 0.
Proof.
  apply (normal_moves_exact start_board 5 2).
  - apply wf_start_board.
  - reflexivity.
  - by vm_compute.
Defined.

(** ** The pieces that a capture path jumps *)

Lemma crown_sign x p lr : x * crown p lr < 0 ↔ x * p < 0.
Proof. unfold crown. repeat case_match; lia. Qed.

Lemma crown_pos p lr : 0 < crown p lr ↔ 0 < p.
Proof. unfold crown. repeat case_match; lia. Qed.

Lemma chain_mids bd cr cc q bd' :
  max_chain bd cr cc q bd' → wf bd → in_bounds cr cc = true →
  diagonal_jumps cr cc q
  ∧ length (mids cr cc q) = length q
  ∧ NoDup (mids cr cc q)
  ∧ ∀ mr mc, (mr, mc) ∈ mids cr cc q →
      in_bounds mr mc = true ∧ (mr, mc) ≠ (cr, cc)
      ∧ cell bd mr mc * cell bd cr cc < 0.
Proof.
  induction 1 as [bd cr cc Hno|bd cr cc lr lc nb q bd' Hj Hq IH]; intros Hwf Hc.
  - split_and!; [done|done|constructor|]. by intros ? ? ?%elem_of_nil.
  - destruct (legal_jump_inv _ _ _ _ _ _ Hwf Hc Hj) as (Hl & Hwfn & _).
    destruct (IH Hwfn Hl) as (Hdiag & Hlen & Hnd & Hm).
    pose proof (cell_landing _ _ _ _ _ _ Hwf Hc Hj) as Hland.
    destruct Hj as [dr dc Hin Hmb Hlb Hopp Hl0].
    pose proof (scan_dirs_unit _ _ _ Hin) as Hu.
    destruct (jump_geometry cr cc dr dc Hu) as [Hij Hmid].
    assert (Hrest : ∀ mr mc, (mr, mc) ∈ mids (cr + 2 * dr) (cc + 2 * dc) q →
              in_bounds mr mc = true ∧ (mr, mc) ≠ (cr, cc)
              ∧ (mr, mc) ≠ (cr + dr, cc + dc)
              ∧ cell bd mr mc * cell bd cr cc < 0).
    { intros mr mc Hmm. destruct (Hm mr mc Hmm) as (Hb & Hne & Hopp').
      rewrite Hland in Hopp'. apply crown_sign in Hopp'.
      rewrite cell_jump_p in Hopp' by (done || lia).
      rewrite decide_False in Hopp' by done.
      case_decide as Hcase; [lia|].
      split_and!; [done|tauto|tauto|done]. }
    cbn [mids diagonal_jumps]. rewrite Hij, Hmid. cbn [app length].
    split_and!.
    + lia.
    + lia.
    + done.
    + by rewrite Hlen.
    + apply NoDup_cons. split; [|done].
      intros Hmm. destruct (Hrest _ _ Hmm) as (_ & _ & Hne & _). done.
    + intros mr mc [[= -> ->]|Hmm]%elem_of_cons.
      * split_and!; [done|intros [=]; lia|done].
      * destruct (Hrest _ _ Hmm) as (? & ? & _ & ?). done.
Qed.

(** X2: on a well-formed board, every capture path returned by
    [get_piece_moves] stays on the board and consists of diagonal jumps of
    two rows and two columns; the squares it jumps, one per hop and no
    square twice, each hold on the given board a piece of the side opposite
    to the moving piece. *)
Theorem captured_pieces b r c nm cm p :
  wf b → in_bounds r c = true →
  get_piece_moves b r c = Ok (nm, cm) → p ∈ cm →
  on_board p
  ∧ diagonal_jumps r c p
  ∧ length (mids r c p) = length p
  ∧ NoDup (mids r c p)
  ∧ ∀ mr mc, (mr, mc) ∈ mids r c p →
      in_bounds mr mc = true ∧ cell b mr mc * cell b r c < 0.
Proof.
  intros Hwf Hb E Hp. rewrite get_piece_moves_wf in E by done.
  inversion E; subst.
  apply captures_of_spec in Hp as (_ & bd' & Hq); [|done..].
  destruct (chain_clear _ _ _ _ _ Hq Hwf Hb) as (_ & Hon & _).
  destruct (chain_mids _ _ _ _ _ Hq Hwf Hb) as (Hd & Hlen & Hnd & Hm).
  split_and!; try done. intros mr mc Hmm. by destruct (Hm mr mc Hmm) as (? & _ & ?).
Qed.

Lemma captured_pieces_witness :
  on_board [(3, 0); (5, 2); (3, 4); (1, 2)]
  ∧ diagonal_jumps 1 2 [(3, 0); (5, 2); (3, 4); (1, 2)]
  ∧ length (mids 1 2 [(3, 0); (5, 2); (3, 4); (1, 2)])
    = length [(3, 0); (5, 2); (3, 4); (1, 2)]
  ∧ NoDup (mids 1 2 [(3, 0); (5, 2); (3, 4); (1, 2)])
  ∧ ∀ mr mc, (mr, mc) ∈ mids 1 2 [(3, 0); (5, 2); (3, 4); (1, 2)] →
      in_bounds mr mc = true
      ∧ cell king_cycle_board mr mc * cell king_cycle_board 1 2 < 0.
Proof.
  apply (captured_pieces king_cycle_board 1 2 [[(0, 1)]; [(0, 3)]]
           [[(3, 0); (5, 2); (3, 4); (1, 2)]; [(3, 4); (5, 2); (3, 0); (1, 2)]]).
  - apply wf_king_cycle_board.
  - reflexivity.
  - reflexivity.
  - left.
Defined.

(** ** The number of pieces after a move *)

Lemma pieces_jump_eq bd cr cc dr dc :
  wf bd → in_bounds cr cc = true → dr ≠ 0 →
  can_jump_p bd (cell bd cr cc) (cr + dr) (cc + dc) (cr + 2 * dr) (cc + 2 * dc) = true →
  (pieces (jump_p bd cr cc (cr + dr) (cc + dc) (cr + 2 * dr) (cc + 2 * dc)) + 1
   = pieces bd)%nat.
Proof.
  intros Hwf Hc Hd (Hm & Hl & Hm0 & Hopp & Hl0)%can_jump_p_true.
  unfold jump_p.
  pose proof (pieces_upd bd cr cc 0 Hwf Hc) as H1.
  pose proof (pieces_upd (upd bd cr cc 0) (cr + dr) (cc + dc) 0
                (wf_upd _ _ _ _ Hwf) Hm) as H2.
  pose proof (pieces_upd (upd (upd bd cr cc 0) (cr + dr) (cc + dc) 0)
                (cr + 2 * dr) (cc + 2 * dc) (crown (cell bd cr cc) (cr + 2 * dr))
                (wf_upd _ _ _ _ (wf_upd _ _ _ _ Hwf)) Hl) as H3.
  assert (Hpc : cell bd cr cc ≠ 0) by lia.
  pose proof (crown_nonzero _ (cr + 2 * dr) Hpc) as Hcr.
  inb. revert H2 H3. cells. intros H2 H3.
  rewrite Hl0 in H3. revert H1 H2 H3. unfold occ.
  repeat case_decide; lia.
Qed.

Lemma chain_pieces bd cr cc q bd' :
  max_chain bd cr cc q bd' → wf bd → in_bounds cr cc = true →
  (pieces bd' + length q = pieces bd)%nat.
Proof.
  induction 1 as [bd cr cc Hno|bd cr cc lr lc nb q bd' Hj Hq IH]; intros Hwf Hc.
  - cbn [length]. lia.
  - destruct (legal_jump_inv _ _ _ _ _ _ Hwf Hc Hj) as (Hl & Hwfn & _).
    specialize (IH Hwfn Hl). destruct Hj as [dr dc Hin Hmb Hlb Hopp Hl0].
    pose proof (scan_dirs_unit _ _ _ Hin) as Hu.
    pose proof (pieces_jump_eq bd cr cc dr dc Hwf Hc) as Hjump.
    cbn [length]. rewrite <- Hjump; [lia|lia|].
    apply can_jump_p_true. split_and!; try done. lia.
Qed.

Lemma chain_final_occupied bd cr cc q bd' :
  max_chain bd cr cc q bd' → wf bd → in_bounds cr cc = true →
  cell bd cr cc ≠ 0 →
  cell bd' (final cr cc q).1 (final cr cc q).2 ≠ 0.
Proof.
  induction 1 as [bd cr cc Hno|bd cr cc lr lc nb q bd' Hj Hq IH];
    intros Hwf Hc Hnz; [done|].
  destruct (legal_jump_inv _ _ _ _ _ _ Hwf Hc Hj) as (Hl & Hwfn & _).
  cbn [final]. apply IH; [done..|].
  rewrite (cell_landing _ _ _ _ _ _ Hwf Hc Hj). by apply crown_nonzero.
Qed.

Lemma chain_start_occupied bd cr cc q bd' :
  max_chain bd cr cc q bd' → q ≠ [] → cell bd cr cc ≠ 0.
Proof.
  intros Hq Hne Hz. inversion Hq as [|? ? ? ? ? ? ? ? Hj]; subst; [done|].
  by eapply no_jump_empty.
Qed.

(** The board of [apply_move] for a chain of the generator is the last
    scratch board of the chain with the moved piece put down anew. *)
Lemma applied_chain b r c q bd' :
  max_chain b r c q bd' → wf b → in_bounds r c = true →
  apply_move_p b r c q
  = upd (upd bd' (final r c q).1 (final r c q).2 0)
        (final r c q).1 (final r c q).2
        (crown (cell b r c) (final r c q).1).
Proof.
  intros Hq Hwf Hb.
  destruct (chain_clear _ _ _ _ _ Hq Hwf Hb) as (_ & _ & Hclear).
  unfold apply_move_p. rewrite Hclear. by destruct (final r c q).
Qed.

(** X3: on a well-formed board, applying a normal move that
    [get_piece_moves] returned leaves the number of pieces on the board as
    it was, and applying a capture path that it returned takes away exactly
    as many pieces as the path has hops. *)
Theorem pieces_after_move b r c nm cm p :
  wf b → in_bounds r c = true → get_piece_moves b r c = Ok (nm, cm) →
  (p ∈ nm → ∃ b', apply_move b (r, c, p) = Ok b' ∧ pieces b' = pieces b)
  ∧ (p ∈ cm → ∃ b', apply_move b (r, c, p) = Ok b'
                ∧ (pieces b' + length p = pieces b)%nat).
Proof.
  intros Hwf Hb E. rewrite get_piece_moves_wf in E by done.
  inversion E; subst. split; intros Hp.
  - destruct (normals_on_board _ _ _ _ Hp) as [_ Hon].
    apply normals_of_spec in Hp as (dr & dc & -> & Hd%directions_unit & Hin & Hz & Hnz).
    eexists. split; [by apply apply_move_wf|].
    unfold apply_move_p. cbn [final mids].
    assert (is_jump r c (r + dr) (c + dc) = false) as ->.
    { unfold is_jump. apply orb_false_iff. split; apply Z.eqb_neq; lia. }
    cbn [app clear_all foldl].
    pose proof (pieces_upd b r c 0 Hwf Hb) as H1.
    pose proof (pieces_upd (upd b r c 0) (r + dr) (c + dc)
                  (crown (cell b r c) (r + dr)) (wf_upd _ _ _ _ Hwf) Hin) as H2.
    rewrite cell_upd_ne in H2 by (inb; (lia || intros [=]; lia)).
    rewrite Hz in H2. pose proof (crown_nonzero _ (r + dr) Hnz) as Hcr.
    revert H1 H2. unfold occ. repeat case_decide; lia.
  - destruct (captures_on_board _ _ _ _ Hwf Hb Hp) as [Hne Hon].
    apply captures_of_spec in Hp as (_ & bd' & Hq); [|done..].
    eexists. split; [by apply apply_move_wf|].
    rewrite (applied_chain _ _ _ _ _ Hq Hwf Hb).
    destruct (chain_clear _ _ _ _ _ Hq Hwf Hb) as (Hwf' & _ & _).
    pose proof (final_in_bounds p r c Hb Hon) as Hf.
    pose proof (chain_start_occupied _ _ _ _ _ Hq Hne) as Hnz.
    pose proof (chain_final_occupied _ _ _ _ _ Hq Hwf Hb Hnz) as Hfnz.
    pose proof (chain_pieces _ _ _ _ _ Hq Hwf Hb) as Hcount.
    destruct (final r c p) as [fr fc]. cbn [fst snd] in *.
    pose proof (pieces_upd bd' fr fc 0 Hwf' Hf) as H1.
    pose proof (pieces_upd (upd bd' fr fc 0) fr fc (crown (cell b r c) fr)
                  (wf_upd _ _ _ _ Hwf') Hf) as H2.
    rewrite cell_upd_eq in H2 by done.
    pose proof (crown_nonzero _ fr Hnz) as Hcr.
    revert H1 H2. unfold occ. repeat case_decide; lia.
Qed.

Lemma pieces_after_move_witness :
  ([(5, 5); (7, 7)] ∈ [[(2, 2)]; [(2, 4)]] →
     ∃ b', apply_move two_chains_board (3, 3, [(5, 5); (7, 7)]) = Ok b'
           ∧ pieces b' = pieces two_chains_board)
  ∧ ([(5, 5); (7, 7)] ∈ [[(5, 1)]; [(5, 5); (7, 7)]] →
       ∃ b', apply_move two_chains_board (3, 3, [(5, 5); (7, 7)]) = Ok b'
             ∧ (pieces b' + length [(5, 5); (7, 7)] = pieces two_chains_board)%nat).
Proof.
  apply (pieces_after_move two_chains_board 3 3
           [[(2, 2)]; [(2, 4)]] [[(5, 1)]; [(5, 5); (7, 7)]] [(5, 5); (7, 7)]).
  - apply wf_two_chains_board.
  - reflexivity.
  - reflexivity.
Defined.

(** ** Generator and applicator together *)

(** X4: after [apply_move] has applied a capture path that
    [get_piece_moves] returned, [get_piece_moves] finds no capture for the
    moved piece on its landing square: the returned chains are maximal on
    the applied board as well, so the multi-jump continuation of [main]
    (lines 347 to 350) has nothing to continue with. *)
Theorem no_capture_after_capture b r c nm cm p :
  wf b → in_bounds r c = true →
  get_piece_moves b r c = Ok (nm, cm) → p ∈ cm →
  ∃ b' nm',
    apply_move b (r, c, p) = Ok b'
    ∧ get_piece_moves b' (final r c p).1 (final r c p).2 = Ok (nm', []).
Proof.
  intros Hwf Hb E Hp. rewrite get_piece_moves_wf in E by done.
  inversion E; subst.
  destruct (captures_on_board _ _ _ _ Hwf Hb Hp) as [Hne Hon].
  apply captures_of_spec in Hp as (_ & bd' & Hq); [|done..].
  pose proof (final_in_bounds p r c Hb Hon) as Hf.
  eexists _, _. split; [by apply apply_move_wf|].
  rewrite get_piece_moves_wf by (done || by apply wf_apply_move_p).
  f_equal. f_equal. apply captures_of_stuck; [by apply wf_apply_move_p|done|].
  by apply (applied_chain_stuck _ _ _ _ _ Hq).
Qed.

Lemma no_capture_after_capture_witness :
  ∃ b' nm',
    apply_move blue_man_board (5, 2, [(7, 4); (5, 6)]) = Ok b'
    ∧ get_piece_moves b' (final 5 2 [(7, 4); (5, 6)]).1
        (final 5 2 [(7, 4); (5, 6)]).2 = Ok (nm', []).
Proof.
  apply (no_capture_after_capture blue_man_board 5 2
           [[(6, 1)]] [[(7, 4); (5, 6)]]).
  - apply wf_blue_man_board.
  - reflexivity.
  - reflexivity.
  - left.
Defined.

Lemma crown_own p lr player : 0 < p * player → 0 < crown p lr * player.
Proof. unfold crown. repeat case_match; lia. Qed.

(** X5: every move that [get_all_moves] returns for a well-formed board
    starts on a piece of the player, has a non-empty path on the board, and
    is accepted by [apply_move], which returns a well-formed board with a
    piece of the player on the last square of the path. *)
Theorem all_moves_apply b player res r c p :
  wf b → get_all_moves b player = Ok res → (r, c, p) ∈ res →
  in_bounds r c = true ∧ 0 < cell b r c * player
  ∧ p ≠ [] ∧ on_board p
  ∧ ∃ b', apply_move b (r, c, p) = Ok b' ∧ wf b'
      ∧ 0 < cell b' (final r c p).1 (final r c p).2 * player.
Proof.
  intros Hwf E Hin.
  assert (Hres : res = if nonempty (owned (captures_of b) b player squares)
                       then owned (captures_of b) b player squares
                       else owned (normals_of b) b player squares).
  { pose proof (get_all_moves_wf b player Hwf) as E'. congruence. }
  rewrite Hres in Hin. clear Hres E.
  assert (Hm : (r, c) ∈ squares ∧ 0 < cell b r c * player
               ∧ (p ∈ captures_of b r c ∨ p ∈ normals_of b r c)).
  { destruct (nonempty _); apply elem_of_owned in Hin; tauto. }
  destruct Hm as (Hb%squares_in_bounds & Hown & Hp).
  assert (Hpath : p ≠ [] ∧ on_board p).
  { destruct Hp as [Hp|Hp]; [by eapply captures_on_board|by eapply normals_on_board]. }
  destruct Hpath as [Hne Hon].
  split_and!; [done..|].
  eexists. split_and!; [by apply apply_move_wf|by apply wf_apply_move_p|].
  pose proof (final_in_bounds p r c Hb Hon) as Hf.
  rewrite cell_apply_move_p by done.
  rewrite decide_True by (by destruct (final r c p)).
  by apply crown_own.
Qed.

Lemma all_moves_apply_witness :
  in_bounds 5 2 = true ∧ 0 < cell start_board 5 2 * 1
  ∧ [(4, 3)] ≠ [] ∧ on_board [(4, 3)]
  ∧ ∃ b', apply_move start_board (5, 2, [(4, 3)]) = Ok b' ∧ wf b'
      ∧ 0 < cell b' (final 5 2 [(4, 3)]).1 (final 5 2 [(4, 3)]).2 * 1.
Proof.
  apply (all_moves_apply start_board 1
           [(5, 0, [(4, 1)]); (5, 2, [(4, 1)]); (5, 2, [(4, 3)]);
            (5, 4, [(4, 3)]); (5, 4, [(4, 5)]); (5, 6, [(4, 5)]);
            (5, 6, [(4, 7)])] 5 2 [(4, 3)]).
  - apply wf_start_board.
  - reflexivity.
  - right. right. left.
Defined.

(** ** Edge cases *)

(** X6: on a well-formed board [is_terminal] returns a value, and that
    value is false exactly when both sides have a piece on the board: the
    game goes on as long as, and only as long as, each side has a piece,
    whether or not the side to move has a move. *)
Theorem terminal_iff_side_without_piece b :
  wf b →
  ∃ t, is_terminal b = Ok t
    ∧ (t = false ↔ has_piece b Red ∧ has_piece b Blue).
Proof.
  intros Hwf. rewrite is_terminal_wf by done. eexists. split; [done|].
  rewrite <- any_red, <- any_blue.
  destruct (existsb (λ '(r, c), 0 <? cell b r c) squares);
    destruct (existsb (λ '(r, c), cell b r c <? 0) squares); cbn; naive_solver.
Qed.

Lemma terminal_iff_side_without_piece_witness :
  ∃ t, is_terminal start_board = Ok t
    ∧ (t = false ↔ has_piece start_board Red ∧ has_piece start_board Blue).
Proof. apply (terminal_iff_side_without_piece start_board), wf_start_board. Defined.

(** X7: [apply_move] accepts an empty path: the piece is lifted from its
    square and put back on it, so every other square is as it was, and the
    square itself holds the piece, crowned if it is a man standing on its
    far row; if there is nothing to crown, the board returned is the board
    given. *)
Theorem apply_move_empty_path b r c :
  wf b → in_bounds r c = true →
  ∃ b', apply_move b (r, c, []) = Ok b'
    ∧ cell b' r c = crown (cell b r c) r
    ∧ (∀ r' c', in_bounds r' c' = true → (r', c') ≠ (r, c) →
         cell b' r' c' = cell b r' c')
    ∧ (crown (cell b r c) r = cell b r c → b' = b).
Proof.
  intros Hwf Hb.
  assert (Hon : on_board []) by constructor.
  assert (Hcells : ∀ r' c', in_bounds r' c' = true →
            cell (apply_move_p b r c []) r' c'
            = if decide ((r', c') = (r, c)) then crown (cell b r c) r
              else cell b r' c').
  { intros r' c' Hb'. rewrite cell_apply_move_p by done. cbn [final mids fst].
    repeat case_decide; try done.
    destruct H0 as [?|?%elem_of_nil]; done. }
  eexists. split; [by apply apply_move_wf|]. split_and!.
  - rewrite Hcells by done. by rewrite decide_True.
  - intros r' c' Hb' Hne. rewrite Hcells by done. by rewrite decide_False.
  - intros Hsame. apply board_ext; [by apply wf_apply_move_p|done|].
    intros r' c' Hb'. rewrite Hcells by done.
    case_decide as Heq; [|done]. inversion Heq; subst. done.
Qed.

Lemma apply_move_empty_path_witness :
  ∃ b', apply_move start_board (5, 0, []) = Ok b'
    ∧ cell b' 5 0 = crown (cell start_board 5 0) 5
    ∧ (∀ r' c', in_bounds r' c' = true → (r', c') ≠ (5, 0) →
         cell b' r' c' = cell start_board r' c')
    ∧ (crown (cell start_board 5 0) 5 = cell start_board 5 0 → b' = start_board).
Proof.
  apply (apply_move_empty_path start_board 5 0).
  - apply wf_start_board.
  - reflexivity.
Defined.

Lemma py_index_None n i :
  i < - Z.of_nat n ∨ Z.of_nat n ≤ i → py_index n i = None.
Proof.
  intros Hi. unfold py_index.
  assert (((0 <=? i) && (i <? Z.of_nat n)) = false) as ->.
  { apply andb_false_iff. lia. }
  assert (((- Z.of_nat n <=? i) && (i <? 0)) = false) as ->; [|done].
  apply andb_false_iff. lia.
Qed.

Lemma getitem_off {A} (l : list A) i :
  i < - Z.of_nat (length l) ∨ Z.of_nat (length l) ≤ i →
  getitem l i = IndexError.
Proof. intros Hi. unfold getitem. by rewrite py_index_None. Qed.

Lemma getitem_row b r :
  wf b →
  match getitem b r with
  | Ok row => length row = 8%nat
  | IndexError => True
  | OutOfFuel => False
  end.
Proof.
  intros [Hl Hrows]. unfold getitem.
  destruct (py_index (length b) r) as [k|]; [|done].
  destruct (b !! k) as [row|] eqn:Hrow; [|done].
  by apply (Forall_lookup_1 _ _ _ _ Hrows Hrow).
Qed.

Lemma bget_off_board b r c :
  wf b → r < - ROWS ∨ ROWS ≤ r ∨ c < - COLS ∨ COLS ≤ c →
  bget b r c = IndexError.
Proof.
  unfold ROWS, COLS. intros Hwf Hoff. unfold bget.
  pose proof (getitem_row b r Hwf) as Hrow.
  destruct (decide (r < -8 ∨ 8 ≤ r)) as [Hr|Hr].
  - rewrite getitem_off; [done|]. destruct Hwf as [-> _]. unfold ROWS. lia.
  - destruct (getitem b r) as [row| |]; [|done..]. cbn.
    rewrite getitem_off; [done|]. rewrite Hrow. lia.
Qed.

(** X8: [get_piece_moves] and [apply_move] subscript the board with the
    square they are given before any bounds check: on a well-formed board,
    for a row or a column from 8 on, or below -8, both raise [IndexError].
    (Rows and columns from -8 to -1 do not raise: Python counts them from
    the end.) *)
Theorem off_board_square_raises b r c path :
  wf b → r < - ROWS ∨ ROWS ≤ r ∨ c < - COLS ∨ COLS ≤ c →
  get_piece_moves b r c = IndexError
  ∧ apply_move b (r, c, path) = IndexError.
Proof.
  intros Hwf Hoff. unfold get_piece_moves, apply_move.
  rewrite clone_board_id. by rewrite bget_off_board.
Qed.

Lemma off_board_square_raises_witness :
  get_piece_moves start_board 8 1 = IndexError
  ∧ apply_move start_board (8, 1, [(7, 0)]) = IndexError.
Proof.
  apply (off_board_square_raises start_board 8 1 [(7, 0)]).
  - apply wf_start_board.
  - unfold ROWS. lia.
Defined.

(** ** The session, event by event *)

Lemma good_inv s : good s → Session.inv s.
Proof.
  intros [Hpos Ht Hst Hsel Hnone]. constructor.
  - apply Hpos.
  - apply Forall_forall. intros [b t] Hin.
    apply list_elem_of_lookup in Hin as [i Hi].
    by destruct (Hst i b t Hi) as [[] _].
  - intros sr sc Hs. destruct (Hsel sr sc Hs) as (Hb & _ & E). split; [done|].
    rewrite E. unfold moves_of. destruct (nonempty _); auto.
Qed.

Lemma select_eq s r c :
  wf (Session.board s) → in_bounds r c = true →
  Session.select s r c (cell (Session.board s) r c)
    (owned (captures_of (Session.board s)) (Session.board s)
       (Session.turn s) squares)
  = Ok (select_result s r c).
Proof.
  intros Hwf Hb. unfold Session.select, select_result, moves_of.
  destruct (0 <? _); [|done]. by rewrite get_piece_moves_wf by done.
Qed.

Lemma final_nonempty (p : Path) sr sc sr' sc' :
  p ≠ [] → final sr sc p = final sr' sc' p.
Proof. by destruct p as [|[r c] p]. Qed.

Lemma find_path_None ps r c :
  Forall (λ p : Path, p ≠ []) ps → Session.find_path ps r c = Ok None →
  ∀ p sr sc, p ∈ ps → final sr sc p ≠ (r, c).
Proof.
  induction 1 as [|q ps Hq Hps IH]; intros E p sr sc Hin.
  - by apply elem_of_nil in Hin.
  - cbn [Session.find_path] in E. rewrite (getitem_last q sr sc Hq) in E.
    rewrite result_bind_ok in E.
    destruct (final sr sc q) as [er ec] eqn:Hfin.
    destruct ((er =? r) && (ec =? c)) eqn:Heq; [done|].
    apply elem_of_cons in Hin as [->|Hin]; [|by apply IH].
    rewrite Hfin. intros [= -> ->]. rewrite !Z.eqb_refl in Heq. done.
Qed.

Lemma click_outside s mx my :
  ¬ (0 ≤ mx < BOARD_SIZE ∧ 0 ≤ my < BOARD_SIZE) → Session.click s mx my = Ok s.
Proof.
  intros Hout. unfold Session.click.
  assert ((mx <? 0) || (BOARD_SIZE <=? mx) || (my <? 0) || (BOARD_SIZE <=? my)
          = true) as ->; [|done].
  rewrite !orb_true_iff. lia.
Qed.

(** A click on the board either applies the first offered path that ends on
    the clicked square, or, if no offered path ends there, selects. *)
Lemma click_shape s mx my :
  Session.inv s → 0 ≤ mx < BOARD_SIZE → 0 ≤ my < BOARD_SIZE →
  (∃ sr sc p,
     Session.selected s = Some (sr, sc)
     ∧ p ∈ Session.legal_paths_for_selected s
     ∧ final sr sc p = (my `div` SQ, mx `div` SQ)
     ∧ Session.click s mx my
       = Ok (Session.State (apply_move_p (Session.board s) sr sc p)
               (Session.turn s * -1) None []
               (Session.undo_stack s ++ [(Session.board s, Session.turn s)])))
  ∨ ((∀ sr sc p, Session.selected s = Some (sr, sc) →
        p ∈ Session.legal_paths_for_selected s →
        final sr sc p ≠ (my `div` SQ, mx `div` SQ))
     ∧ Session.click s mx my
       = Ok (select_result s (my `div` SQ) (mx `div` SQ))).
Proof.
  intros Hinv Hx Hy.
  pose proof (click_square mx my Hx Hy) as Hrc.
  pose proof Hinv as [Hwf Hundo Hsel].
  destruct (Session.selected s) as [[sr sc]|] eqn:Hs.
  - assert (Hall : Forall (λ p : Path, p ≠ [])
                     (Session.legal_paths_for_selected s)).
    { apply Forall_forall. intros q Hq.
      by destruct (offered_paths s sr sc q Hinv Hs Hq). }
    destruct (find_path_spec _ (my `div` SQ) (mx `div` SQ) Hall) as (o & E & Ho).
    destruct o as [p|].
    + destruct (Ho p eq_refl) as (Hin & Hne & Hfin).
      left. exists sr, sc, p. split_and!; [done..|].
      by apply click_move.
    + right. split.
      * intros sr' sc' p _ Hp. by eapply find_path_None.
      * unfold Session.click. rewrite click_guard by done.
        rewrite bget_wf by done. rewrite result_bind_ok.
        rewrite all_captures_wf by done. rewrite result_bind_ok.
        rewrite Hs, E, result_bind_ok. by apply select_eq.
  - right. split; [done|].
    unfold Session.click. rewrite click_guard by done.
    rewrite bget_wf by done. rewrite result_bind_ok.
    rewrite all_captures_wf by done. rewrite result_bind_ok.
    rewrite Hs. by apply select_eq.
Qed.

(** ** Positions of a game *)

Lemma square_cases r c :
  in_bounds r c = true →
  (r = 0 ∨ r = 1 ∨ r = 2 ∨ r = 3 ∨ r = 4 ∨ r = 5 ∨ r = 6 ∨ r = 7)
  ∧ (c = 0 ∨ c = 1 ∨ c = 2 ∨ c = 3 ∨ c = 4 ∨ c = 5 ∨ c = 6 ∨ c = 7).
Proof. intros Hb. inb. unfold ROWS, COLS in Hb. lia. Qed.

Lemma start_position : position_ok start_board 1.
Proof.
  constructor.
  - apply wf_start_board.
  - intros r c [Hr Hc]%square_cases.
    destruct Hr as [->|[->|[->|[->|[->|[->|[->| ->]]]]]]];
      destruct Hc as [->|[->|[->|[->|[->|[->|[->| ->]]]]]]]; by vm_compute.
  - apply dark_only_start_board.
  - intros c [_ Hc]%square_cases.
    destruct Hc as [->|[->|[->|[->|[->|[->|[->| ->]]]]]]]; by vm_compute.
  - exists 0, 1. by vm_compute.
Qed.

Lemma crown_values v lr : -2 ≤ v ≤ 2 → -2 ≤ crown v lr ≤ 2.
Proof. unfold crown. repeat case_match; lia. Qed.

Lemma crown_far_row v :
  crown v 0 ≠ 1 ∧ crown v (ROWS - 1) ≠ -1.
Proof. unfold crown, ROWS. cbn. repeat case_match; lia. Qed.

Lemma elem_of_moves_of b t r c p :
  p ∈ moves_of b t r c → p ∈ normals_of b r c ∨ p ∈ captures_of b r c.
Proof. unfold moves_of. destruct (nonempty _); auto. Qed.

Lemma moves_of_on_board b t r c p :
  wf b → in_bounds r c = true → p ∈ moves_of b t r c → p ≠ [] ∧ on_board p.
Proof.
  intros Hwf Hb [Hp|Hp]%elem_of_moves_of;
    [by eapply normals_on_board|by eapply captures_on_board].
Qed.

(** A move of the side to move leads from a position of a game to a
    position of a game, with the other side to move. *)
Lemma apply_position_ok b t sr sc p :
  position_ok b t → in_bounds sr sc = true → 0 < cell b sr sc * t →
  p ∈ moves_of b t sr sc →
  position_ok (apply_move_p b sr sc p) (t * -1).
Proof.
  intros [Hwf Hval Hdark Hcr _] Hb Hown Hp.
  destruct (moves_of_on_board _ _ _ _ _ Hwf Hb Hp) as [Hne Hon].
  apply elem_of_moves_of in Hp.
  destruct (offered_final_parity b sr sc p Hwf Hb Hp) as [Hnz Hpar].
  pose proof (final_in_bounds p sr sc Hb Hon) as Hfb.
  constructor.
  - by apply wf_apply_move_p.
  - intros r c Hrc. rewrite cell_apply_move_p by done.
    repeat case_decide; [by apply crown_values, Hval|lia|by apply Hval].
  - intros r c Hrc Heven. rewrite cell_apply_move_p by done.
    assert (Hodd : (sr + sc) `mod` 2 ≠ 0).
    { intros Hev. apply Hnz. by apply Hdark. }
    case_decide as Hfin.
    + exfalso. rewrite <- Hfin in Hpar. cbn [fst snd] in Hpar. congruence.
    + case_decide; [done|]. by apply Hdark.
  - intros c Hc.
    assert (Hc' : in_bounds (ROWS - 1) c = true).
    { inb. unfold ROWS, COLS in *. lia. }
    rewrite !cell_apply_move_p by done.
    destruct (Hcr c Hc) as [H0 H7]. pose proof (crown_far_row (cell b sr sc)) as [K0 K7].
    split.
    + case_decide as Hfin; [by rewrite <- Hfin|]. case_decide; [lia|done].
    + case_decide as Hfin; [by rewrite <- Hfin|]. case_decide; [lia|done].
  - exists (final sr sc p).1, (final sr sc p).2. split; [done|].
    rewrite cell_apply_move_p by done.
    rewrite decide_True by (by destruct (final sr sc p)).
    pose proof (crown_own _ (final sr sc p).1 _ Hown) as Hc.
    replace (- (t * -1)) with t by lia. unfold side_of.
    destruct (0 <? t) eqn:Ht; nia.
Qed.

(** ** The invariant of the session *)

Lemma turn_at_S n : turn_at (S n) = turn_at n * -1.
Proof.
  unfold turn_at. rewrite Nat.even_succ, <- Nat.negb_even.
  by destruct (Nat.even n).
Qed.

Lemma restart_good s : Session.restart = Ok s → good s.
Proof.
  unfold Session.restart. rewrite initial_board_eq, result_bind_ok.
  intros [= <-]. constructor; cbn; try done. apply start_position.
Qed.

Lemma undo_good s : good s → good (Session.undo s).
Proof.
  intros [Hpos Ht Hst Hsel Hnone]. unfold Session.undo.
  destruct (Session.pop (Session.undo_stack s)) as [[rest [b t]]|] eqn:E;
    [|by constructor].
  apply pop_Some in E.
  destruct (Hst (length rest) b t) as [Hb Htb].
  { rewrite E. by apply list_lookup_middle. }
  constructor; cbn; try done.
  intros i b' t' Hi. apply (Hst i b' t'). rewrite E.
  by apply lookup_app_l_Some.
Qed.

Lemma select_good s r c :
  good s → in_bounds r c = true → good (select_result s r c).
Proof.
  intros [Hpos Ht Hst Hsel Hnone] Hb. unfold select_result.
  destruct (0 <? _) eqn:Hown; constructor; cbn; try done.
  intros sr sc [= <- <-]. split_and!; [done|lia|done].
Qed.

Lemma move_good s sr sc p :
  good s → Session.selected s = Some (sr, sc) →
  p ∈ Session.legal_paths_for_selected s →
  good (Session.State (apply_move_p (Session.board s) sr sc p)
          (Session.turn s * -1) None []
          (Session.undo_stack s ++ [(Session.board s, Session.turn s)])).
Proof.
  intros [Hpos Ht Hst Hsel Hnone] Hs Hp.
  destruct (Hsel sr sc Hs) as (Hb & Hown & E). rewrite E in Hp.
  constructor; cbn; try done.
  - by apply apply_position_ok.
  - rewrite length_app. cbn. rewrite Nat.add_1_r, turn_at_S. by rewrite Ht.
  - intros i b t Hi. apply lookup_app_Some in Hi as [Hi|[Hlen Hi]].
    + by apply Hst.
    + destruct (i - length (Session.undo_stack s))%nat as [|k] eqn:Hk; [|done].
      cbn in Hi. inversion Hi; subst. split; [done|].
      rewrite Ht. f_equal. lia.
Qed.

Lemma click_good s mx my s' :
  good s → Session.click s mx my = Ok s' → good s'.
Proof.
  intros Hg E. pose proof (good_inv s Hg) as Hinv.
  destruct (decide (0 ≤ mx < BOARD_SIZE ∧ 0 ≤ my < BOARD_SIZE)) as [[Hx Hy]|Hout].
  - destruct (click_shape s mx my Hinv Hx Hy)
      as [(sr & sc & p & Hs & Hp & _ & E')|[_ E']];
      rewrite E' in E; inversion E; subst.
    + by apply move_good.
    + apply select_good; [done|]. by apply click_square.
  - rewrite click_outside in E by done. by inversion E; subst.
Qed.

(** The invariant holds throughout a game. *)
Lemma reachable_good s : Session.reachable s → good s.
Proof.
  induction 1 as [s Hs|s e s' Hr IH Hstep]; [by apply restart_good|].
  destruct e as [| |mx my]; cbn [Session.handle] in Hstep.
  - by apply restart_good.
  - inversion Hstep; subst. by apply undo_good.
  - by eapply click_good.
Qed.

(** Handling events one after the other from the start leads to states of
    a game. *)
Lemma run_reachable es : ∀ s s',
  Session.reachable s → run s es = Ok s' → Session.reachable s'.
Proof.
  induction es as [|e es IH]; intros s s' Hr E; cbn [run] in E.
  - by inversion E; subst.
  - destruct (Session.handle s e) as [s1| |] eqn:E1; [|done..].
    rewrite result_bind_ok in E. eapply IH; [|done].
    by eapply Session.reachable_step.
Qed.

(** ** The session never fails *)

(** X9: the handlers of [main] never fail during a game.  From every
    state that a game can be in, every sequence of events (restart, undo,
    clicks on the board or outside it) is handled to the end: no subscript
    is out of range, no search is cut short; and the state reached is again
    a state of a game. *)
Theorem session_never_raises s es :
  Session.reachable s →
  ∃ s', run s es = Ok s' ∧ Session.reachable s'.
Proof.
  revert s. induction es as [|e es IH]; intros s Hr.
  - by exists s.
  - assert (∃ s1, Session.handle s e = Ok s1) as [s1 E1].
    { destruct e as [| |mx my]; cbn [Session.handle].
      - exists (Session.State start_board 1 None [] []).
        unfold Session.restart. by rewrite initial_board_eq.
      - by eexists.
      - pose proof (good_inv s (reachable_good s Hr)) as Hinv.
        destruct (decide (0 ≤ mx < BOARD_SIZE ∧ 0 ≤ my < BOARD_SIZE))
          as [[Hx Hy]|Hout].
        + destruct (click_shape s mx my Hinv Hx Hy)
            as [(sr & sc & p & _ & _ & _ & E')|[_ E']]; by eexists.
        + exists s. by apply click_outside. }
    destruct (IH s1) as (s' & E & Hr'); [by eapply Session.reachable_step|].
    exists s'. cbn [run]. by rewrite E1, result_bind_ok.
Qed.

Lemma session_never_raises_witness :
  ∃ s', run (Session.State start_board 1 None [] [])
          [Session.Click 50 550; Session.Click 150 450; Session.KeyU;
           Session.Click 900 10; Session.Click 150 250; Session.KeyR]
        = Ok s' ∧ Session.reachable s'.
Proof.
  apply (session_never_raises (Session.State start_board 1 None [] [])).
  by apply Session.reachable_start.
Defined.

(** ** The offered paths and the moves of [get_all_moves] *)

Lemma moves_of_all_moves b t r c p :
  in_bounds r c = true → 0 < cell b r c * t →
  p ∈ moves_of b t r c
  ↔ (r, c, p) ∈ (if nonempty (owned (captures_of b) b t squares)
                 then owned (captures_of b) b t squares
                 else owned (normals_of b) b t squares).
Proof.
  intros Hb Hown. unfold moves_of.
  destruct (nonempty _); rewrite elem_of_owned, squares_in_bounds; tauto.
Qed.

(** X10: in every state of a game in which a square is selected, the
    paths offered for it are exactly the paths of that square among the
    moves that [get_all_moves] returns for the board and the side to move.
    ([main] does not call [get_all_moves]: it builds its own capture list,
    lines 309 to 315, and takes the paths from [get_piece_moves].) *)
Theorem offered_paths_exact s sr sc :
  Session.reachable s → Session.selected s = Some (sr, sc) →
  ∃ ms, get_all_moves (Session.board s) (Session.turn s) = Ok ms
    ∧ ∀ p, p ∈ Session.legal_paths_for_selected s ↔ (sr, sc, p) ∈ ms.
Proof.
  intros Hr Hs. destruct (reachable_good s Hr) as [[Hwf _ _ _ _] _ _ Hsel _].
  destruct (Hsel sr sc Hs) as (Hb & Hown & E).
  eexists. split; [by apply get_all_moves_wf|].
  intros p. rewrite E. by apply moves_of_all_moves.
Qed.

Lemma offered_paths_exact_witness :
  ∃ ms, get_all_moves (Session.board first_selection)
          (Session.turn first_selection) = Ok ms
    ∧ ∀ p, p ∈ Session.legal_paths_for_selected first_selection
           ↔ (5, 0, p) ∈ ms.
Proof.
  apply (offered_paths_exact first_selection 5 0).
  - apply first_selection_reachable.
  - reflexivity.
Defined.

(** X11: a click changes the board only by playing a legal move.  If in a
    state of a game a click leads to a state with another board, then a
    square was selected and the click was on the last square of a move that
    [get_all_moves] returns for the board and the side to move, a move of
    the selected square; the new board is the one that [apply_move] returns
    for this move, the turn has passed to the other side, nothing is
    selected, and the old board and side are on top of the undo stack. *)
Theorem played_move_is_legal s mx my s' :
  Session.reachable s → Session.handle s (Session.Click mx my) = Ok s' →
  Session.board s' ≠ Session.board s →
  ∃ ms sr sc p,
    get_all_moves (Session.board s) (Session.turn s) = Ok ms
    ∧ (sr, sc, p) ∈ ms
    ∧ Session.selected s = Some (sr, sc)
    ∧ final sr sc p = (my `div` SQ, mx `div` SQ)
    ∧ apply_move (Session.board s) (sr, sc, p) = Ok (Session.board s')
    ∧ Session.turn s' = - Session.turn s
    ∧ Session.selected s' = None
    ∧ Session.undo_stack s'
      = Session.undo_stack s ++ [(Session.board s, Session.turn s)].
Proof.
  intros Hr E Hne. cbn [Session.handle] in E.
  pose proof (reachable_good s Hr) as Hg.
  pose proof (good_inv s Hg) as Hinv.
  destruct Hg as [[Hwf _ _ _ _] _ _ Hsel _].
  destruct (decide (0 ≤ mx < BOARD_SIZE ∧ 0 ≤ my < BOARD_SIZE))
    as [[Hx Hy]|Hout].
  - destruct (click_shape s mx my Hinv Hx Hy)
      as [(sr & sc & p & Hs & Hp & Hfin & E')|[_ E']];
      rewrite E' in E; inversion E; subst; clear E.
    + destruct (Hsel sr sc Hs) as (Hb & Hown & Epaths).
      rewrite Epaths in Hp.
      destruct (moves_of_on_board _ _ _ _ _ Hwf Hb Hp) as [Hpne Hon].
      eexists _, sr, sc, p. split_and!.
      * by apply get_all_moves_wf.
      * by apply moves_of_all_moves.
      * done.
      * done.
      * cbn. by apply apply_move_wf.
      * cbn. lia.
      * done.
      * done.
    + exfalso. apply Hne. unfold select_result. by destruct (0 <? _).
  - rewrite click_outside in E by done. by inversion E; subst.
Qed.

Lemma played_move_is_legal_witness :
  ∃ ms sr sc p,
    get_all_moves (Session.board first_selection)
      (Session.turn first_selection) = Ok ms
    ∧ (sr, sc, p) ∈ ms
    ∧ Session.selected first_selection = Some (sr, sc)
    ∧ final sr sc p = (450 `div` SQ, 150 `div` SQ)
    ∧ apply_move (Session.board first_selection) (sr, sc, p)
      = Ok (Session.board first_move)
    ∧ Session.turn first_move = - Session.turn first_selection
    ∧ Session.selected first_move = None
    ∧ Session.undo_stack first_move
      = Session.undo_stack first_selection
        ++ [(Session.board first_selection, Session.turn first_selection)].
Proof.
  apply (played_move_is_legal first_selection 150 450 first_move).
  - apply first_selection_reachable.
  - reflexivity.
  - discriminate.
Defined.

(** ** The side to move *)

(** X12: the side to move follows the undo stack.  In every state of a
    game [turn] is 1 (Red) if the number of snapshots is even and -1 (Blue)
    if it is odd, and the snapshot at index [i] records 1 for even [i] and
    -1 for odd [i]: the sides alternate move by move, a capture gives no
    second move. *)
Theorem turn_follows_undo_stack s :
  Session.reachable s →
  Session.turn s = turn_at (length (Session.undo_stack s))
  ∧ ∀ i b t, Session.undo_stack s !! i = Some (b, t) → t = turn_at i.
Proof.
  intros [_ Ht Hst _ _]%reachable_good. split; [done|].
  intros i b t Hi. by destruct (Hst i b t Hi).
Qed.

Lemma turn_follows_undo_stack_witness :
  Session.turn first_move = turn_at (length (Session.undo_stack first_move))
  ∧ ∀ i b t, Session.undo_stack first_move !! i = Some (b, t) → t = turn_at i.
Proof.
  apply (turn_follows_undo_stack first_move).
  apply (Session.reachable_step first_selection (Session.Click 150 450)).
  - apply first_selection_reachable.
  - reflexivity.
Defined.

(** ** The positions of a game *)

(** X13: every board of a game, the current one and each snapshot of the
    undo stack, is well formed, holds only the values -2 to 2, has pieces on
    dark squares only, and has no Red man on row 0 and no Blue man on the
    last row. *)
Theorem reachable_position s :
  Session.reachable s →
  wf (Session.board s) ∧ piece_values (Session.board s)
  ∧ dark_only (Session.board s) ∧ men_crowned (Session.board s)
  ∧ Forall (λ snap, wf snap.1 ∧ piece_values snap.1 ∧ dark_only snap.1
                    ∧ men_crowned snap.1) (Session.undo_stack s).
Proof.
  intros [[] _ Hst _ _]%reachable_good. split_and!; [done..|].
  apply Forall_forall. intros [b t] Hin.
  apply list_elem_of_lookup in Hin as [i Hi].
  by destruct (Hst i b t Hi) as [[] _].
Qed.

Lemma reachable_position_witness :
  wf (Session.board first_move) ∧ piece_values (Session.board first_move)
  ∧ dark_only (Session.board first_move)
  ∧ men_crowned (Session.board first_move)
  ∧ Forall (λ snap, wf snap.1 ∧ piece_values snap.1 ∧ dark_only snap.1
                    ∧ men_crowned snap.1) (Session.undo_stack first_move).
Proof.
  apply (reachable_position first_move).
  apply (Session.reachable_step first_selection (Session.Click 150 450)).
  - apply first_selection_reachable.
  - reflexivity.
Defined.

(** ** The winner of a game *)

(** X14: in every state of a game the side that is not to move, the one
    that moved last, has a piece.  Hence, when [is_terminal] holds of the
    board of a game, [winner] names that side and never returns [None];
    and when [is_terminal] does not hold, [winner] returns [None]. *)
Theorem winner_is_last_mover s :
  Session.reachable s →
  has_piece (Session.board s) (side_of (- Session.turn s))
  ∧ ∃ t, is_terminal (Session.board s) = Ok t
      ∧ winner (Session.board s)
        = Ok (if t then Some (side_of (- Session.turn s)) else None).
Proof.
  intros [[Hwf _ _ _ Hlast] _ _ _ _]%reachable_good. split; [done|].
  rewrite is_terminal_wf, winner_wf by done. eexists. split; [done|].
  cbv zeta. destruct (side_of (- Session.turn s)).
  - apply any_red in Hlast. rewrite Hlast. cbn.
    by destruct (existsb (λ '(r, c), cell (Session.board s) r c <? 0) squares).
  - apply any_blue in Hlast. rewrite Hlast. cbn.
    by destruct (existsb (λ '(r, c), 0 <? cell (Session.board s) r c) squares).
Qed.

(** ** The highlighted squares *)

Lemma highlights_loop (ps : list Path) : ∀ acc,
  Forall (λ p : Path, p ≠ []) ps →
  for_each ps (λ p hs, x ← getitem p (-1); Ok (hs ++ [x])) acc
  = Ok (acc ++ map (final 0 0) ps).
Proof.
  induction ps as [|p ps IH]; intros acc Hne.
  - cbn. by rewrite app_nil_r.
  - inversion Hne as [|? ? Hp Hps]; subst. cbn [for_each].
    rewrite (getitem_last p 0 0 Hp). rewrite !result_bind_ok.
    rewrite IH by done. by rewrite <- app_assoc.
Qed.

Lemma move_highlights_wf (ps : list Path) :
  Forall (λ p : Path, p ≠ []) ps →
  move_highlights ps
  = Ok (if nonempty ps then Some (map (final 0 0) ps) else None).
Proof.
  intros Hne. unfold move_highlights. destruct (nonempty ps); [|done].
  by rewrite highlights_loop.
Qed.

Lemma good_offered s :
  good s → Forall (λ p : Path, p ≠ []) (Session.legal_paths_for_selected s).
Proof.
  intros Hg. pose proof (good_inv s Hg) as Hinv.
  destruct (Session.selected s) as [[sr sc]|] eqn:Hs.
  - apply Forall_forall. intros q Hq.
    by destruct (offered_paths s sr sc q Hinv Hs Hq).
  - rewrite (good_none s Hg Hs). constructor.
Qed.

(** X15: the highlighted squares are the squares on which a click plays a
    move.  In every state of a game line 274 computes the highlights
    without error, and they are [None] exactly when no path is offered; a
    click on a highlighted square passes the turn and pushes the position on
    the undo stack; a click on any other square of the board leaves the
    board, the side to move and the undo stack as they are. *)
Theorem highlights_iff_move s mx my :
  Session.reachable s → 0 ≤ mx < BOARD_SIZE → 0 ≤ my < BOARD_SIZE →
  ∃ hs s',
    move_highlights (Session.legal_paths_for_selected s) = Ok hs
    ∧ Session.handle s (Session.Click mx my) = Ok s'
    ∧ (hs = None ↔ Session.legal_paths_for_selected s = [])
    ∧ ((∃ l, hs = Some l ∧ (my `div` SQ, mx `div` SQ) ∈ l) →
         Session.turn s' = - Session.turn s
         ∧ Session.undo_stack s'
           = Session.undo_stack s ++ [(Session.board s, Session.turn s)])
    ∧ (¬ (∃ l, hs = Some l ∧ (my `div` SQ, mx `div` SQ) ∈ l) →
         Session.board s' = Session.board s
         ∧ Session.turn s' = Session.turn s
         ∧ Session.undo_stack s' = Session.undo_stack s).
Proof.
  intros Hr Hx Hy. pose proof (reachable_good s Hr) as Hg.
  pose proof (good_inv s Hg) as Hinv.
  pose proof (good_offered s Hg) as Hne.
  assert (Hmem : ∀ sr sc,
    (my `div` SQ, mx `div` SQ) ∈ map (final 0 0) (Session.legal_paths_for_selected s)
    ↔ ∃ p, p ∈ Session.legal_paths_for_selected s
           ∧ final sr sc p = (my `div` SQ, mx `div` SQ)).
  { intros sr sc. rewrite list_elem_of_fmap. split.
    - intros (p & E & Hp). exists p. split; [done|].
      rewrite E. apply final_nonempty.
      by apply (proj1 (Forall_forall _ _) Hne).
    - intros (p & Hp & E). exists p. split; [|done].
      rewrite <- E. apply final_nonempty.
      by apply (proj1 (Forall_forall _ _) Hne). }
  eexists. rewrite move_highlights_wf by done. cbn [Session.handle].
  destruct (click_shape s mx my Hinv Hx Hy)
    as [(sr & sc & p & Hs & Hp & Hfin & E)|[Hno E]];
    rewrite E; eexists; (split; [done|]); (split; [done|]).
  - split; [by destruct (Session.legal_paths_for_selected s)|].
    split.
    + intros _. cbn. split; [lia|done].
    + intros Hnot. exfalso. apply Hnot.
      destruct (Session.legal_paths_for_selected s) as [|q ps] eqn:Eps;
        [by apply elem_of_nil in Hp|].
      cbn [nonempty]. eexists. split; [done|].
      apply (Hmem sr sc). by exists p.
  - split; [by destruct (Session.legal_paths_for_selected s)|].
    split.
    + intros (l & El & Hin). exfalso.
      destruct (Session.legal_paths_for_selected s) as [|q ps] eqn:Eps; [done|].
      cbn [nonempty] in El. inversion El; subst l.
      destruct (Session.selected s) as [[sr sc]|] eqn:Hs.
      * apply (Hmem sr sc) in Hin as (p & Hp & Hfin).
        by apply (Hno sr sc p).
      * pose proof (good_none s Hg Hs). congruence.
    + intros _. unfold select_result. by destruct (0 <? _).
Qed.

Lemma first_move_reachable : Session.reachable first_move.
Proof.
  apply (Session.reachable_step first_selection (Session.Click 150 450)).
  - apply first_selection_reachable.
  - reflexivity.
Defined.

Lemma game_over_reachable : Session.reachable game_over.
Proof.
  apply (run_reachable full_game (Session.State start_board 1 None [] [])).
  - by apply Session.reachable_start.
  - by vm_compute.
Defined.

(** The game ends with Red as the winner, after a move of Red. *)
Example game_over_terminal :
  is_terminal (Session.board game_over) = Ok true
  ∧ winner (Session.board game_over) = Ok (Some Red)
  ∧ Session.turn game_over = -1
  ∧ length (Session.undo_stack game_over) = 27%nat.
Proof. by vm_compute. Qed.

Lemma winner_is_last_mover_witness :
  has_piece (Session.board game_over) (side_of (- Session.turn game_over))
  ∧ ∃ t, is_terminal (Session.board game_over) = Ok t
      ∧ winner (Session.board game_over)
        = Ok (if t then Some (side_of (- Session.turn game_over)) else None).
Proof. apply (winner_is_last_mover game_over), game_over_reachable. Defined.

Lemma highlights_iff_move_witness :
  ∃ hs s',
    move_highlights (Session.legal_paths_for_selected first_selection) = Ok hs
    ∧ Session.handle first_selection (Session.Click 150 450) = Ok s'
    ∧ (hs = None ↔ Session.legal_paths_for_selected first_selection = [])
    ∧ ((∃ l, hs = Some l ∧ (450 `div` SQ, 150 `div` SQ) ∈ l) →
         Session.turn s' = - Session.turn first_selection
         ∧ Session.undo_stack s'
           = Session.undo_stack first_selection
             ++ [(Session.board first_selection, Session.turn first_selection)])
    ∧ (¬ (∃ l, hs = Some l ∧ (450 `div` SQ, 150 `div` SQ) ∈ l) →
         Session.board s' = Session.board first_selection
         ∧ Session.turn s' = Session.turn first_selection
         ∧ Session.undo_stack s' = Session.undo_stack first_selection).
Proof.
  apply (highlights_iff_move first_selection 150 450).
  - apply first_selection_reachable.
  - unfold BOARD_SIZE. lia.
  - unfold BOARD_SIZE. lia.
Defined.

(** ** No move is listed twice *)

Lemma NoDup_omap_inj {A B} (f : A → option B) (l : list A) :
  (∀ x y z, f x = Some z → f y = Some z → x = y) →
  NoDup l → NoDup (omap f l).
Proof.
  intros Hinj. induction 1 as [|x l Hx Hl IH]; [constructor|].
  cbn [omap list_omap]. destruct (f x) as [z|] eqn:E; [|done].
  apply NoDup_cons. split; [|done].
  intros (y & Hy & Ey)%list_elem_of_omap.
  by rewrite (Hinj x y z E Ey) in Hx.
Qed.

Lemma NoDup_directions piece : NoDup (directions piece).
Proof.
  unfold directions, all_dirs, up_dirs, down_dirs.
  repeat case_match; by apply (bool_decide_unpack _).
Qed.

Lemma NoDup_normals_of b r c : NoDup (normals_of b r c).
Proof.
  unfold normals_of. case_match; [constructor|].
  apply NoDup_omap_inj; [|apply NoDup_directions].
  intros [dr dc] [dr' dc'] z. unfold step_of.
  repeat case_match; try done. intros [= <-] [= ? ?]. f_equal; lia.
Qed.

Lemma NoDup_captures_of b r c :
  wf b → in_bounds r c = true → NoDup (captures_of b r c).
Proof.
  intros Hwf Hb. destruct (get_piece_moves_spec b r c Hwf Hb) as (cm & E & _ & N).
  unfold captures_of. by rewrite E.
Qed.

Lemma NoDup_squares : NoDup squares.
Proof. by apply (bool_decide_unpack _). Qed.

Lemma NoDup_owned f b player :
  (∀ r c, in_bounds r c = true → NoDup (f r c)) →
  NoDup (owned f b player squares).
Proof.
  intros Hf. unfold owned. apply NoDup_bind; [| |apply NoDup_squares].
  - intros [r1 c1] [r2 c2] [[r c] p] _ _ H1 H2.
    destruct (0 <? cell b r1 c1 * player); [|by apply elem_of_nil in H1].
    destruct (0 <? cell b r2 c2 * player); [|by apply elem_of_nil in H2].
    apply list_elem_of_fmap in H1 as (? & [= -> -> _] & _).
    by apply list_elem_of_fmap in H2 as (? & [= -> -> _] & _).
  - intros [r c] Hb%squares_in_bounds. case_match; [|constructor].
    apply NoDup_fmap_2_strong; [|by apply Hf]. by intros p q _ _ [=].
Qed.

(** X16: on a well-formed board [get_all_moves] lists no move twice. *)
Theorem all_moves_NoDup b player res :
  wf b → get_all_moves b player = Ok res → NoDup res.
Proof.
  intros Hwf E.
  assert (Hres : res = if nonempty (owned (captures_of b) b player squares)
                       then owned (captures_of b) b player squares
                       else owned (normals_of b) b player squares).
  { pose proof (get_all_moves_wf b player Hwf) as E'. congruence. }
  rewrite Hres. destruct (nonempty _); apply NoDup_owned; intros r c Hb;
    [by apply NoDup_captures_of|apply NoDup_normals_of].
Qed.

Lemma all_moves_NoDup_witness :
  NoDup [(5, 0, [(4, 1)]); (5, 2, [(4, 1)]); (5, 2, [(4, 3)]);
         (5, 4, [(4, 3)]); (5, 4, [(4, 5)]); (5, 6, [(4, 5)]);
         (5, 6, [(4, 7)])].
Proof.
  apply (all_moves_NoDup start_board 1).
  - apply wf_start_board.
  - reflexivity.
Defined.

(** ** Undoing every move *)

Lemma reachable_from_start s : Session.reachable s → from_start s.
Proof.
  induction 1 as [s Hs|s e s' Hr IH Hstep].
  - unfold Session.restart in Hs. rewrite initial_board_eq, result_bind_ok in Hs.
    by inversion Hs; subst.
  - pose proof (good_inv s (reachable_good s Hr)) as Hinv.
    destruct e as [| |mx my]; cbn [Session.handle] in Hstep.
    + unfold Session.restart in Hstep.
      rewrite initial_board_eq, result_bind_ok in Hstep. by inversion Hstep; subst.
    + inversion Hstep; subst. unfold Session.undo.
      destruct (Session.pop (Session.undo_stack s)) as [[rest [b t]]|] eqn:E;
        [|done].
      apply pop_Some in E. unfold from_start in IH |- *. rewrite E in IH. cbn.
      destruct rest as [|snap rest]; cbn in IH |- *; [by inversion IH|done].
    + destruct (decide (0 ≤ mx < BOARD_SIZE ∧ 0 ≤ my < BOARD_SIZE))
        as [[Hx Hy]|Hout].
      * destruct (click_shape s mx my Hinv Hx Hy)
          as [(sr & sc & p & _ & _ & _ & E')|[_ E']];
          rewrite E' in Hstep; inversion Hstep; subst.
        -- unfold from_start in IH |- *. cbn.
           destruct (Session.undo_stack s) as [|snap rest]; cbn; [|done].
           by destruct IH as [-> ->].
        -- unfold select_result, from_start in *. by destruct (0 <? _).
      * rewrite click_outside in Hstep by done. by inversion Hstep; subst.
Qed.

Lemma in_play_not_terminal b : in_play b ↔ is_terminal b = Ok false ∧ wf b.
Proof.
  unfold in_play. split.
  - intros (Hwf & Hr%any_red & Hb%any_blue). split; [|done].
    rewrite is_terminal_wf by done. by rewrite Hr, Hb.
  - intros [E Hwf]. rewrite is_terminal_wf in E by done.
    rewrite <- any_red, <- any_blue.
    destruct (existsb (λ '(r, c), 0 <? cell b r c) squares);
      destruct (existsb (λ '(r, c), cell b r c <? 0) squares); by cbn in E.
Qed.

Lemma own_piece_side b r c t :
  in_bounds r c = true → 0 < cell b r c * t → has_piece b (side_of t).
Proof.
  intros Hb Hown. exists r, c. split; [done|]. unfold side_of.
  destruct (0 <? t) eqn:Ht; nia.
Qed.

Lemma side_of_opp t : t ≠ 0 → side_of (- t) = other (side_of t).
Proof. intros Ht. unfold side_of. repeat case_match; try done; lia. Qed.

(** A move is made only on a board with a piece of each side, so every
    snapshot is such a board. *)
Lemma reachable_snapshots_in_play s :
  Session.reachable s → Forall (λ snap, in_play snap.1) (Session.undo_stack s).
Proof.
  induction 1 as [s Hs|s e s' Hr IH Hstep].
  - unfold Session.restart in Hs. rewrite initial_board_eq, result_bind_ok in Hs.
    inversion Hs; subst. constructor.
  - pose proof (reachable_good s Hr) as Hg.
    pose proof (good_inv s Hg) as Hinv.
    destruct e as [| |mx my]; cbn [Session.handle] in Hstep.
    + unfold Session.restart in Hstep.
      rewrite initial_board_eq, result_bind_ok in Hstep.
      inversion Hstep; subst. constructor.
    + inversion Hstep; subst. unfold Session.undo.
      destruct (Session.pop (Session.undo_stack s)) as [[rest [b t]]|] eqn:E;
        [|done].
      apply pop_Some in E. rewrite E in IH. cbn.
      by apply Forall_app in IH as [? _].
    + destruct (decide (0 ≤ mx < BOARD_SIZE ∧ 0 ≤ my < BOARD_SIZE))
        as [[Hx Hy]|Hout].
      * destruct (click_shape s mx my Hinv Hx Hy)
          as [(sr & sc & p & Hs & _ & _ & E')|[_ E']];
          rewrite E' in Hstep; inversion Hstep; subst.
        -- cbn. apply Forall_app. split; [done|]. constructor; [|constructor].
           destruct Hg as [[Hwf _ _ _ Hlast] _ _ Hsel _].
           destruct (Hsel sr sc Hs) as (Hb & Hown & _).
           pose proof (own_piece_side _ _ _ _ Hb Hown) as Hmine.
           rewrite side_of_opp in Hlast by lia.
           cbn. split; [done|].
           destruct (side_of (Session.turn s)); by cbn in Hlast.
        -- unfold select_result. by destruct (0 <? _).
      * rewrite click_outside in Hstep by done. by inversion Hstep; subst.
Qed.

Lemma undo_steps k : ∀ s,
  from_start s → Forall (λ snap, in_play snap.1) (Session.undo_stack s) →
  is_terminal (Session.board s) = Ok false →
  (k ≤ length (Session.undo_stack s))%nat →
  ∃ s', run s (replicate k Session.KeyU) = Ok s'
    ∧ from_start s'
    ∧ is_terminal (Session.board s') = Ok false
    ∧ length (Session.undo_stack s') = (length (Session.undo_stack s) - k)%nat.
Proof.
  induction k as [|k IH]; intros s Hs Hlive Ht Hk.
  - exists s. split_and!; [done..|lia].
  - cbn [replicate run Session.handle]. rewrite result_bind_ok.
    destruct (Session.pop (Session.undo_stack s)) as [[rest [b t]]|] eqn:E.
    + pose proof (pop_Some _ _ _ E) as Est.
      rewrite Est in Hlive. apply Forall_app in Hlive as [Hrest Hb].
      inversion Hb as [|? ? Hb' _]; subst. cbn in Hb'.
      destruct (IH (Session.undo s)) as (s' & Erun & Hs' & Ht' & Hlen);
        unfold Session.undo; rewrite E; cbn.
      * unfold from_start in Hs |- *. rewrite Est in Hs. cbn.
        destruct rest as [|snap rest]; cbn in Hs |- *; [by inversion Hs|done].
      * done.
      * by apply in_play_not_terminal.
      * rewrite Est, length_app in Hk. cbn in Hk. lia.
      * exists s'. unfold Session.undo in Erun. rewrite E in Erun.
        split_and!; [done..|].
        unfold Session.undo in Hlen. rewrite E in Hlen. cbn in Hlen.
        rewrite Hlen, Est, length_app. cbn. lia.
    + unfold Session.pop in E.
      destruct (Session.undo_stack s) as [|x l] eqn:El; [cbn in Hk; lia|].
      destruct (last (x :: l)) eqn:Elast; [done|].
      by apply last_None in Elast.
Qed.

(** X17: undoing leads back to the start, and never into the win popup.
    Take a state of a game whose board is not terminal, so that [main]
    hands events to its handlers (the check of lines 260 to 270 opens no
    popup), and any number [k] of presses of U up to the number of
    snapshots on the undo stack.  They are handled without error; the board
    after them is again not terminal, for every such [k], so that no popup
    opens between two presses either; [k] snapshots are gone; and when all
    of them are gone the board is the starting board, Red is to move and
    the undo stack is empty. *)
Theorem undo_all_restores_start s k :
  Session.reachable s → is_terminal (Session.board s) = Ok false →
  (k ≤ length (Session.undo_stack s))%nat →
  ∃ s', run s (replicate k Session.KeyU) = Ok s'
    ∧ is_terminal (Session.board s') = Ok false
    ∧ length (Session.undo_stack s') = (length (Session.undo_stack s) - k)%nat
    ∧ (k = length (Session.undo_stack s) →
         Session.board s' = start_board ∧ Session.turn s' = 1
         ∧ Session.undo_stack s' = []).
Proof.
  intros Hr Ht Hk.
  destruct (undo_steps k s) as (s' & E & Hs' & Ht' & Hlen);
    [by apply reachable_from_start|by apply reachable_snapshots_in_play|done..|].
  exists s'. split_and!; [done..|].
  intros ->. rewrite Nat.sub_diag in Hlen. unfold from_start in Hs'.
  destruct (Session.undo_stack s'); [|done]. by destruct Hs'.
Qed.

Lemma mid_game_reachable : Session.reachable mid_game.
Proof.
  apply (run_reachable (take 20 full_game)
           (Session.State start_board 1 None [] [])).
  - by apply Session.reachable_start.
  - by vm_compute.
Defined.

Lemma undo_all_restores_start_witness :
  ∃ s', run mid_game (replicate 10 Session.KeyU) = Ok s'
    ∧ is_terminal (Session.board s') = Ok false
    ∧ length (Session.undo_stack s')
      = (length (Session.undo_stack mid_game) - 10)%nat
    ∧ (10%nat = length (Session.undo_stack mid_game) →
         Session.board s' = start_board ∧ Session.turn s' = 1
         ∧ Session.undo_stack s' = []).
Proof.
  apply (undo_all_restores_start mid_game 10).
  - apply mid_game_reachable.
  - by vm_compute.
  - by vm_compute.
Defined.

(** ** The backward capture of a man, in play *)

(** The backward capture arises in a game.  After the first ten moves of
    [full_game] Red is to move and [get_all_moves] returns a single move,
    a capture by the man on (4, 7): forward to (2, 5) and (0, 3), where the
    scratch board crowns it, then backward to (2, 1) and (4, 3).
    [apply_move] puts the piece down on (4, 3) as a man. *)
Lemma backward_capture_in_play :
  Session.reachable mid_game
  ∧ Session.turn mid_game = 1
  ∧ cell (Session.board mid_game) 4 7 = 1
  ∧ get_all_moves (Session.board mid_game) (Session.turn mid_game)
    = Ok [(4, 7, [(2, 5); (0, 3); (2, 1); (4, 3)])]
  ∧ ¬ all_forward 1 4 [(2, 5); (0, 3); (2, 1); (4, 3)]
  ∧ ∃ b', apply_move (Session.board mid_game)
            (4, 7, [(2, 5); (0, 3); (2, 1); (4, 3)]) = Ok b'
      ∧ cell b' 4 3 = 1.
Proof.
  split_and!; [apply mid_game_reachable|by vm_compute..| |].
  - intros (_ & _ & Hback & _). vm_compute in Hback. discriminate.
  - eexists. split; by vm_compute.
Qed.
